(** * Lookahead: a depth-limited CFR+ re-solver over layered tensors

    Shallow embedding of [src/Lookahead/lookahead.py] (class [Lookahead]).

    - numpy's float arrays are modelled by [ndarray]: a shape and the
      elements in row-major (C) order, the way numpy lays out the arrays
      this file creates by [copy], [reshape] and arithmetic;
    - array elements are [num]: rationals extended with the two infinities
      and NaN.  Arithmetic is exact (no rounding) and there is no negative
      zero; division by zero, NaN propagation and the comparisons with NaN
      follow IEEE 754, which is what the source relies on.  Where a
      property depends on the rounding of float64 (the strategy of regret
      matching sums to 1 only up to it), the phase is given a second time
      with every operation rounded, see [_compute_current_strategies_fl]
      and [binary64];
    - a method of the class is a function on the record [Lookahead] (the
      object [self]) in the error monad [result], whose errors are the
      Python exceptions the method can raise;
    - the collaborators that are not part of this file (the CFR-D gadget,
      the terminal equity and the next-street value network) are taken as
      parameters, see [Collab]; every entry into a phase of [_compute] and
      every call to the gadget is recorded in the ghost field [trace]. *)

From stdpp Require Import base list gmap.
From Stdlib Require Import QArith Qpower Lqa Lia ZArith.

Open Scope nat_scope.

(** ** Numbers *)

Module Num.

Inductive num := Fin (q : Q) | PInf | NInf | NaN.

Definition zero : num := Fin 0.
Definition one : num := Fin 1.

Definition of_Z (z : Z) : num := Fin (inject_Z z).

Definition is_nan (x : num) : bool :=
  match x with NaN => true | _ => false end.

Definition is_fin (x : num) : bool :=
  match x with Fin _ => true | _ => false end.

Definition Qzerob (q : Q) : bool := Qeq_bool q 0.
Definition Qposb (q : Q) : bool := negb (Qle_bool q 0).

Definition opp (x : num) : num :=
  match x with
  | Fin q => Fin (- q)
  | PInf => NInf
  | NInf => PInf
  | NaN => NaN
  end.

Definition add (x y : num) : num :=
  match x, y with
  | NaN, _ | _, NaN => NaN
  | Fin a, Fin b => Fin (a + b)
  | PInf, NInf | NInf, PInf => NaN
  | PInf, _ | _, PInf => PInf
  | NInf, _ | _, NInf => NInf
  end.

Definition sub (x y : num) : num := add x (opp y).

(** An infinity times a finite number: NaN at zero, else the sign decides. *)
Definition inf_scale (pos : bool) (q : Q) : num :=
  if Qzerob q then NaN
  else if Bool.eqb pos (Qposb q) then PInf else NInf.

Definition mul (x y : num) : num :=
  match x, y with
  | NaN, _ | _, NaN => NaN
  | Fin a, Fin b => Fin (a * b)
  | PInf, Fin b => inf_scale true b
  | NInf, Fin b => inf_scale false b
  | Fin a, PInf => inf_scale true a
  | Fin a, NInf => inf_scale false a
  | PInf, PInf | NInf, NInf => PInf
  | PInf, NInf | NInf, PInf => NInf
  end.

(** Division as numpy does it on floats: no exception, [0/0] is NaN and
    [x/0] is an infinity of the sign of [x] (the zero is positive). *)
Definition div (x y : num) : num :=
  match x, y with
  | NaN, _ | _, NaN => NaN
  | Fin a, Fin b =>
      if Qzerob b then
        (if Qzerob a then NaN else if Qposb a then PInf else NInf)
      else Fin (a / b)
  | Fin _, (PInf | NInf) => Fin 0
  | PInf, Fin b => if Qle_bool 0 b then PInf else NInf
  | NInf, Fin b => if Qle_bool 0 b then NInf else PInf
  | (PInf | NInf), (PInf | NInf) => NaN
  end.

(** [x <= y]; false as soon as one side is NaN. *)
Definition leb (x y : num) : bool :=
  match x, y with
  | NaN, _ | _, NaN => false
  | NInf, _ | _, PInf => true
  | Fin a, Fin b => Qle_bool a b
  | _, _ => false
  end.

(** [x == y] and [x != y] of numpy: NaN differs from everything, itself
    included. *)
Definition eqb (x y : num) : bool :=
  match x, y with
  | Fin a, Fin b => Qeq_bool a b
  | PInf, PInf | NInf, NInf => true
  | _, _ => false
  end.

Definition neb (x y : num) : bool := negb (eqb x y).

(** [np.maximum] and [np.minimum] propagate NaN. *)
Definition maximum (x y : num) : num :=
  match x, y with
  | NaN, _ | _, NaN => NaN
  | _, _ => if leb y x then x else y
  end.

Definition minimum (x y : num) : num :=
  match x, y with
  | NaN, _ | _, NaN => NaN
  | _, _ => if leb x y then x else y
  end.

(** [np.clip(x, lo, hi)] is [np.minimum(np.maximum(x, lo), hi)]. *)
Definition clip (lo hi : Q) (x : num) : num :=
  minimum (maximum x (Fin lo)) (Fin hi).

(** The order on values that are numbers: [0 <= x]. *)
Definition nonneg (x : num) : Prop :=
  match x with
  | Fin q => (0 <= q)%Q
  | PInf => True
  | _ => False
  end.

(** The same number with the rational in lowest terms. *)
Definition canon (x : num) : num :=
  match x with
  | Fin q => Fin (Qred q)
  | _ => x
  end.

(** Equality up to the representation of a rational. *)
Definition equiv (x y : num) : Prop :=
  match x, y with
  | Fin a, Fin b => (a == b)%Q
  | PInf, PInf | NInf, NInf | NaN, NaN => True
  | _, _ => False
  end.

End Num.

Import Num.

(** ** Errors *)

Inductive exn :=
| ValueError        (* shapes that cannot be reshaped or broadcast *)
| IndexError        (* an index out of bounds, too many indices *)
| KeyError          (* a key missing from a dict *)
| AssertionError
| UnboundLocalError (* a local read before it was assigned *)
| AttributeError.   (* an attribute read before it was set *)

Inductive result (A : Type) :=
| OK (a : A)
| Raise (e : exn).
Arguments OK {A} a.
Arguments Raise {A} e.

Definition bind {A B} (m : result A) (k : A -> result B) : result B :=
  match m with
  | OK a => k a
  | Raise e => Raise e
  end.

Notation "'do' x <- m ; k" := (bind m (fun x => k))
  (at level 10, x name, m at level 100, k at level 200,
   format "'[v' 'do'  x  <-  m ; '/' k ']'").
Notation "'do' ' p <- m ; k" := (bind m (fun x => let 'p := x in k))
  (at level 10, p pattern, m at level 100, k at level 200).

Definition of_option {A} (e : exn) (o : option A) : result A :=
  match o with Some a => OK a | None => Raise e end.

Definition assert (b : bool) : result unit :=
  if b then OK tt else Raise AssertionError.

Definition succeeds {A} (m : result A) : bool :=
  match m with OK _ => true | Raise _ => false end.

(** ** Arrays *)

Module Np.

(** A numpy array of floats: its shape and its elements in row-major
    order.  An array is well formed when it has as many elements as its
    shape says, see [wf]. *)
Record ndarray := mkArr { shape : list nat; data : list num }.

Definition numel (sh : list nat) : nat := fold_right Nat.mul 1 sh.

Definition wf (a : ndarray) : Prop := length (data a) = numel (shape a).

Definition wfb (a : ndarray) : bool := length (data a) =? numel (shape a).

(** Position of a multi-index in the row-major order, and back. *)
Fixpoint ravel (sh idx : list nat) : nat :=
  match sh, idx with
  | _ :: sh', i :: idx' => i * numel sh' + ravel sh' idx'
  | _, _ => 0
  end.

Fixpoint unravel (sh : list nat) (k : nat) : list nat :=
  match sh with
  | [] => []
  | _ :: sh' => k / numel sh' :: unravel sh' (k mod numel sh')
  end.

Definition in_bounds (sh idx : list nat) : Prop := Forall2 lt idx sh.

Definition get (a : ndarray) (idx : list nat) : num :=
  nth (ravel (shape a) idx) (data a) zero.

(** The array of shape [sh] whose element at [idx] is [f idx]. *)
Definition build (sh : list nat) (f : list nat -> num) : ndarray :=
  mkArr sh (map (fun k => f (unravel sh k)) (seq 0 (numel sh))).

Definition full (sh : list nat) (x : num) : ndarray :=
  mkArr sh (repeat x (numel sh)).

Definition ones_like (a : ndarray) : ndarray := full (shape a) one.

(** [f] applied to every element. *)
Definition amap (f : num -> num) (a : ndarray) : ndarray :=
  build (shape a) (fun idx => f (get a idx)).

(** *** Broadcasting

    Shapes are aligned at their last axis; two dimensions are compatible
    when they are equal or one of them is 1. *)
Fixpoint bshape_rev (r1 r2 : list nat) : option (list nat) :=
  match r1, r2 with
  | [], r | r, [] => Some r
  | a :: r1', b :: r2' =>
      match bshape_rev r1' r2' with
      | None => None
      | Some rest =>
          if a =? b then Some (a :: rest)
          else if a =? 1 then Some (b :: rest)
          else if b =? 1 then Some (a :: rest)
          else None
      end
  end.

Definition bshape (s1 s2 : list nat) : option (list nat) :=
  option_map (@rev nat) (bshape_rev (rev s1) (rev s2)).

(** The index into an operand of shape [s] for the index [idx] of the
    broadcast result: axes of size 1 are read at 0, missing leading axes
    are dropped. *)
Fixpoint bidx_rev (s idx : list nat) : list nat :=
  match s with
  | [] => []
  | n :: s' =>
      match idx with
      | [] => 0 :: bidx_rev s' []
      | i :: idx' => (if n =? 1 then 0 else i) :: bidx_rev s' idx'
      end
  end.

Definition bidx (s idx : list nat) : list nat :=
  rev (bidx_rev (rev s) (rev idx)).

(** [a (op) b] on arrays. *)
Definition binop (f : num -> num -> num) (a b : ndarray) : result ndarray :=
  match bshape (shape a) (shape b) with
  | None => Raise ValueError
  | Some sh =>
      OK (build sh (fun idx =>
                      f (get a (bidx (shape a) idx)) (get b (bidx (shape b) idx))))
  end.

(** [a (op)= b]: the result is stored in [a], so that [b] has to broadcast
    to the shape of [a]. *)
Definition iop (f : num -> num -> num) (a b : ndarray) : result ndarray :=
  match bshape (shape a) (shape b) with
  | None => Raise ValueError
  | Some sh =>
      if decide (sh = shape a) then
        OK (build sh (fun idx => f (get a idx) (get b (bidx (shape b) idx))))
      else Raise ValueError
  end.

(** *** Reshape and transpose *)

(** [a.reshape(dims)], where one dimension may be [-1]. *)
Definition is_hole (d : Z) : bool := (d =? -1)%Z.

Definition reshape (a : ndarray) (dims : list Z) : result ndarray :=
  if forallb (fun d => (-1 <=? d)%Z) dims then
    let known :=
      fold_right Z.mul 1%Z (List.filter (fun d => negb (is_hole d)) dims) in
    let total := Z.of_nat (numel (shape a)) in
    match length (List.filter is_hole dims) with
    | 0 =>
        if (known =? total)%Z
        then OK (mkArr (map Z.to_nat dims) (data a))
        else Raise ValueError
    | 1 =>
        if (known =? 0)%Z then Raise ValueError
        else if (total mod known =? 0)%Z
        then OK (mkArr (map (fun d => if is_hole d
                                      then Z.to_nat (total / known)
                                      else Z.to_nat d) dims)
                       (data a))
        else Raise ValueError
    | _ => Raise ValueError
    end
  else Raise ValueError.

Definition reshape_as (a : ndarray) (sh : list nat) : result ndarray :=
  reshape a (map Z.of_nat sh).

Fixpoint index_of (j : nat) (perm : list nat) : option nat :=
  match perm with
  | [] => None
  | p :: perm' => if p =? j then Some 0 else option_map S (index_of j perm')
  end.

Definition is_perm (perm : list nat) : bool :=
  forallb (fun j => match index_of j perm with Some _ => true | None => false end)
          (seq 0 (length perm)).

(** [np.transpose(a, perm)]: axis [k] of the result is axis [perm[k]] of
    [a]. *)
Definition transpose (a : ndarray) (perm : list nat) : result ndarray :=
  if (length perm =? length (shape a)) && is_perm perm then
    OK (build (map (fun p => nth p (shape a) 0) perm)
              (fun idx => get a (map (fun j => match index_of j perm with
                                               | Some k => nth k idx 0
                                               | None => 0
                                               end)
                                     (seq 0 (length perm)))))
  else Raise ValueError.

(** *** Indexing

    An index expression is a list of integers and slices [lo:hi], one per
    axis from the first; the axes that are left take the full slice. *)
Inductive ix :=
| At (i : Z)
| Sl (lo hi : option Z).

Definition all : ix := Sl None None.

Inductive sel :=
| Pick (i : nat)
| Span (start len : nat).

Definition norm_bound (n : nat) (dflt : Z) (b : option Z) : Z :=
  match b with
  | None => dflt
  | Some z =>
      let z' := if (z <? 0)%Z then (z + Z.of_nat n)%Z else z in
      Z.max 0 (Z.min z' (Z.of_nat n))
  end.

Definition norm_ix (n : nat) (i : ix) : result sel :=
  match i with
  | At z =>
      let z' := if (z <? 0)%Z then (z + Z.of_nat n)%Z else z in
      if (0 <=? z')%Z && (z' <? Z.of_nat n)%Z
      then OK (Pick (Z.to_nat z'))
      else Raise IndexError
  | Sl lo hi =>
      let l := norm_bound n 0%Z lo in
      let h := norm_bound n (Z.of_nat n) hi in
      OK (Span (Z.to_nat l) (Z.to_nat (h - l)))
  end.

Fixpoint norm_specs (sh : list nat) (specs : list ix) : result (list sel) :=
  match sh, specs with
  | [], [] => OK []
  | [], _ :: _ => Raise IndexError
  | n :: sh', [] =>
      do r <- norm_specs sh' [];
      OK (Span 0 n :: r)
  | n :: sh', i :: specs' =>
      do s <- norm_ix n i;
      do r <- norm_specs sh' specs';
      OK (s :: r)
  end.

Fixpoint sel_shape (sels : list sel) : list nat :=
  match sels with
  | [] => []
  | Pick _ :: r => sel_shape r
  | Span _ len :: r => len :: sel_shape r
  end.

(** From an index of the selection to the index in the array. *)
Fixpoint sel_src (sels : list sel) (idx : list nat) : list nat :=
  match sels with
  | [] => []
  | Pick i :: r => i :: sel_src r idx
  | Span s _ :: r =>
      match idx with
      | [] => s :: sel_src r []
      | i :: idx' => s + i :: sel_src r idx'
      end
  end.

(** From an index of the array to the index in the selection, when the
    element is selected. *)
Fixpoint sel_dst (sels : list sel) (idx : list nat) : option (list nat) :=
  match sels, idx with
  | [], _ => Some []
  | Pick i :: r, j :: idx' => if j =? i then sel_dst r idx' else None
  | Span s len :: r, j :: idx' =>
      if (s <=? j) && (j <? s + len)
      then option_map (cons (j - s)) (sel_dst r idx')
      else None
  | _ :: _, [] => None
  end.

(** [a[specs]] (basic indexing; the copy of the view). *)
Definition getitem (a : ndarray) (specs : list ix) : result ndarray :=
  do sels <- norm_specs (shape a) specs;
  OK (build (sel_shape sels) (fun idx => get a (sel_src sels idx))).

(** Whether a value of shape [sv] can be assigned to a selection of shape
    [ss]: after its leading axes of size 1 beyond the rank of [ss] are
    dropped, it has to broadcast to [ss]. *)
Definition assignable (sv ss : list nat) : bool :=
  let extra := length sv - length ss in
  forallb (fun n => n =? 1) (firstn extra sv) &&
  match bshape (skipn extra sv) ss with
  | Some sh => if decide (sh = ss) then true else false
  | None => false
  end.

(** [a[specs] = v]. *)
Definition setitem (a : ndarray) (specs : list ix) (v : ndarray)
  : result ndarray :=
  do sels <- norm_specs (shape a) specs;
  if assignable (shape v) (sel_shape sels) then
    OK (build (shape a) (fun idx =>
                           match sel_dst sels idx with
                           | Some j => get v (bidx (shape v) j)
                           | None => get a idx
                           end))
  else Raise ValueError.

(** [a[specs] (op)= v]. *)
Definition iop_at (f : num -> num -> num) (a : ndarray) (specs : list ix)
           (v : ndarray) : result ndarray :=
  do view <- getitem a specs;
  do r <- iop f view v;
  setitem a specs r.

Definition canonical (a : ndarray) : ndarray :=
  mkArr (shape a) (map canon (data a)).

(** *** Reductions and masks *)

Definition sum_list (l : list num) : num := fold_left add l zero.

(** [np.sum(a, axis=ax, keepdims=True)]. *)
Definition sum_axis (ax : nat) (a : ndarray) : result ndarray :=
  match nth_error (shape a) ax with
  | None => Raise ValueError
  | Some n =>
      OK (build (<[ax := 1]> (shape a))
                (fun idx => sum_list (map (fun i => get a (<[ax := i]> idx))
                                          (seq 0 n))))
  end.

(** [a[a != a] = x]: the elements that differ from themselves become [x]. *)
Definition set_where_nan (x : num) (a : ndarray) : ndarray :=
  amap (fun y => if neb y y then x else y) a.

End Np.

Import Np.

(** ** Settings and collaborators *)

(** The values read from [Settings.arguments], [Settings.constants] and
    [Settings.game_settings], which are not part of this file. *)
Record Settings := mkSettings {
  cfr_iters : Z;
  cfr_skip_iters : Z;
  max_number : Q;
  players_count : Z;
  P1 : Z;
  P2 : Z;
  streets_count : Z;
  hand_count : Z;
  nl : bool
}.

(** What [self.tree] is read for. *)
Record PublicTree := mkTree {
  street : Z;
  current_player : Z;
  board : list Z
}.

(** The phases of a re-solve, one per method called by [_compute]. *)
Inductive phase :=
| set_opponent_starting_range
| compute_current_strategies
| compute_ranges
| compute_update_average_strategies
| compute_terminal_equities
| compute_cfvs
| compute_regrets
| compute_cumulate_average_cfvs
| compute_normalize_average_strategies
| compute_normalize_average_cfvs.

(** Ghost events: a phase is entered (with the iteration number it is
    given, if any); the gadget is asked for the opponent's range. *)
Inductive event :=
| Enter (p : phase) (iteration : option Z)
| GadgetCall (cfvs : ndarray) (iteration : Z).

(** One depth level of the lookahead (the attributes that the builder
    creates on [self.layers[d]]). *)
Record Layer := mkLayer {
  ranges_data : ndarray;
  current_strategy_data : ndarray;
  regrets_data : ndarray;
  positive_regrets_data : ndarray;
  regrets_sum : ndarray;
  current_regrets_data : ndarray;
  cfvs_data : ndarray;
  placeholder_data : ndarray;
  swap_data : ndarray;
  inner_nodes : ndarray;
  inner_nodes_p1 : ndarray;
  average_strategies_data : ndarray;
  average_cfvs_data : ndarray;
  empty_action_mask : ndarray;
  pot_size : ndarray;
  acting_player : Z;
  bets_count : Z;
  nonallinbets_count : Z;
  actions_count : Z;
  terminal_actions_count : Z;
  term_call_indices : Z * Z;
  term_fold_indices : Z * Z;
  indices : Z * Z
}.

Definition set_ranges_data (v : ndarray) (L : Layer) : Layer :=
  {| ranges_data := v; current_strategy_data := current_strategy_data L;
     regrets_data := regrets_data L;
     positive_regrets_data := positive_regrets_data L;
     regrets_sum := regrets_sum L;
     current_regrets_data := current_regrets_data L;
     cfvs_data := cfvs_data L; placeholder_data := placeholder_data L;
     swap_data := swap_data L; inner_nodes := inner_nodes L;
     inner_nodes_p1 := inner_nodes_p1 L;
     average_strategies_data := average_strategies_data L;
     average_cfvs_data := average_cfvs_data L;
     empty_action_mask := empty_action_mask L; pot_size := pot_size L;
     acting_player := acting_player L; bets_count := bets_count L;
     nonallinbets_count := nonallinbets_count L;
     actions_count := actions_count L;
     terminal_actions_count := terminal_actions_count L;
     term_call_indices := term_call_indices L;
     term_fold_indices := term_fold_indices L; indices := indices L |}.

Definition set_current_strategy_data (v : ndarray) (L : Layer) : Layer :=
  {| ranges_data := ranges_data L; current_strategy_data := v;
     regrets_data := regrets_data L;
     positive_regrets_data := positive_regrets_data L;
     regrets_sum := regrets_sum L;
     current_regrets_data := current_regrets_data L;
     cfvs_data := cfvs_data L; placeholder_data := placeholder_data L;
     swap_data := swap_data L; inner_nodes := inner_nodes L;
     inner_nodes_p1 := inner_nodes_p1 L;
     average_strategies_data := average_strategies_data L;
     average_cfvs_data := average_cfvs_data L;
     empty_action_mask := empty_action_mask L; pot_size := pot_size L;
     acting_player := acting_player L; bets_count := bets_count L;
     nonallinbets_count := nonallinbets_count L;
     actions_count := actions_count L;
     terminal_actions_count := terminal_actions_count L;
     term_call_indices := term_call_indices L;
     term_fold_indices := term_fold_indices L; indices := indices L |}.

Definition set_regrets_data (v : ndarray) (L : Layer) : Layer :=
  {| ranges_data := ranges_data L;
     current_strategy_data := current_strategy_data L; regrets_data := v;
     positive_regrets_data := positive_regrets_data L;
     regrets_sum := regrets_sum L;
     current_regrets_data := current_regrets_data L;
     cfvs_data := cfvs_data L; placeholder_data := placeholder_data L;
     swap_data := swap_data L; inner_nodes := inner_nodes L;
     inner_nodes_p1 := inner_nodes_p1 L;
     average_strategies_data := average_strategies_data L;
     average_cfvs_data := average_cfvs_data L;
     empty_action_mask := empty_action_mask L; pot_size := pot_size L;
     acting_player := acting_player L; bets_count := bets_count L;
     nonallinbets_count := nonallinbets_count L;
     actions_count := actions_count L;
     terminal_actions_count := terminal_actions_count L;
     term_call_indices := term_call_indices L;
     term_fold_indices := term_fold_indices L; indices := indices L |}.

Definition set_positive_regrets_data (v : ndarray) (L : Layer) : Layer :=
  {| ranges_data := ranges_data L;
     current_strategy_data := current_strategy_data L;
     regrets_data := regrets_data L; positive_regrets_data := v;
     regrets_sum := regrets_sum L;
     current_regrets_data := current_regrets_data L;
     cfvs_data := cfvs_data L; placeholder_data := placeholder_data L;
     swap_data := swap_data L; inner_nodes := inner_nodes L;
     inner_nodes_p1 := inner_nodes_p1 L;
     average_strategies_data := average_strategies_data L;
     average_cfvs_data := average_cfvs_data L;
     empty_action_mask := empty_action_mask L; pot_size := pot_size L;
     acting_player := acting_player L; bets_count := bets_count L;
     nonallinbets_count := nonallinbets_count L;
     actions_count := actions_count L;
     terminal_actions_count := terminal_actions_count L;
     term_call_indices := term_call_indices L;
     term_fold_indices := term_fold_indices L; indices := indices L |}.

Definition set_regrets_sum (v : ndarray) (L : Layer) : Layer :=
  {| ranges_data := ranges_data L;
     current_strategy_data := current_strategy_data L;
     regrets_data := regrets_data L;
     positive_regrets_data := positive_regrets_data L; regrets_sum := v;
     current_regrets_data := current_regrets_data L;
     cfvs_data := cfvs_data L; placeholder_data := placeholder_data L;
     swap_data := swap_data L; inner_nodes := inner_nodes L;
     inner_nodes_p1 := inner_nodes_p1 L;
     average_strategies_data := average_strategies_data L;
     average_cfvs_data := average_cfvs_data L;
     empty_action_mask := empty_action_mask L; pot_size := pot_size L;
     acting_player := acting_player L; bets_count := bets_count L;
     nonallinbets_count := nonallinbets_count L;
     actions_count := actions_count L;
     terminal_actions_count := terminal_actions_count L;
     term_call_indices := term_call_indices L;
     term_fold_indices := term_fold_indices L; indices := indices L |}.

Definition set_cfvs_data (v : ndarray) (L : Layer) : Layer :=
  {| ranges_data := ranges_data L;
     current_strategy_data := current_strategy_data L;
     regrets_data := regrets_data L;
     positive_regrets_data := positive_regrets_data L;
     regrets_sum := regrets_sum L;
     current_regrets_data := current_regrets_data L; cfvs_data := v;
     placeholder_data := placeholder_data L; swap_data := swap_data L;
     inner_nodes := inner_nodes L; inner_nodes_p1 := inner_nodes_p1 L;
     average_strategies_data := average_strategies_data L;
     average_cfvs_data := average_cfvs_data L;
     empty_action_mask := empty_action_mask L; pot_size := pot_size L;
     acting_player := acting_player L; bets_count := bets_count L;
     nonallinbets_count := nonallinbets_count L;
     actions_count := actions_count L;
     terminal_actions_count := terminal_actions_count L;
     term_call_indices := term_call_indices L;
     term_fold_indices := term_fold_indices L; indices := indices L |}.

Definition set_placeholder_data (v : ndarray) (L : Layer) : Layer :=
  {| ranges_data := ranges_data L;
     current_strategy_data := current_strategy_data L;
     regrets_data := regrets_data L;
     positive_regrets_data := positive_regrets_data L;
     regrets_sum := regrets_sum L;
     current_regrets_data := current_regrets_data L;
     cfvs_data := cfvs_data L; placeholder_data := v;
     swap_data := swap_data L; inner_nodes := inner_nodes L;
     inner_nodes_p1 := inner_nodes_p1 L;
     average_strategies_data := average_strategies_data L;
     average_cfvs_data := average_cfvs_data L;
     empty_action_mask := empty_action_mask L; pot_size := pot_size L;
     acting_player := acting_player L; bets_count := bets_count L;
     nonallinbets_count := nonallinbets_count L;
     actions_count := actions_count L;
     terminal_actions_count := terminal_actions_count L;
     term_call_indices := term_call_indices L;
     term_fold_indices := term_fold_indices L; indices := indices L |}.

Definition set_swap_data (v : ndarray) (L : Layer) : Layer :=
  {| ranges_data := ranges_data L;
     current_strategy_data := current_strategy_data L;
     regrets_data := regrets_data L;
     positive_regrets_data := positive_regrets_data L;
     regrets_sum := regrets_sum L;
     current_regrets_data := current_regrets_data L;
     cfvs_data := cfvs_data L; placeholder_data := placeholder_data L;
     swap_data := v; inner_nodes := inner_nodes L;
     inner_nodes_p1 := inner_nodes_p1 L;
     average_strategies_data := average_strategies_data L;
     average_cfvs_data := average_cfvs_data L;
     empty_action_mask := empty_action_mask L; pot_size := pot_size L;
     acting_player := acting_player L; bets_count := bets_count L;
     nonallinbets_count := nonallinbets_count L;
     actions_count := actions_count L;
     terminal_actions_count := terminal_actions_count L;
     term_call_indices := term_call_indices L;
     term_fold_indices := term_fold_indices L; indices := indices L |}.

Definition set_inner_nodes (v : ndarray) (L : Layer) : Layer :=
  {| ranges_data := ranges_data L;
     current_strategy_data := current_strategy_data L;
     regrets_data := regrets_data L;
     positive_regrets_data := positive_regrets_data L;
     regrets_sum := regrets_sum L;
     current_regrets_data := current_regrets_data L;
     cfvs_data := cfvs_data L; placeholder_data := placeholder_data L;
     swap_data := swap_data L; inner_nodes := v;
     inner_nodes_p1 := inner_nodes_p1 L;
     average_strategies_data := average_strategies_data L;
     average_cfvs_data := average_cfvs_data L;
     empty_action_mask := empty_action_mask L; pot_size := pot_size L;
     acting_player := acting_player L; bets_count := bets_count L;
     nonallinbets_count := nonallinbets_count L;
     actions_count := actions_count L;
     terminal_actions_count := terminal_actions_count L;
     term_call_indices := term_call_indices L;
     term_fold_indices := term_fold_indices L; indices := indices L |}.

Definition set_average_strategies_data (v : ndarray) (L : Layer) : Layer :=
  {| ranges_data := ranges_data L;
     current_strategy_data := current_strategy_data L;
     regrets_data := regrets_data L;
     positive_regrets_data := positive_regrets_data L;
     regrets_sum := regrets_sum L;
     current_regrets_data := current_regrets_data L;
     cfvs_data := cfvs_data L; placeholder_data := placeholder_data L;
     swap_data := swap_data L; inner_nodes := inner_nodes L;
     inner_nodes_p1 := inner_nodes_p1 L; average_strategies_data := v;
     average_cfvs_data := average_cfvs_data L;
     empty_action_mask := empty_action_mask L; pot_size := pot_size L;
     acting_player := acting_player L; bets_count := bets_count L;
     nonallinbets_count := nonallinbets_count L;
     actions_count := actions_count L;
     terminal_actions_count := terminal_actions_count L;
     term_call_indices := term_call_indices L;
     term_fold_indices := term_fold_indices L; indices := indices L |}.

Definition set_average_cfvs_data (v : ndarray) (L : Layer) : Layer :=
  {| ranges_data := ranges_data L;
     current_strategy_data := current_strategy_data L;
     regrets_data := regrets_data L;
     positive_regrets_data := positive_regrets_data L;
     regrets_sum := regrets_sum L;
     current_regrets_data := current_regrets_data L;
     cfvs_data := cfvs_data L; placeholder_data := placeholder_data L;
     swap_data := swap_data L; inner_nodes := inner_nodes L;
     inner_nodes_p1 := inner_nodes_p1 L;
     average_strategies_data := average_strategies_data L;
     average_cfvs_data := v; empty_action_mask := empty_action_mask L;
     pot_size := pot_size L; acting_player := acting_player L;
     bets_count := bets_count L; nonallinbets_count := nonallinbets_count L;
     actions_count := actions_count L;
     terminal_actions_count := terminal_actions_count L;
     term_call_indices := term_call_indices L;
     term_fold_indices := term_fold_indices L; indices := indices L |}.

(** What [get_results] returns ([helper_classes.LookaheadResults]); a
    field that was not assigned is [None]. *)
Record LookaheadResults := mkResults {
  strategy : option ndarray;
  achieved_cfvs : option ndarray;
  root_cfvs : option ndarray;
  root_cfvs_both_players : option ndarray;
  children_cfvs : option ndarray
}.

Section Model.

(** The state of a [CFRDGadget]. *)
Context {G : Type}.

(** The collaborators.  A method that writes its result into an array it
    is given is a function from the old to the new contents of that array. *)
Record Collab := mkCollab {
  CFRDGadget : list Z -> ndarray -> ndarray -> G;
  compute_opponent_range : G -> ndarray -> Z -> ndarray * G;
  call_value : ndarray -> ndarray -> ndarray;
  fold_value : ndarray -> ndarray -> ndarray;
  get_value : ndarray -> ndarray -> Z -> ndarray;
  get_value_aux : ndarray -> ndarray -> Z -> ndarray;
  get_value_on_board : list Z -> ndarray -> ndarray
}.

(** The object [self]. *)
Record Lookahead := mkLookahead {
  reconstruction_opponent_cfvs : option ndarray;
  reconstruction_gadget : option G;
  batch_size : Z;
  layers : list Layer;
  depth : Z;
  tree : PublicTree;
  regret_epsilon : Q;
  first_call_terminal : bool;
  first_call_transition : bool;
  num_pot_sizes : Z;
  ranges_data_call : ndarray;
  ranges_data_fold : ndarray;
  cfvs_data_call : ndarray;
  cfvs_data_fold : ndarray;
  next_street_boxes_inputs : ndarray;
  next_street_boxes_outputs : ndarray;
  next_board_idx : Z;
  action_to_index : gmap Z Z;
  next_round_pot_sizes : ndarray;
  trace : list event
}.

Definition set_reconstruction_opponent_cfvs (v : option ndarray) (s : Lookahead) : Lookahead :=
  {| reconstruction_opponent_cfvs := v;
     reconstruction_gadget := reconstruction_gadget s;
     batch_size := batch_size s; layers := layers s; depth := depth s;
     tree := tree s; regret_epsilon := regret_epsilon s;
     first_call_terminal := first_call_terminal s;
     first_call_transition := first_call_transition s;
     num_pot_sizes := num_pot_sizes s;
     ranges_data_call := ranges_data_call s;
     ranges_data_fold := ranges_data_fold s;
     cfvs_data_call := cfvs_data_call s; cfvs_data_fold := cfvs_data_fold s;
     next_street_boxes_inputs := next_street_boxes_inputs s;
     next_street_boxes_outputs := next_street_boxes_outputs s;
     next_board_idx := next_board_idx s;
     action_to_index := action_to_index s;
     next_round_pot_sizes := next_round_pot_sizes s; trace := trace s |}.

Definition set_reconstruction_gadget (v : option G) (s : Lookahead) : Lookahead :=
  {| reconstruction_opponent_cfvs := reconstruction_opponent_cfvs s;
     reconstruction_gadget := v; batch_size := batch_size s;
     layers := layers s; depth := depth s; tree := tree s;
     regret_epsilon := regret_epsilon s;
     first_call_terminal := first_call_terminal s;
     first_call_transition := first_call_transition s;
     num_pot_sizes := num_pot_sizes s;
     ranges_data_call := ranges_data_call s;
     ranges_data_fold := ranges_data_fold s;
     cfvs_data_call := cfvs_data_call s; cfvs_data_fold := cfvs_data_fold s;
     next_street_boxes_inputs := next_street_boxes_inputs s;
     next_street_boxes_outputs := next_street_boxes_outputs s;
     next_board_idx := next_board_idx s;
     action_to_index := action_to_index s;
     next_round_pot_sizes := next_round_pot_sizes s; trace := trace s |}.

Definition set_layers (v : list Layer) (s : Lookahead) : Lookahead :=
  {| reconstruction_opponent_cfvs := reconstruction_opponent_cfvs s;
     reconstruction_gadget := reconstruction_gadget s;
     batch_size := batch_size s; layers := v; depth := depth s;
     tree := tree s; regret_epsilon := regret_epsilon s;
     first_call_terminal := first_call_terminal s;
     first_call_transition := first_call_transition s;
     num_pot_sizes := num_pot_sizes s;
     ranges_data_call := ranges_data_call s;
     ranges_data_fold := ranges_data_fold s;
     cfvs_data_call := cfvs_data_call s; cfvs_data_fold := cfvs_data_fold s;
     next_street_boxes_inputs := next_street_boxes_inputs s;
     next_street_boxes_outputs := next_street_boxes_outputs s;
     next_board_idx := next_board_idx s;
     action_to_index := action_to_index s;
     next_round_pot_sizes := next_round_pot_sizes s; trace := trace s |}.

Definition set_ranges_data_call (v : ndarray) (s : Lookahead) : Lookahead :=
  {| reconstruction_opponent_cfvs := reconstruction_opponent_cfvs s;
     reconstruction_gadget := reconstruction_gadget s;
     batch_size := batch_size s; layers := layers s; depth := depth s;
     tree := tree s; regret_epsilon := regret_epsilon s;
     first_call_terminal := first_call_terminal s;
     first_call_transition := first_call_transition s;
     num_pot_sizes := num_pot_sizes s; ranges_data_call := v;
     ranges_data_fold := ranges_data_fold s;
     cfvs_data_call := cfvs_data_call s; cfvs_data_fold := cfvs_data_fold s;
     next_street_boxes_inputs := next_street_boxes_inputs s;
     next_street_boxes_outputs := next_street_boxes_outputs s;
     next_board_idx := next_board_idx s;
     action_to_index := action_to_index s;
     next_round_pot_sizes := next_round_pot_sizes s; trace := trace s |}.

Definition set_ranges_data_fold (v : ndarray) (s : Lookahead) : Lookahead :=
  {| reconstruction_opponent_cfvs := reconstruction_opponent_cfvs s;
     reconstruction_gadget := reconstruction_gadget s;
     batch_size := batch_size s; layers := layers s; depth := depth s;
     tree := tree s; regret_epsilon := regret_epsilon s;
     first_call_terminal := first_call_terminal s;
     first_call_transition := first_call_transition s;
     num_pot_sizes := num_pot_sizes s;
     ranges_data_call := ranges_data_call s; ranges_data_fold := v;
     cfvs_data_call := cfvs_data_call s; cfvs_data_fold := cfvs_data_fold s;
     next_street_boxes_inputs := next_street_boxes_inputs s;
     next_street_boxes_outputs := next_street_boxes_outputs s;
     next_board_idx := next_board_idx s;
     action_to_index := action_to_index s;
     next_round_pot_sizes := next_round_pot_sizes s; trace := trace s |}.

Definition set_cfvs_data_call (v : ndarray) (s : Lookahead) : Lookahead :=
  {| reconstruction_opponent_cfvs := reconstruction_opponent_cfvs s;
     reconstruction_gadget := reconstruction_gadget s;
     batch_size := batch_size s; layers := layers s; depth := depth s;
     tree := tree s; regret_epsilon := regret_epsilon s;
     first_call_terminal := first_call_terminal s;
     first_call_transition := first_call_transition s;
     num_pot_sizes := num_pot_sizes s;
     ranges_data_call := ranges_data_call s;
     ranges_data_fold := ranges_data_fold s; cfvs_data_call := v;
     cfvs_data_fold := cfvs_data_fold s;
     next_street_boxes_inputs := next_street_boxes_inputs s;
     next_street_boxes_outputs := next_street_boxes_outputs s;
     next_board_idx := next_board_idx s;
     action_to_index := action_to_index s;
     next_round_pot_sizes := next_round_pot_sizes s; trace := trace s |}.

Definition set_cfvs_data_fold (v : ndarray) (s : Lookahead) : Lookahead :=
  {| reconstruction_opponent_cfvs := reconstruction_opponent_cfvs s;
     reconstruction_gadget := reconstruction_gadget s;
     batch_size := batch_size s; layers := layers s; depth := depth s;
     tree := tree s; regret_epsilon := regret_epsilon s;
     first_call_terminal := first_call_terminal s;
     first_call_transition := first_call_transition s;
     num_pot_sizes := num_pot_sizes s;
     ranges_data_call := ranges_data_call s;
     ranges_data_fold := ranges_data_fold s;
     cfvs_data_call := cfvs_data_call s; cfvs_data_fold := v;
     next_street_boxes_inputs := next_street_boxes_inputs s;
     next_street_boxes_outputs := next_street_boxes_outputs s;
     next_board_idx := next_board_idx s;
     action_to_index := action_to_index s;
     next_round_pot_sizes := next_round_pot_sizes s; trace := trace s |}.

Definition set_next_street_boxes_inputs (v : ndarray) (s : Lookahead) : Lookahead :=
  {| reconstruction_opponent_cfvs := reconstruction_opponent_cfvs s;
     reconstruction_gadget := reconstruction_gadget s;
     batch_size := batch_size s; layers := layers s; depth := depth s;
     tree := tree s; regret_epsilon := regret_epsilon s;
     first_call_terminal := first_call_terminal s;
     first_call_transition := first_call_transition s;
     num_pot_sizes := num_pot_sizes s;
     ranges_data_call := ranges_data_call s;
     ranges_data_fold := ranges_data_fold s;
     cfvs_data_call := cfvs_data_call s; cfvs_data_fold := cfvs_data_fold s;
     next_street_boxes_inputs := v;
     next_street_boxes_outputs := next_street_boxes_outputs s;
     next_board_idx := next_board_idx s;
     action_to_index := action_to_index s;
     next_round_pot_sizes := next_round_pot_sizes s; trace := trace s |}.

Definition set_next_street_boxes_outputs (v : ndarray) (s : Lookahead) : Lookahead :=
  {| reconstruction_opponent_cfvs := reconstruction_opponent_cfvs s;
     reconstruction_gadget := reconstruction_gadget s;
     batch_size := batch_size s; layers := layers s; depth := depth s;
     tree := tree s; regret_epsilon := regret_epsilon s;
     first_call_terminal := first_call_terminal s;
     first_call_transition := first_call_transition s;
     num_pot_sizes := num_pot_sizes s;
     ranges_data_call := ranges_data_call s;
     ranges_data_fold := ranges_data_fold s;
     cfvs_data_call := cfvs_data_call s; cfvs_data_fold := cfvs_data_fold s;
     next_street_boxes_inputs := next_street_boxes_inputs s;
     next_street_boxes_outputs := v; next_board_idx := next_board_idx s;
     action_to_index := action_to_index s;
     next_round_pot_sizes := next_round_pot_sizes s; trace := trace s |}.

Definition set_trace (v : list event) (s : Lookahead) : Lookahead :=
  {| reconstruction_opponent_cfvs := reconstruction_opponent_cfvs s;
     reconstruction_gadget := reconstruction_gadget s;
     batch_size := batch_size s; layers := layers s; depth := depth s;
     tree := tree s; regret_epsilon := regret_epsilon s;
     first_call_terminal := first_call_terminal s;
     first_call_transition := first_call_transition s;
     num_pot_sizes := num_pot_sizes s;
     ranges_data_call := ranges_data_call s;
     ranges_data_fold := ranges_data_fold s;
     cfvs_data_call := cfvs_data_call s; cfvs_data_fold := cfvs_data_fold s;
     next_street_boxes_inputs := next_street_boxes_inputs s;
     next_street_boxes_outputs := next_street_boxes_outputs s;
     next_board_idx := next_board_idx s;
     action_to_index := action_to_index s;
     next_round_pot_sizes := next_round_pot_sizes s; trace := v |}.


Variable C : Collab.
Variable cfg : Settings.

(** *** Python lists and loops *)

(** The position of [l[i]] in a list of length [n]; a negative index
    counts from the end. *)
Definition py_index (n : nat) (i : Z) : result nat :=
  let i' := if (i <? 0)%Z then (i + Z.of_nat n)%Z else i in
  if (0 <=? i')%Z && (i' <? Z.of_nat n)%Z
  then OK (Z.to_nat i')
  else Raise IndexError.

(** [range(a, b)] and [range(a, b, -1)]. *)
Definition range (a b : Z) : list Z :=
  map (fun k => (a + Z.of_nat k)%Z) (seq 0 (Z.to_nat (b - a))).

Definition range_down (a b : Z) : list Z :=
  map (fun k => (a - Z.of_nat k)%Z) (seq 0 (Z.to_nat (a - b))).

Fixpoint for_each {S : Type} (l : list Z) (body : Z -> S -> result S) (s : S)
  : result S :=
  match l with
  | [] => OK s
  | d :: l' =>
      do s' <- body d s;
      for_each l' body s'
  end.

(** [a.shape[k]] *)
Definition shape_at (a : ndarray) (k : nat) : result Z :=
  of_option IndexError (Z.of_nat <$> shape a !! k).

(** A Python number used as an operand of an array operation. *)
Definition scalar (q : Q) : ndarray := mkArr [] [Fin q].

(** An array of [self] seen through [reshape] is a view: what is written
    into the view [v] is written into the array [a]. *)
Definition write_through (a v : ndarray) : ndarray := mkArr (shape a) (data v).

(** [self.layers[d]] *)
Definition layer (s : Lookahead) (d : Z) : result Layer :=
  do k <- py_index (length (layers s)) d;
  of_option IndexError (layers s !! k).

(** [self.layers[d].x = ...]: the layer [d] is replaced by [f] of it. *)
Definition modify_layer (d : Z) (f : Layer -> result Layer) (s : Lookahead)
  : result Lookahead :=
  do k <- py_index (length (layers s)) d;
  do L <- of_option IndexError (layers s !! k);
  do L' <- f L;
  OK (set_layers (<[k := L']> (layers s)) s).

Definition emit (e : event) (s : Lookahead) : Lookahead :=
  set_trace (trace s ++ [e]) s.

Definition player_slice (p : Z) : list ix := [all; all; all; all; At p; all].

(** *** The phases of an iteration *)

(** Generates the opponent's range for the current re-solve iteration
    using the gadget. *)
Definition _set_opponent_starting_range (iteration : Z) (s : Lookahead)
  : result Lookahead :=
  let s := emit (Enter set_opponent_starting_range (Some iteration)) s in
  match reconstruction_opponent_cfvs s with
  | None => OK s
  | Some _ =>
      do g <- of_option AttributeError (reconstruction_gadget s);
      do L0 <- layer s 0;
      do cf <- getitem (cfvs_data L0) (player_slice 0);
      let '(opponent_range, g') := compute_opponent_range C g cf iteration in
      let s := emit (GadgetCall cf iteration)
                    (set_reconstruction_gadget (Some g') s) in
      modify_layer 0 (fun L =>
        do r <- setitem (ranges_data L) (player_slice 1) opponent_range;
        OK (set_ranges_data r L)) s
  end.

(** Uses regret matching to generate the players' current strategies. *)
Definition current_strategies_layer (eps : Q) (L : Layer) : result Layer :=
  let L := set_positive_regrets_data (regrets_data L) L in
  let L := set_positive_regrets_data
             (amap (clip eps (max_number cfg)) (positive_regrets_data L)) L in
  (* 1.0 set regret of empty actions to 0 *)
  do pr <- iop mul (positive_regrets_data L) (empty_action_mask L);
  let L := set_positive_regrets_data pr L in
  (* 1.1 regret matching *)
  do rs <- sum_axis 0 (positive_regrets_data L);
  let L := set_regrets_sum rs L in
  do den <- binop mul (regrets_sum L) (ones_like (current_strategy_data L));
  do cs <- binop div (positive_regrets_data L) den;
  OK (set_current_strategy_data cs L).

Definition _compute_current_strategies (s : Lookahead) : result Lookahead :=
  let s := emit (Enter compute_current_strategies None) s in
  for_each (range 1 (depth s))
           (fun d => modify_layer d (current_strategies_layer (regret_epsilon s)))
           s.

(** Using the players' current strategies, computes their probabilities
    of reaching each state of the lookahead. *)
Definition ranges_step (d : Z) (s : Lookahead) : result Lookahead :=
  let PC := players_count cfg in
  let HC := hand_count cfg in
  do Ld <- layer s d;
  do Ln <- layer s (d + 1);
  do '(prev_layer_terminal_actions_count, prev_layer_bets_count) <-
     (if (d >? 0)%Z then
        do Lp <- layer s (d - 1);
        OK (terminal_actions_count Lp, bets_count Lp)
      else OK (0, 1)%Z);
  do gp_layer_nonallin_bets_count <-
     (if (d >? 1)%Z then
        do Lg <- layer s (d - 2);
        OK (nonallinbets_count Lg)
      else OK 1%Z);
  (* copy the ranges of inner nodes and transpose *)
  do v <- getitem (ranges_data Ld)
            [Sl (Some prev_layer_terminal_actions_count) None;
             Sl None (Some gp_layer_nonallin_bets_count); all; all; all; all];
  do inner <- transpose v [0; 2; 1; 3; 4; 5];
  do s <- modify_layer d (fun L => OK (set_inner_nodes inner L)) s;
  do super_view <- reshape inner
                     [1; prev_layer_bets_count; -1; batch_size s; PC; HC]%Z;
  do super_view <- binop mul super_view (ones_like (ranges_data Ln));
  let next_level_strategies := current_strategy_data Ln in
  do s <- modify_layer (d + 1) (fun L => OK (set_ranges_data super_view L)) s;
  (* multiply the ranges of the acting player by his strategy *)
  modify_layer (d + 1) (fun L =>
    do r <- iop_at mul (ranges_data L) (player_slice (acting_player Ld))
              next_level_strategies;
    OK (set_ranges_data r L)) s.

Definition _compute_ranges (s : Lookahead) : result Lookahead :=
  let s := emit (Enter compute_ranges None) s in
  for_each (range 0 (depth s - 1)) ranges_step s.

(** The iterations whose strategies and CFVs are added to the averages:
    [iter > arguments.cfr_skip_iters]. *)
Definition accumulates (iter : Z) : bool := (iter >? cfr_skip_iters cfg)%Z.

(** Updates the players' average strategies with their current
    strategies. *)
Definition _compute_update_average_strategies (iter : Z) (s : Lookahead)
  : result Lookahead :=
  let s := emit (Enter compute_update_average_strategies (Some iter)) s in
  if accumulates iter then
    modify_layer 1 (fun L =>
      do r <- iop add (average_strategies_data L) (current_strategy_data L);
      OK (set_average_strategies_data r L)) s
  else OK s.

(** Using the players' reach probabilities, computes their counterfactual
    values at each lookahead state which is a terminal state of the game. *)
Definition terminal_gather (d : Z) (s : Lookahead) : result Lookahead :=
  do L <- layer s d;
  let '(c0, c1) := term_call_indices L in
  let '(f0, f1) := term_fold_indices L in
  do s <-
     (if (d >? 1)%Z || first_call_terminal s then
        if negb (street (tree s) =? streets_count cfg)%Z then
          do a <- getitem (ranges_data L) [At 1];
          do v <- getitem a [At (-1)];
          do r <- setitem (ranges_data_call s) [Sl (Some c0) (Some c1)] v;
          OK (set_ranges_data_call r s)
        else
          do a <- getitem (ranges_data L) [At 1];
          do tgt <- getitem (ranges_data_call s) [Sl (Some c0) (Some c1)];
          do v <- reshape_as a (shape tgt);
          do r <- setitem (ranges_data_call s) [Sl (Some c0) (Some c1)] v;
          OK (set_ranges_data_call r s)
      else OK s);
  do a <- getitem (ranges_data L) [At 0];
  do tgt <- getitem (ranges_data_fold s) [Sl (Some f0) (Some f1)];
  do v <- reshape_as a (shape tgt);
  do r <- setitem (ranges_data_fold s) [Sl (Some f0) (Some f1)] v;
  OK (set_ranges_data_fold r s).

Definition terminal_scatter (d : Z) (s : Lookahead) : result Lookahead :=
  do L <- layer s d;
  let '(c0, c1) := term_call_indices L in
  let '(f0, f1) := term_fold_indices L in
  do cf <-
     (if negb (street (tree s) =? streets_count cfg)%Z then
        if nl cfg && ((d >? 1)%Z || first_call_terminal s) then
          do v <- getitem (cfvs_data_call s) [Sl (Some c0) (Some c1)];
          setitem (cfvs_data L) [At 1; At (-1)] v
        else OK (cfvs_data L)
      else
        if (d >? 1)%Z || first_call_terminal s then
          do v <- getitem (cfvs_data_call s) [Sl (Some c0) (Some c1)];
          do tgt <- getitem (cfvs_data L) [At 1];
          do v <- reshape_as v (shape tgt);
          setitem (cfvs_data L) [At 1] v
        else OK (cfvs_data L));
  do v <- getitem (cfvs_data_fold s) [Sl (Some f0) (Some f1)];
  do tgt <- getitem cf [At 0];
  do v <- reshape_as v (shape tgt);
  do cf <- setitem cf [At 0] v;
  (* correctly set the folded player by multiplying by -1 *)
  let fold_mutliplier : Q :=
    if (acting_player L =? P1 cfg)%Z then (-1)%Q else 1%Q in
  do cf <- iop_at mul cf [At 0; all; all; all; At 0; all] (scalar fold_mutliplier);
  do cf <- iop_at mul cf [At 0; all; all; all; At 1; all]
             (scalar (- fold_mutliplier)%Q);
  modify_layer d (fun L => OK (set_cfvs_data cf L)) s.

Definition _compute_terminal_equities_terminal_equity (s : Lookahead)
  : result Lookahead :=
  let HC := hand_count cfg in
  do s <- for_each (range 1 (depth s)) terminal_gather s;
  do rc <- reshape (ranges_data_call s) [-1; HC]%Z;
  do cc <- reshape (cfvs_data_call s) [-1; HC]%Z;
  let s := set_cfvs_data_call
             (write_through (cfvs_data_call s) (call_value C rc cc)) s in
  do rf <- reshape (ranges_data_fold s) [-1; HC]%Z;
  do cf <- reshape (cfvs_data_fold s) [-1; HC]%Z;
  let s := set_cfvs_data_fold
             (write_through (cfvs_data_fold s) (fold_value C rf cf)) s in
  for_each (range 1 (depth s)) terminal_scatter s.

(** Using the players' reach probabilities, calls the neural net to
    compute the players' counterfactual values at the depth-limited states
    of the lookahead. *)
Definition box_gather (d : Z) (s : Lookahead) : result Lookahead :=
  if (d >? 1)%Z || first_call_transition s then
    do L <- layer s d;
    do a <- getitem (ranges_data L) [At 2];
    do n <- shape_at a 0;
    if (n >? 1)%Z || ((d =? 1)%Z && first_call_transition s) || negb (nl cfg)
    then
      do p_end <-
         (if (d =? 1)%Z then OK 1%Z
          else if negb (nl cfg) then shape_at (ranges_data L) 1
          else OK (-1)%Z);
      do v <- getitem (ranges_data L)
                [At 1; Sl (Some 0%Z) (Some p_end); all; all; all; all];
      let '(i0, i1) := indices L in
      do r <- setitem (next_street_boxes_outputs s)
                [Sl (Some i0) (Some i1); all; all; all] v;
      OK (set_next_street_boxes_outputs r s)
    else OK s
  else OK s.

Definition box_scatter (d : Z) (s : Lookahead) : result Lookahead :=
  if (d >? 1)%Z || first_call_transition s then
    do L <- layer s d;
    do a <- getitem (ranges_data L) [At 1];
    do n <- shape_at a 0;
    if (n >? 1)%Z || ((d =? 1)%Z && first_call_transition s) || negb (nl cfg)
    then
      do '(p_start, p_end) <-
         (if (d =? 1)%Z then OK (0, 1)%Z
          else if negb (nl cfg) then
                 do n1 <- shape_at (cfvs_data L) 1;
                 OK (1%Z, n1)
          else OK (0, -1)%Z);
      let '(i0, i1) := indices L in
      do v <- getitem (next_street_boxes_outputs s)
                [Sl (Some i0) (Some i1); all; all; all];
      modify_layer d (fun L =>
        do r <- setitem (cfvs_data L)
                  [At 1; Sl (Some p_start) (Some p_end); all; all; all; all] v;
        OK (set_cfvs_data r L)) s
    else OK s
  else OK s.

(** [dst[:, :, 0, :] = src[:, :, 1, :]; dst[:, :, 1, :] = src[:, :, 0, :]] *)
Definition swap_players (dst src : ndarray) : result ndarray :=
  do v1 <- getitem src [all; all; At 1; all];
  do dst <- setitem dst [all; all; At 0; all] v1;
  do v0 <- getitem src [all; all; At 0; all];
  setitem dst [all; all; At 1; all] v0.

Definition _compute_terminal_equities_next_street_box (s : Lookahead)
  : result Lookahead :=
  let PC := players_count cfg in
  let HC := hand_count cfg in
  do _ <- assert (street (tree s) =? 1)%Z;
  if (num_pot_sizes s =? 0)%Z then OK s
  else
    do s <- for_each (range 1 (depth s)) box_gather s;
    do s <-
       (if (current_player (tree s) =? P2 cfg)%Z then
          OK (set_next_street_boxes_inputs (next_street_boxes_outputs s) s)
        else
          do r <- swap_players (next_street_boxes_inputs s)
                    (next_street_boxes_outputs s);
          OK (set_next_street_boxes_inputs r s));
    do bi <- reshape (next_street_boxes_inputs s) [-1; PC; HC]%Z;
    do bo <- reshape (next_street_boxes_outputs s) [-1; PC; HC]%Z;
    let value := if (street (tree s) =? 1)%Z
                 then get_value_aux C else get_value C in
    let s := set_next_street_boxes_outputs
               (write_through (next_street_boxes_outputs s)
                              (value bi bo (next_board_idx s))) s in
    (* the net outputs for P1 and P2 respectively: swap if necessary *)
    do s <-
       (if (current_player (tree s) =? P2 cfg)%Z then
          let s := set_next_street_boxes_inputs (next_street_boxes_outputs s) s in
          do r <- swap_players (next_street_boxes_outputs s)
                    (next_street_boxes_inputs s);
          OK (set_next_street_boxes_outputs r s)
        else OK s);
    for_each (range 1 (depth s)) box_scatter s.

(** Using the players' reach probabilities, computes their counterfactual
    values at all terminal states of the lookahead. *)
Definition _compute_terminal_equities (s : Lookahead) : result Lookahead :=
  let s := emit (Enter compute_terminal_equities None) s in
  do s <-
     (if negb (street (tree s) =? streets_count cfg)%Z
      then _compute_terminal_equities_next_street_box s
      else OK s);
  do s <- _compute_terminal_equities_terminal_equity s;
  (* multiply by pot scale factor *)
  for_each (range 1 (depth s))
           (fun d => modify_layer d (fun L =>
              do r <- iop mul (cfvs_data L) (pot_size L);
              OK (set_cfvs_data r L)))
           s.

(** Using the players' reach probabilities and terminal counterfactual
    values, computes their cfvs at all states of the lookahead. *)
Definition cfvs_step (d : Z) (s : Lookahead) : result Lookahead :=
  do '(gp_layer_terminal_actions_count, ggp_layer_nonallin_bets_count) <-
     (if (d >? 2)%Z then
        do Lg <- layer s (d - 2);
        do Lgg <- layer s (d - 3);
        OK (terminal_actions_count Lg, nonallinbets_count Lgg)
      else if (d =? 2)%Z then
        do Lg <- layer s (d - 2);
        OK (terminal_actions_count Lg, 1%Z)
      else if (d =? 1)%Z then OK (0, 1)%Z
      else Raise UnboundLocalError);
  do L <- layer s d;
  do c <- iop_at mul (cfvs_data L) (player_slice 0) (empty_action_mask L);
  do c <- iop_at mul c (player_slice 1) (empty_action_mask L);
  (* player indexing is swapped for cfvs *)
  do ph <- iop_at mul c (player_slice (acting_player L))
             (current_strategy_data L);
  do rs <- sum_axis 0 ph;
  do s <- modify_layer d (fun L =>
            OK (set_regrets_sum rs (set_placeholder_data ph (set_cfvs_data c L))))
          s;
  (* use a swap placeholder to change [[1,2,3],[4,5,6]] into
     [[1,2],[3,4],[5,6]] *)
  do Lp <- layer s (d - 1);
  do sw <- reshape_as rs (shape (swap_data Lp));
  do s <- modify_layer (d - 1) (fun L => OK (set_swap_data sw L)) s;
  do tr <- transpose sw [0; 2; 1; 3; 4; 5];
  modify_layer (d - 1) (fun L =>
    do r <- setitem (cfvs_data L)
              [Sl (Some gp_layer_terminal_actions_count) None;
               Sl None (Some ggp_layer_nonallin_bets_count);
               all; all; all; all] tr;
    OK (set_cfvs_data r L)) s.

Definition _compute_cfvs (s : Lookahead) : result Lookahead :=
  let s := emit (Enter compute_cfvs None) s in
  for_each (range_down (depth s - 1) 0) cfvs_step s.

(** Using the players' counterfactual values, updates their total regrets
    for every state in the lookahead.

    The three locals that hold the counts of the layers above are assigned
    under conditions on [d] and keep their value from one round of the loop
    to the next; a local that was never assigned is [None]. *)
Record regrets_locals := mkLocals {
  gp_layer_terminal_actions_count : option Z;
  gp_layer_bets_count : option Z;
  ggp_layer_nonallin_bets_count : option Z
}.

Definition regrets_assign (d : Z) (s : Lookahead) (v : regrets_locals)
  : result regrets_locals :=
  do v <-
     (if (d >? 1)%Z then
        do Lg <- layer s (d - 2);
        OK (mkLocals (Some (terminal_actions_count Lg)) (Some (bets_count Lg))
                     (ggp_layer_nonallin_bets_count v))
      else OK v);
  do v <-
     (if (d >? 2)%Z then
        do Lgg <- layer s (d - 3);
        OK (mkLocals (gp_layer_terminal_actions_count v) (gp_layer_bets_count v)
                     (Some (nonallinbets_count Lgg)))
      else OK v);
  if (d <? 2)%Z then OK (mkLocals (Some 0%Z) (Some 1%Z) (Some 1%Z)) else OK v.

Definition regrets_step (d : Z) (sv : Lookahead * regrets_locals)
  : result (Lookahead * regrets_locals) :=
  let '(s, v) := sv in
  let HC := hand_count cfg in
  do v <- regrets_assign d s v;
  do L <- layer s d;
  do c <- getitem (cfvs_data L) (player_slice (acting_player L));
  do current_regrets <- reshape_as c (shape (current_regrets_data L));
  do Lp <- layer s (d - 1);
  let next_level_cfvs := cfvs_data Lp in
  do t <- of_option UnboundLocalError (gp_layer_terminal_actions_count v);
  do g <- of_option UnboundLocalError (ggp_layer_nonallin_bets_count v);
  do pin <- getitem next_level_cfvs
              [Sl (Some t) None; Sl None (Some g); all; all;
               At (acting_player L); all];
  do pin <- transpose pin [0; 2; 1; 3; 4];
  do b <- of_option UnboundLocalError (gp_layer_bets_count v);
  do pin <- reshape pin [1; b; -1; batch_size s; HC]%Z;
  do pin <- binop mul pin (ones_like current_regrets);
  do current_regrets <- iop sub current_regrets pin;
  do r <- iop add (regrets_data L) current_regrets;
  (* (CFR+) *)
  let r := amap (clip 0 (max_number cfg)) r in
  do s <- modify_layer d (fun L => OK (set_regrets_data r L)) s;
  OK (s, v).

Definition _compute_regrets (s : Lookahead) : result Lookahead :=
  let s := emit (Enter compute_regrets None) s in
  do sv <- for_each (range_down (depth s - 1) 0) regrets_step
             (s, mkLocals None None None);
  OK (fst sv).

(** Updates the players' average counterfactual values with their cfvs
    from the current iteration. *)
Definition cumulate (L : Layer) : result Layer :=
  do r <- iop add (average_cfvs_data L) (cfvs_data L);
  OK (set_average_cfvs_data r L).

Definition _compute_cumulate_average_cfvs (iter : Z) (s : Lookahead)
  : result Lookahead :=
  let s := emit (Enter compute_cumulate_average_cfvs (Some iter)) s in
  if accumulates iter then
    do s <- modify_layer 0 cumulate s;
    modify_layer 1 cumulate s
  else OK s.

(** *** The final pass *)

(** Normalizes the players' average strategies.  [player_avg_strategy] is
    the array [self.layers[1].average_strategies_data] itself, which the
    division updates in place. *)
Definition normalize_average_strategies (L : Layer) : result Layer :=
  do rs <- sum_axis 0 (average_strategies_data L);
  let L := set_regrets_sum rs L in
  do den <- binop mul (regrets_sum L) (ones_like (average_strategies_data L));
  do player_avg_strategy <- iop div (average_strategies_data L) den;
  (* if the strategy is 'empty' (zero reach), strategy does not matter but
     we need to make sure it sums to one -> now we set to always fold *)
  do row <- getitem player_avg_strategy [At 0%Z];
  do player_avg_strategy <-
     setitem player_avg_strategy [At 0%Z] (set_where_nan one row);
  OK (set_average_strategies_data (set_where_nan zero player_avg_strategy) L).

Definition _compute_normalize_average_strategies (s : Lookahead)
  : result Lookahead :=
  let s := emit (Enter compute_normalize_average_strategies None) s in
  modify_layer 1 normalize_average_strategies s.

(** Normalizes the players' average counterfactual values. *)
Definition normalize_divisor : Z := (cfr_iters cfg - cfr_skip_iters cfg)%Z.

Definition _compute_normalize_average_cfvs (s : Lookahead) : result Lookahead :=
  let s := emit (Enter compute_normalize_average_cfvs None) s in
  modify_layer 0 (fun L =>
    do r <- iop div (average_cfvs_data L) (scalar (inject_Z normalize_divisor));
    OK (set_average_cfvs_data r L)) s.

(** *** Re-solving *)

Definition iteration (iter : Z) (s : Lookahead) : result Lookahead :=
  do s <- _set_opponent_starting_range iter s;
  do s <- _compute_current_strategies s;
  do s <- _compute_ranges s;
  do s <- _compute_update_average_strategies iter s;
  do s <- _compute_terminal_equities s;
  do s <- _compute_cfvs s;
  do s <- _compute_regrets s;
  _compute_cumulate_average_cfvs iter s.

Definition _compute (s : Lookahead) : result Lookahead :=
  (* 1.0 main loop *)
  do s <- for_each (range 0 (cfr_iters cfg)) iteration s;
  (* 2.0 at the end normalize average strategy *)
  do s <- _compute_normalize_average_strategies s;
  (* 2.1 normalize root's CFVs *)
  _compute_normalize_average_cfvs s.

(** Re-solves the lookahead using input ranges.  An argument that is
    [None] has no [copy]. *)
Definition resolve_first_node (player_range opponent_range : option ndarray)
           (s : Lookahead) : result Lookahead :=
  do pr <- of_option AttributeError player_range;
  do s <- modify_layer 0 (fun L =>
            do r <- setitem (ranges_data L) (player_slice 0) pr;
            OK (set_ranges_data r L)) s;
  do opr <- of_option AttributeError opponent_range;
  do s <- modify_layer 0 (fun L =>
            do r <- setitem (ranges_data L) (player_slice 1) opr;
            OK (set_ranges_data r L)) s;
  _compute s.

(** Re-solves the lookahead using an input range for the player and the
    gadget to generate ranges for the opponent. *)
Definition resolve (player_range opponent_cfvs : option ndarray)
           (s : Lookahead) : result Lookahead :=
  do pr <- of_option AssertionError player_range;
  do oc <- of_option AssertionError opponent_cfvs;
  let s := set_reconstruction_gadget
             (Some (CFRDGadget C (board (tree s)) pr oc)) s in
  do s <- modify_layer 0 (fun L =>
            do r <- setitem (ranges_data L) [all; all; all; At 0%Z; all] pr;
            OK (set_ranges_data r L)) s;
  let s := set_reconstruction_opponent_cfvs (Some oc) s in
  _compute s.

(** *** Results *)

(** Gets the results of re-solving the lookahead. *)
Definition get_results (s : Lookahead) : result LookaheadResults :=
  do L1 <- layer s 1;
  do actions_count <- shape_at (average_strategies_data L1) 0;
  let PC := players_count cfg in
  let HC := hand_count cfg in
  let batch_size := batch_size s in
  (* 1.0 average strategy *)
  do out_strategy <- reshape (average_strategies_data L1) [-1; batch_size; HC]%Z;
  (* 2.0 achieved opponent's CFVs at the starting node *)
  do L0 <- layer s 0;
  do avg0 <- reshape (average_cfvs_data L0) [batch_size; PC; HC];
  do out_achieved_cfvs <- getitem avg0 [At 0%Z];
  (* 3.0 CFVs for the acting player only when resolving first node *)
  do '(out_root_cfvs, out_root_cfvs_both_players) <-
     match reconstruction_opponent_cfvs s with
     | Some _ => OK (None, None)
     | None =>
         do root <- getitem avg0 [all; At 1%Z; all];
         (* swap cfvs indexing *)
         let both := avg0 in
         do p0 <- getitem avg0 [all; At 0%Z; all];
         do both <- setitem both [all; At 1%Z; all] p0;
         do p1 <- getitem avg0 [all; At 1%Z; all];
         do both <- setitem both [all; At 0%Z; all] p1;
         OK (Some root, Some both)
     end;
  (* 4.0 children CFVs *)
  do c <- getitem (average_cfvs_data L1) (player_slice 0);
  do out_children_cfvs <- reshape c [-1; HC]%Z;
  (* IMPORTANT divide average CFVs by average strategy in here *)
  do scaler <- reshape (average_strategies_data L1) [-1; batch_size; HC]%Z;
  do r <- getitem (ranges_data L0) (player_slice 0);
  do range_mul <- reshape r [1; batch_size; HC]%Z;
  do range_mul <- binop mul range_mul (ones_like scaler);
  do scaler <- binop mul scaler range_mul;
  do sm <- sum_axis 2 scaler;
  do scaler <- binop mul sm (ones_like range_mul);
  do scaler <- binop mul scaler (scalar (inject_Z normalize_divisor));
  do out_children_cfvs <- binop div out_children_cfvs scaler;
  OK {| strategy := Some out_strategy;
        achieved_cfvs := Some out_achieved_cfvs;
        root_cfvs := out_root_cfvs;
        root_cfvs_both_players := out_root_cfvs_both_players;
        children_cfvs := Some out_children_cfvs |}.

(** Gives the average counterfactual values for the opponent during
    re-solving after a chance event.  The vector that is returned is a
    view of [self.next_street_boxes_outputs], which the call updates. *)
Definition get_chance_action_cfv (action : Z) (board : list Z) (s : Lookahead)
  : result (ndarray * Lookahead) :=
  let PC := players_count cfg in
  let HC := hand_count cfg in
  do box_outputs <- reshape (next_street_boxes_outputs s) [-1; PC; HC]%Z;
  do batch_index <- of_option KeyError (action_to_index s !! action);
  do pot_mult <- getitem (next_round_pot_sizes s) [At batch_index];
  let box_outputs := mkArr (shape box_outputs)
                           (data (get_value_on_board C board box_outputs)) in
  do out <- getitem box_outputs [At batch_index; At (current_player (tree s))];
  do out <- iop mul out pot_mult;
  do box_outputs <- setitem box_outputs
                      [At batch_index; At (current_player (tree s))] out;
  OK (out, set_next_street_boxes_outputs
             (write_through (next_street_boxes_outputs s) box_outputs) s).

End Model.

Arguments Lookahead : clear implicits.
Arguments Collab : clear implicits.

(** * Regret matching in floating-point arithmetic

    The model above computes with exact rationals.  Here the phase
    [_compute_current_strategies] is given once more, with the result of
    every arithmetic operation rounded by [rnd], as the float64 arithmetic
    of numpy rounds it.  With the identity for [rnd] the phase is the one
    of the model. *)

Section Rounded.
Variable rnd : Q -> Q.

Definition round (x : num) : num :=
  match x with
  | Fin q => Fin (rnd q)
  | _ => x
  end.

Definition fl_add (x y : num) : num := round (add x y).
Definition fl_mul (x y : num) : num := round (mul x y).
Definition fl_div (x y : num) : num := round (div x y).

Definition fl_sum_list (l : list num) : num := fold_left fl_add l zero.

(** [np.sum(a, axis=ax, keepdims=True)]. *)
Definition fl_sum_axis (ax : nat) (a : ndarray) : result ndarray :=
  match nth_error (shape a) ax with
  | None => Raise ValueError
  | Some n =>
      OK (build (<[ax := 1]> (shape a))
                (fun idx => fl_sum_list (map (fun i => get a (<[ax := i]> idx))
                                             (seq 0 n))))
  end.

Variable cfg : Settings.

(** Uses regret matching to generate the players' current strategies. *)
Definition current_strategies_layer_fl (eps : Q) (L : Layer) : result Layer :=
  let L := set_positive_regrets_data (regrets_data L) L in
  let L := set_positive_regrets_data
             (amap (clip eps (max_number cfg)) (positive_regrets_data L)) L in
  (* 1.0 set regret of empty actions to 0 *)
  do pr <- iop fl_mul (positive_regrets_data L) (empty_action_mask L);
  let L := set_positive_regrets_data pr L in
  (* 1.1 regret matching *)
  do rs <- fl_sum_axis 0 (positive_regrets_data L);
  let L := set_regrets_sum rs L in
  do den <- binop fl_mul (regrets_sum L) (ones_like (current_strategy_data L));
  do cs <- binop fl_div (positive_regrets_data L) den;
  OK (set_current_strategy_data cs L).

Definition _compute_current_strategies_fl {G} (s : Lookahead G)
  : result (Lookahead G) :=
  let s := emit (Enter compute_current_strategies None) s in
  for_each (range 1 (depth s))
           (fun d => modify_layer d
                       (current_strategies_layer_fl (regret_epsilon s)))
           s.

End Rounded.

(** ** Rounding to the nearest float

    The integer nearest to [n / d], ties to even. *)
Definition nearest_even (n d : Z) : Z :=
  let q := (n / d)%Z in
  let r := (n mod d)%Z in
  match (2 * r ?= d)%Z with
  | Lt => q
  | Gt => (q + 1)%Z
  | Eq => if Z.even q then q else (q + 1)%Z
  end.

(** The integer nearest to [y], ties to even. *)
Definition rne (y : Q) : Z :=
  let y' := Qred y in nearest_even (Qnum y') (Zpos (Qden y')).

(** The exponent of [x]: [2 ^ e <= x < 2 ^ (e + 1)], for [0 < x]. *)
Definition exponent (x : Q) : Z :=
  let e0 := (Z.log2 (Qnum x) - Z.log2 (Zpos (Qden x)))%Z in
  if Qle_bool (2 ^ e0) x then e0 else (e0 - 1)%Z.

(** The number with a mantissa of [p] bits that is nearest to [x], ties
    to even.  The exponent is not bounded: there is no overflow and no
    underflow. *)
Definition round_pos (p : Z) (x : Q) : Q :=
  let s := (p - 1 - exponent x)%Z in
  (inject_Z (rne (x * 2 ^ s)) * 2 ^ (- s))%Q.

Definition round_to (p : Z) (x : Q) : Q :=
  Qred (if Qle_bool x 0
        then if Qeq_bool x 0 then 0 else - round_pos p (- x)
        else round_pos p x).

(** The rounding of float64. *)
Definition binary64 : Q -> Q := round_to 53.

(** ** Observations on the trace *)

Definition phases_entered (t : list event) : list phase :=
  omap (fun e => match e with Enter p _ => Some p | GadgetCall _ _ => None end) t.

Definition gadget_calls (t : list event) : list (ndarray * Z) :=
  omap (fun e => match e with GadgetCall c i => Some (c, i) | Enter _ _ => None end) t.

(** The phases of one iteration, in the order of the specification, after
    the opponent's range was set; and those of the final pass. *)
Definition phase_events (iter : Z) : list event :=
  [Enter compute_current_strategies None;
   Enter compute_ranges None;
   Enter compute_update_average_strategies (Some iter);
   Enter compute_terminal_equities None;
   Enter compute_cfvs None;
   Enter compute_regrets None;
   Enter compute_cumulate_average_cfvs (Some iter)].

Definition iteration_phases : list phase :=
  [set_opponent_starting_range;
   compute_current_strategies;
   compute_ranges;
   compute_update_average_strategies;
   compute_terminal_equities;
   compute_cfvs;
   compute_regrets;
   compute_cumulate_average_cfvs].

Definition final_phases : list phase :=
  [compute_normalize_average_strategies; compute_normalize_average_cfvs].

(** The layer-0 CFVs that the gadget is given: those of player 0. *)
Definition gadget_input {G} (s : Lookahead G) : result ndarray :=
  do L0 <- layer s 0;
  getitem (cfvs_data L0) (player_slice 0).

(** * Properties *)

(** ** Arrays of numbers, masks, columns *)

(** Every element is a number: neither NaN nor an infinity. *)
Definition fin_arr (a : ndarray) : Prop :=
  Forall (fun x => is_fin x = true) (data a).

Definition fin_op (f : num -> num -> num) : Prop :=
  forall x y, is_fin x = true -> is_fin y = true -> is_fin (f x y) = true.

(** A mask: every element is 0 or 1. *)
Definition binary (a : ndarray) : Prop :=
  Forall (fun x => x = zero \/ x = one) (data a).

(** The elements of [a] over its first axis (the actions), at the state
    [j]. *)
Definition column (a : ndarray) (n : nat) (j : list nat) : list num :=
  map (fun i => get a (i :: j)) (seq 0 n).

(** The dimension of a broadcast axis. *)
Definition bdim (a b : nat) : option nat :=
  if a =? b then Some a else if a =? 1 then Some b
  else if b =? 1 then Some a else None.

(** The dimensions of a reshape: [-1] is the hole that is filled. *)
Definition fill_hole (x : nat) (d : Z) : nat :=
  if is_hole d then x else Z.to_nat d.

Definition known_size (dims : list Z) : Z :=
  fold_right Z.mul 1%Z (List.filter (fun d => negb (is_hole d)) dims).

Definition holes (dims : list Z) : nat := length (List.filter is_hole dims).

(** What the propagation of the ranges does not change in a layer. *)
Definition skeleton (L : Layer) :=
  (shape (ranges_data L), current_strategy_data L, acting_player L,
   terminal_actions_count L, bets_count L, nonallinbets_count L).

(** What regret matching needs of a layer: regrets that are numbers, a
    mask and a strategy tensor of the shape of the regrets. *)
Definition strategy_ready (L : Layer) : Prop :=
  exists A sh,
    shape (regrets_data L) = A :: sh /\
    shape (empty_action_mask L) = A :: sh /\
    shape (current_strategy_data L) = A :: sh /\
    fin_arr (regrets_data L) /\
    binary (empty_action_mask L).

(** ** The events of a run *)

(** The events of one iteration: the opponent's range is set, with a call
    of the gadget on the CFVs [cf] when there is one, then the phases. *)
Definition iteration_events (iter : Z) (cf : option ndarray) : list event :=
  Enter set_opponent_starting_range (Some iter)
  :: match cf with Some c => [GadgetCall c iter] | None => [] end
  ++ phase_events iter.

Definition final_events : list event :=
  [Enter compute_normalize_average_strategies None;
   Enter compute_normalize_average_cfvs None].

(** The events of a run whose iteration [i] gives the gadget the CFVs
    [cfs !! i], if any. *)
Definition run_events (iters : list Z) (cfs : list (option ndarray))
  : list event :=
  concat (zip_with iteration_events iters cfs) ++ final_events.

(** The phases of the solver proper: all but the setting of the
    opponent's range; and those of one iteration, in their order. *)
Definition is_solver_phase (p : phase) : bool :=
  match p with set_opponent_starting_range => false | _ => true end.

Definition solver_phases (t : list event) : list phase :=
  List.filter is_solver_phase (phases_entered t).

Definition cfr_phases : list phase :=
  [compute_current_strategies;
   compute_ranges;
   compute_update_average_strategies;
   compute_terminal_equities;
   compute_cfvs;
   compute_regrets;
   compute_cumulate_average_cfvs].

(** ** The phases as methods *)

Section Order.
Context {G : Type}.
Variable C : Collab G.
Variable cfg : Settings.

(** The method of the lookahead that a phase names, as it is called in
    the iteration [iter]. *)
Definition phase_run (iter : Z) (p : phase)
  : Lookahead G -> result (Lookahead G) :=
  match p with
  | set_opponent_starting_range => _set_opponent_starting_range C iter
  | compute_current_strategies => _compute_current_strategies cfg
  | compute_ranges => _compute_ranges cfg
  | compute_update_average_strategies =>
      _compute_update_average_strategies cfg iter
  | compute_terminal_equities => _compute_terminal_equities C cfg
  | compute_cfvs => _compute_cfvs
  | compute_regrets => _compute_regrets cfg
  | compute_cumulate_average_cfvs => _compute_cumulate_average_cfvs cfg iter
  | compute_normalize_average_strategies =>
      _compute_normalize_average_strategies
  | compute_normalize_average_cfvs => _compute_normalize_average_cfvs cfg
  end.

(** The phases [ps], one after the other, each on the lookahead that the
    one before has left. *)
Fixpoint phases_run (iter : Z) (ps : list phase) (s : Lookahead G)
  : result (Lookahead G) :=
  match ps with
  | [] => OK s
  | p :: ps' =>
      do s' <- phase_run iter p s;
      phases_run iter ps' s'
  end.

(** A re-solve as the specification describes it: for each of the
    iterations [0], ..., [cfr_iters - 1] the phases of an iteration in
    their order, then the two phases of the final pass. *)
Definition solve_in_order (s : Lookahead G) : result (Lookahead G) :=
  do s' <- for_each (range 0 (cfr_iters cfg))
                    (fun iter => phases_run iter iteration_phases) s;
  phases_run 0 final_phases s'.

End Order.


Section Properties.
Context {G : Type}.
Implicit Types s : Lookahead G.

(** ** What a phase leaves alone *)

(** The attributes that only [resolve] and the gadget driver assign. *)
Definition frame s s' : Prop :=
  trace s' = trace s /\
  reconstruction_opponent_cfvs s' = reconstruction_opponent_cfvs s /\
  reconstruction_gadget s' = reconstruction_gadget s /\
  depth s' = depth s /\
  batch_size s' = batch_size s /\
  tree s' = tree s /\
  regret_epsilon s' = regret_epsilon s /\
  length (layers s') = length (layers s).

(** A phase enters, and leaves alone what [frame] lists. *)
Definition enters (e : event) s s' : Prop := frame (emit e s) s'.

(** The call of the gadget in the iteration [iter] that starts in [s]. *)
Definition gadget_events (iter : Z) s : list event :=
  match reconstruction_opponent_cfvs s, gadget_input s with
  | Some _, OK cf => [GadgetCall cf iter]
  | _, _ => []
  end.

(** ** Regrets *)

(** The CFVs and the regrets of every layer are numbers. *)
Definition fin_layers s : Prop :=
  forall k L, layers s !! k = Some L ->
    fin_arr (cfvs_data L) /\ fin_arr (regrets_data L).

(** The regrets of the layer [d] are not negative. *)
Definition regrets_nonneg s (d : Z) : Prop :=
  forall L, layer s d = OK L -> Forall nonneg (data (regrets_data L)).

(** ** The layout of the layers and the reach of a node *)

Definition layer_field {A} (f : Layer -> A) (dflt : A) s (k : nat) : A :=
  match layers s !! k with Some L => f L | None => dflt end.

Definition ranges_of s (k : nat) : ndarray :=
  layer_field ranges_data (mkArr [0] []) s k.

Definition strategy_of s (k : nat) : ndarray :=
  layer_field current_strategy_data (mkArr [0] []) s k.

(** The player who acts at the nodes of the layer [k]. *)
Definition actor s (k : nat) : nat :=
  Z.to_nat (layer_field acting_player 0%Z s k).

(** What a propagation step from the layer [k] reads from the layers
    above: the number of terminal actions of the layer [k - 1] and the
    number of bets that are not all-in of the layer [k - 2]. *)
Definition terminal_above s (k : nat) : nat :=
  match k with
  | 0 => 0
  | S k' => Z.to_nat (layer_field terminal_actions_count 0%Z s k')
  end.

Definition grandparent_bets s (k : nat) : nat :=
  match k with
  | S (S k') => Z.to_nat (layer_field nonallinbets_count 0%Z s k')
  | _ => 1
  end.

(** The reach of a node of the layer [k] for the player [q] with the hand
    [h]: the range at the root, times the strategies of [q] at the actions
    that lead from the root to the node.  The node [(a, p, n)] of the layer
    [k + 1] is reached by the action [a] from the node
    [(t + p, n mod g, n / g)] of the layer [k]. *)
Fixpoint reach s (k : nat) (a p n b q h : nat) : num :=
  match k with
  | 0 => get (ranges_of s 0) [a; p; n; b; q; h]
  | S k' =>
      let g := grandparent_bets s k' in
      let up := reach s k' (terminal_above s k' + p) (n mod g) (n / g) b q h in
      if q =? actor s k'
      then mul up (get (strategy_of s k) [a; p; n; b; h])
      else up
  end.

(** The shapes that the builder gives to the layers [k] and [k + 1]. *)
Definition step_shaped (cfg : Settings) s (k : nat) : Prop :=
  exists A P N B PC HC A',
    let t := terminal_above s k in
    let g := grandparent_bets s k in
    S k < length (layers s) /\
    shape (ranges_of s k) = [A; P; N; B; PC; HC] /\
    shape (ranges_of s (S k)) = [A'; A - t; N * g; B; PC; HC] /\
    shape (strategy_of s (S k)) = [A'; A - t; N * g; B; HC] /\
    t < A /\ 0 < g <= P /\ 0 < B /\ 0 < PC /\ 0 < HC /\
    batch_size s = Z.of_nat B /\
    players_count cfg = Z.of_nat PC /\
    hand_count cfg = Z.of_nat HC /\
    (0 <= layer_field acting_player 0%Z s k)%Z /\
    match k with
    | 0 => A - t = 1
    | S k' =>
        (0 <= layer_field terminal_actions_count 0%Z s k')%Z /\
        layer_field bets_count 0%Z s k' = Z.of_nat (A - t)
    end /\
    match k with
    | S (S k') => (0 <= layer_field nonallinbets_count 0%Z s k')%Z
    | _ => True
    end.

Definition well_shaped (cfg : Settings) s : Prop :=
  forall k, (Z.of_nat (S k) < depth s)%Z -> step_shaped cfg s k.

Definition same_layout s s1 : Prop :=
  map skeleton (layers s1) = map skeleton (layers s) /\
  batch_size s1 = batch_size s.

(** The ranges of the layers up to [i] are the reach of their nodes. *)
Definition propagated s (i : nat) s1 : Prop :=
  same_layout s s1 /\
  forall k a p n b q h,
    k <= i ->
    in_bounds (shape (ranges_of s k)) [a; p; n; b; q; h] ->
    equiv (get (ranges_of s1 k) [a; p; n; b; q; h]) (reach s k a p n b q h).

End Properties.

(** ** Regret matching with rounding *)

Fixpoint qpow (q : Q) (n : nat) : Q :=
  match n with
  | 0 => 1
  | S n' => q * qpow q n'
  end.

(** The sum of [xs] from [acc] on, every addition rounded by [rnd]. *)
Definition fl_fold (rnd : Q -> Q) (acc : Q) (xs : list Q) : Q :=
  fold_left (fun a x => rnd (a + x)%Q) xs acc.

(** What is asked of a rounding, on the numbers that are not negative: it
    respects the equality of rationals, is monotone, leaves a rounded
    number as it is, leaves 1 as it is, and changes a number by a factor
    between [1 - u] and [1 + u] at most (the standard model of
    floating-point arithmetic, with the unit roundoff [u]). *)
Definition rounds (rnd : Q -> Q) (u : Q) : Prop :=
  (forall x y, x == y -> rnd x == rnd y)%Q /\
  (forall x y, 0 <= x -> x <= y -> rnd x <= rnd y)%Q /\
  (forall x, 0 <= x -> rnd (rnd x) == rnd x)%Q /\
  (rnd 1 == 1)%Q /\
  (0 <= u <= 1)%Q /\
  (forall x, 0 <= x -> (1 - u) * x <= rnd x <= (1 + u) * x)%Q.

(** What regret matching establishes in floating-point arithmetic with
    the unit roundoff [u]: at every state with a valid action the sum of
    the positive regrets is at least [eps], the strategy is a number
    between 0 and 1 at every action, 0 at the masked ones, and the sum [T]
    of the strategy over the [A] actions is 1 up to the rounding:
    [(1 - u) / (1 + u)^A <= T <= (1 + u) / (1 - u)^A]. *)
Definition strategy_rounded (u eps : Q) (L : Layer) : Prop :=
  exists A sh,
    shape (current_strategy_data L) = A :: sh /\
    forall j, in_bounds sh j ->
      (exists a, a < A /\ get (empty_action_mask L) (a :: j) = one) ->
      (exists S, get (regrets_sum L) (0 :: j) = Fin S /\ (eps <= S)%Q) /\
      (forall a, a < A ->
         exists q, get (current_strategy_data L) (a :: j) = Fin q /\
                   (0 <= q <= 1)%Q /\
                   (get (empty_action_mask L) (a :: j) = zero -> q == 0)%Q) /\
      exists T, sum_list (column (current_strategy_data L) A j) = Fin T /\
                (1 - u <= T * qpow (1 + u) A)%Q /\
                (T * qpow (1 - u) A <= 1 + u)%Q.

(** * A small lookahead *)

Module Toy.

(** Two players, two hands, the last street. *)
Definition cfg (iters skip : Z) : Settings :=
  {| cfr_iters := iters; cfr_skip_iters := skip; max_number := 999999;
     players_count := 2; P1 := 0; P2 := 1; streets_count := 1;
     hand_count := 2; nl := true |}.

(** Collaborators with simple answers: the gadget always returns the
    uniform range; a call is worth twice the range, a fold the range. *)
Definition collab : Collab unit :=
  {| CFRDGadget := fun _ _ _ => tt;
     compute_opponent_range := fun g _ _ => (full [1; 2] (Fin (1 # 2)), g);
     call_value := fun r _ => amap (fun x => mul x (Fin 2)) r;
     fold_value := fun r _ => r;
     get_value := fun _ o _ => o;
     get_value_aux := fun _ o _ => o;
     get_value_on_board := fun _ o => amap (fun x => add x one) o |}.

(** A layer whose tensors have [A] actions, [P] parent bets, [N] nodes and
    [B] batches. *)
Definition make_layer (A P N B : nat) (swap : list nat) (x : num)
           (acting terminal bets nonallin : Z) (calls folds : Z * Z) : Layer :=
  {| ranges_data := full [A; P; N; B; 2; 2] x;
     current_strategy_data := full [A; P; N; B; 2] x;
     regrets_data := full [A; P; N; B; 2] zero;
     positive_regrets_data := full [A; P; N; B; 2] zero;
     regrets_sum := full [1; P; N; B; 2] zero;
     current_regrets_data := full [A; P; N; B; 2] zero;
     cfvs_data := full [A; P; N; B; 2; 2] zero;
     placeholder_data := full [A; P; N; B; 2; 2] zero;
     swap_data := full swap zero;
     inner_nodes := full [A; P; N; B; 2; 2] zero;
     inner_nodes_p1 := full [A; P; N; B; 1; 2] zero;
     average_strategies_data := full [A; P; N; B; 2] zero;
     average_cfvs_data := full [A; P; N; B; 2; 2] zero;
     empty_action_mask := full [A; P; N; B; 2] one;
     pot_size := full [A; P; N; B; 2; 2] (Fin 3);
     acting_player := acting;
     bets_count := bets;
     nonallinbets_count := nonallin;
     actions_count := (terminal + bets)%Z;
     terminal_actions_count := terminal;
     term_call_indices := calls;
     term_fold_indices := folds;
     indices := (0, 0)%Z |}.

Definition make_lookahead (B : nat) (ls : list Layer) : Lookahead unit :=
  {| reconstruction_opponent_cfvs := None;
     reconstruction_gadget := None;
     batch_size := Z.of_nat B;
     layers := ls;
     depth := Z.of_nat (length ls);
     tree := mkTree 1 0 [];
     regret_epsilon := 1 # 2;
     first_call_terminal := true;
     first_call_transition := false;
     num_pot_sizes := 1;
     ranges_data_call := full [1; B; 2; 2] zero;
     ranges_data_fold := full [1; B; 2; 2] zero;
     cfvs_data_call := full [1; B; 2; 2] zero;
     cfvs_data_fold := full [1; B; 2; 2] zero;
     next_street_boxes_inputs := full [1; B; 2; 2] zero;
     next_street_boxes_outputs :=
       mkArr [1; 1; 2; 2] [Fin 1; Fin 2; Fin 3; Fin 4];
     next_board_idx := 0;
     action_to_index := {[ (-1)%Z := 0%Z ]};
     next_round_pot_sizes := mkArr [1] [Fin 3];
     trace := [] |}.

(** The root and its two actions, fold and call. *)
Definition root (B : nat) : Layer :=
  make_layer 1 1 1 B [1; 1; 1; B; 2; 2] (Fin (1 # 2)) 0 2 0 0 (0, 0)%Z (0, 0)%Z.

Definition children (B : nat) : Layer :=
  make_layer 2 1 1 B [2; 1; 1; B; 2; 2] (Fin (1 # 2)) 1 0 0 0 (0, 1)%Z (0, 1)%Z.

Definition lookahead : Lookahead unit := make_lookahead 1 [root 1; children 1].

Definition uniform : ndarray := mkArr [1; 2] [Fin (1 # 2); Fin (1 # 2)].

(** The same lookahead after a re-solve, with averages chosen by hand. *)
Definition averaged_children (B : nat) : Layer :=
  set_average_cfvs_data
    (build [2; 1; 1; B; 2; 2]
           (fun idx => match idx with
                       | [a; _; _; _; 0; h] => Fin (inject_Z (Z.of_nat (2 * a + h + 1)))
                       | _ => zero
                       end))
    (set_average_strategies_data
       (build [2; 1; 1; B; 2]
              (fun idx => match idx with
                          | [0; _; _; _; 0] => Fin (1 # 4)
                          | [1; _; _; _; 0] => Fin (3 # 4)
                          | _ => Fin (1 # 2)
                          end))
       (children B)).

Definition averaged (B : nat) : Lookahead unit :=
  make_lookahead B [root B; averaged_children B].

(** A lookahead of four layers, for the propagation of the ranges: three
    bets at the root, one of them all-in. *)
Definition deep : Lookahead unit :=
  make_lookahead 1
    [set_ranges_data (mkArr [1; 1; 1; 1; 2; 2]
                            [Fin (1 # 2); Fin (1 # 4); Fin (1 # 3); Fin (2 # 3)])
       (make_layer 1 1 1 1 [1] zero 0 2 3 2 (0, 0)%Z (0, 0)%Z);
     make_layer 5 1 1 1 [1] (Fin (1 # 2)) 1 2 1 1 (0, 0)%Z (0, 0)%Z;
     make_layer 3 3 1 1 [1] (Fin (1 # 3)) 0 2 1 1 (0, 0)%Z (0, 0)%Z;
     make_layer 2 1 2 1 [1] (Fin (1 # 5)) 1 2 0 0 (0, 0)%Z (0, 0)%Z].

(** The lookahead of two actions with two batches. *)
Definition lookahead2 : Lookahead unit := make_lookahead 2 [root 2; children 2].

Definition uniform2 : ndarray :=
  mkArr [2; 2] [Fin (1 # 2); Fin (1 # 2); Fin (1 # 2); Fin (1 # 2)].

(** In the middle of an iteration: CFVs that differ by action and hand,
    and regrets below zero. *)
Definition played : Lookahead unit :=
  make_lookahead 1
    [set_cfvs_data (full [1; 1; 1; 1; 2; 2] one) (root 1);
     set_regrets_data (full [2; 1; 1; 1; 2] (Fin (-3)))
       (set_cfvs_data
          (build [2; 1; 1; 1; 2; 2]
                 (fun idx => match idx with
                             | [a; _; _; _; _; h] =>
                                 Fin (inject_Z (Z.of_nat (5 * a + h)))
                             | _ => zero
                             end))
          (children 1))].

(** At the end of the iterations, the first hand never reached. *)
Definition unreached : Lookahead unit :=
  make_lookahead 1
    [root 1;
     set_average_strategies_data
       (build [2; 1; 1; 1; 2]
              (fun idx => match idx with
                          | [a; _; _; _; 1] => Fin (inject_Z (Z.of_nat (S a)))
                          | _ => zero
                          end))
       (children 1)].

(** After the inputs of [resolve] were stored. *)
Definition reconstructing : Lookahead unit :=
  set_reconstruction_opponent_cfvs (Some uniform)
    (set_reconstruction_gadget (Some tt) lookahead).

(** Regrets 0.1, 0.2 and 0.3 as float64 has them, for three actions, and
    the regret epsilon of a billionth. *)
Definition floats : Lookahead unit :=
  let s := make_lookahead 1
             [root 1;
              set_regrets_data
                (amap (round binary64)
                      (mkArr [3; 1; 1; 1; 2]
                             [Fin (1 # 10); Fin (1 # 10); Fin (2 # 10);
                              Fin (2 # 10); Fin (3 # 10); Fin (3 # 10)]))
                (make_layer 3 1 1 1 [3; 1; 1; 1; 2; 2] (Fin (1 # 2))
                            1 0 0 0 (0, 1)%Z (0, 1)%Z)] in
  {| reconstruction_opponent_cfvs := reconstruction_opponent_cfvs s;
     reconstruction_gadget := reconstruction_gadget s;
     batch_size := batch_size s;
     layers := layers s;
     depth := depth s;
     tree := tree s;
     regret_epsilon := binary64 (1 # 1000000000);
     first_call_terminal := first_call_terminal s;
     first_call_transition := first_call_transition s;
     num_pot_sizes := num_pot_sizes s;
     ranges_data_call := ranges_data_call s;
     ranges_data_fold := ranges_data_fold s;
     cfvs_data_call := cfvs_data_call s;
     cfvs_data_fold := cfvs_data_fold s;
     next_street_boxes_inputs := next_street_boxes_inputs s;
     next_street_boxes_outputs := next_street_boxes_outputs s;
     next_board_idx := next_board_idx s;
     action_to_index := action_to_index s;
     next_round_pot_sizes := next_round_pot_sizes s;
     trace := trace s |}.

(** A lookahead of three layers: at the root a fold, a call and an all-in
    bet, which is answered by a fold or a call. *)
Definition three : Lookahead unit :=
  set_ranges_data_call (full [2; 1; 2; 2] zero)
    (set_ranges_data_fold (full [2; 1; 2; 2] zero)
       (set_cfvs_data_call (full [2; 1; 2; 2] zero)
          (set_cfvs_data_fold (full [2; 1; 2; 2] zero)
             (make_lookahead 1
                [make_layer 1 1 1 1 [1; 1; 1; 1; 2; 2] (Fin (1 # 2))
                            0 2 1 0 (0, 0)%Z (0, 0)%Z;
                 make_layer 3 1 1 1 [1; 1; 1; 1; 2; 2] (Fin (1 # 2))
                            1 2 0 0 (0, 1)%Z (0, 1)%Z;
                 make_layer 2 1 1 1 [1; 1; 1; 1; 2; 2] (Fin (1 # 2))
                            0 0 0 0 (1, 2)%Z (1, 2)%Z])))).

End Toy.

(** ** What a re-solve keeps *)

(** The attributes that the builder sets and that no phase assigns. *)
Definition layout_kept {G} (s s' : Lookahead G) : Prop :=
  depth s' = depth s /\
  batch_size s' = batch_size s /\
  tree s' = tree s /\
  regret_epsilon s' = regret_epsilon s /\
  length (layers s') = length (layers s).

(** ** Regret matching *)

(** The positive regret of an action at a state: the regret clipped to
    [[eps, max_number]], times the mask of the empty actions. *)
Definition positive_regret (cfg : Settings) (eps : Q) (L : Layer)
           (idx : list nat) : num :=
  mul (clip eps (max_number cfg) (get (regrets_data L) idx))
      (get (empty_action_mask L) idx).

(** ** The averages *)

(** The averages that a layer accumulates. *)
Definition averages (L : Layer) : ndarray * ndarray :=
  (average_strategies_data L, average_cfvs_data L).

Definition averages_kept {G} (s s' : Lookahead G) : Prop :=
  map averages (layers s') = map averages (layers s).

(** ** The ranges at the root *)

(** The ranges that the first layer holds. *)
Definition root_ranges {G} (s : Lookahead G) : option ndarray :=
  option_map ranges_data (layers s !! 0).

(** The ranges [r'] are the ranges [r] but for the second player. *)
Definition but_opponent (r r' : ndarray) : Prop :=
  shape r' = shape r /\
  forall i p n b q h,
    in_bounds (shape r) [i; p; n; b; q; h] -> q <> 1 ->
    get r' [i; p; n; b; q; h] = get r [i; p; n; b; q; h].

(** What a run keeps of the ranges at the root: those of all the players
    but the second, and those of the second too when no opponent CFVs are
    stored. *)
Definition root_kept {G} (s s' : Lookahead G) : Prop :=
  reconstruction_opponent_cfvs s' = reconstruction_opponent_cfvs s /\
  (reconstruction_opponent_cfvs s = None -> root_ranges s' = root_ranges s) /\
  forall r, root_ranges s = Some r -> length (shape r) = 6 ->
    exists r', root_ranges s' = Some r' /\ but_opponent r r'.

(** * Proofs *)

(** ** Row-major positions *)

Lemma numel_cons n sh : numel (n :: sh) = n * numel sh.
Proof. reflexivity. Qed.

Lemma in_bounds_nil : in_bounds [] [].
Proof. constructor. Qed.

Lemma in_bounds_cons n sh i idx :
  in_bounds (n :: sh) (i :: idx) <-> i < n /\ in_bounds sh idx.
Proof.
  unfold in_bounds. split.
  - intros H. inversion H; subst. auto.
  - intros [H1 H2]. constructor; assumption.
Qed.

Lemma in_bounds_length sh idx : in_bounds sh idx -> length idx = length sh.
Proof. unfold in_bounds. induction 1; simpl; congruence. Qed.

Lemma ravel_lt sh idx : in_bounds sh idx -> ravel sh idx < numel sh.
Proof.
  unfold in_bounds. induction 1 as [|i n idx sh Hi _ IH]; simpl.
  - lia.
  - fold (numel sh). nia.
Qed.

Lemma unravel_ravel sh idx : in_bounds sh idx -> unravel sh (ravel sh idx) = idx.
Proof.
  unfold in_bounds. induction 1 as [|i n idx sh Hi Hb IH]; simpl.
  - reflexivity.
  - pose proof (ravel_lt sh idx Hb) as Hlt.
    assert (E1 : (i * numel sh + ravel sh idx) / numel sh = i).
    { rewrite Nat.div_add_l by lia.
      rewrite (Nat.div_small (ravel sh idx)) by assumption. lia. }
    assert (E2 : (i * numel sh + ravel sh idx) mod numel sh = ravel sh idx).
    { rewrite Nat.add_comm, Nat.Div0.mod_add. apply Nat.mod_small; assumption. }
    fold (numel sh). rewrite E1, E2, IH. reflexivity.
Qed.

Lemma unravel_in_bounds sh k : k < numel sh -> in_bounds sh (unravel sh k).
Proof.
  revert k. induction sh as [|n sh IH]; intros k Hk; simpl.
  - constructor.
  - rewrite numel_cons in Hk.
    assert (numel sh <> 0) by (intros E; rewrite E in Hk; lia).
    apply in_bounds_cons. split.
    + apply Nat.Div0.div_lt_upper_bound. lia.
    + apply IH. apply Nat.mod_upper_bound. assumption.
Qed.

Lemma ravel_unravel sh k : k < numel sh -> ravel sh (unravel sh k) = k.
Proof.
  revert k. induction sh as [|n sh IH]; intros k Hk; simpl.
  - simpl in Hk. lia.
  - rewrite numel_cons in Hk.
    assert (numel sh <> 0) by (intros E; rewrite E in Hk; lia).
    rewrite IH by (apply Nat.mod_upper_bound; assumption).
    pose proof (Nat.div_mod_eq k (numel sh)). lia.
Qed.

(** ** Elements of the arrays that the operations build *)

Lemma wf_build sh f : wf (build sh f).
Proof. unfold wf, build. simpl. rewrite length_map, length_seq. reflexivity. Qed.

Lemma shape_build sh f : shape (build sh f) = sh.
Proof. reflexivity. Qed.

Lemma nth_map_seq_from (g : nat -> num) a n k :
  k < n -> nth k (map g (seq a n)) zero = g (a + k).
Proof.
  revert a k. induction n as [|n IH]; intros a k Hk; [lia|].
  destruct k as [|k]; simpl.
  - f_equal. lia.
  - rewrite IH by lia. f_equal. lia.
Qed.

Lemma nth_map_seq (g : nat -> num) n k :
  k < n -> nth k (map g (seq 0 n)) zero = g k.
Proof. intros Hk. rewrite nth_map_seq_from by assumption. reflexivity. Qed.

Lemma get_build sh f idx : in_bounds sh idx -> get (build sh f) idx = f idx.
Proof.
  intros Hb. unfold get, build. simpl.
  rewrite nth_map_seq by (apply ravel_lt; assumption).
  rewrite unravel_ravel by assumption. reflexivity.
Qed.

(** ** The error monad *)

Lemma bind_OK {A B} (m : result A) (k : A -> result B) b :
  bind m k = OK b -> exists a, m = OK a /\ k a = OK b.
Proof. destruct m as [a|e]; simpl; [eauto | discriminate]. Qed.

Lemma of_option_OK {A} e (o : option A) a : of_option e o = OK a -> o = Some a.
Proof. destruct o; simpl; congruence. Qed.

(** Splits a hypothesis [H : (do x <- m; k) = OK b] into its steps. *)
Ltac inv_bind H :=
  lazymatch type of H with
  | bind ?m ?k = OK ?b =>
      let a := fresh "a" in
      let H1 := fresh "H" in
      apply bind_OK in H; destruct H as (a & H1 & H);
      cbv beta in H; inv_bind H
  | OK _ = OK _ => inversion H; subst; clear H
  | _ => idtac
  end.

(** ** What a phase leaves alone *)

Section Frame.
Context {G : Type}.
Implicit Types s : Lookahead G.


Lemma frame_refl s : frame s s.
Proof. unfold frame. tauto. Qed.

Lemma frame_trans s1 s2 s3 : frame s1 s2 -> frame s2 s3 -> frame s1 s3.
Proof.
  unfold frame. intros (?&?&?&?&?&?&?&?) (?&?&?&?&?&?&?&?).
  repeat split; congruence.
Qed.

Lemma py_index_OK n i k : py_index n i = OK k -> k < n.
Proof.
  unfold py_index. cbv zeta. destruct (_ && _) eqn:E; [|discriminate].
  intros [= <-]. apply andb_prop in E as [E0 E].
  apply Z.leb_le in E0. apply Z.ltb_lt in E. lia.
Qed.

Lemma py_index_nonneg n (i : Z) :
  (0 <= i < Z.of_nat n)%Z -> py_index n i = OK (Z.to_nat i).
Proof.
  intros H. unfold py_index. cbv zeta.
  destruct (Z.ltb_spec i 0); [lia|].
  destruct (Z.leb_spec 0 i); [|lia].
  destruct (Z.ltb_spec i (Z.of_nat n)); [reflexivity|lia].
Qed.

Lemma modify_layer_OK d f s s' :
  modify_layer d f s = OK s' ->
  exists k L L',
    py_index (length (layers s)) d = OK k /\ layers s !! k = Some L /\
    f L = OK L' /\ s' = set_layers (<[k := L']> (layers s)) s.
Proof.
  unfold modify_layer. intros H. inv_bind H.
  apply of_option_OK in H1. eauto 8.
Qed.

Lemma modify_layer_frame d f s s' : modify_layer d f s = OK s' -> frame s s'.
Proof.
  intros H. apply modify_layer_OK in H as (k & L & L' & _ & _ & _ & ->).
  unfold frame. simpl. rewrite length_insert. tauto.
Qed.

Lemma for_each_rel {S} (R : S -> S -> Prop) l body :
  (forall x, R x x) -> (forall x y z, R x y -> R y z -> R x z) ->
  (forall d x y, In d l -> body d x = OK y -> R x y) ->
  forall x y, for_each l body x = OK y -> R x y.
Proof.
  intros Hrefl Htrans. induction l as [|d l IH]; intros Hbody x y H; simpl in H.
  - injection H as <-. apply Hrefl.
  - inv_bind H. eapply Htrans.
    + eapply Hbody; [left; reflexivity | eassumption].
    + apply IH; [|assumption]. intros. eapply Hbody; [right|]; eassumption.
Qed.

Lemma for_each_frame l body :
  (forall d s s', body d s = OK s' -> frame s s') ->
  forall s s', for_each l body s = OK s' -> frame s s'.
Proof.
  intros Hbody. apply for_each_rel; eauto using frame_refl, frame_trans.
Qed.

End Frame.

(** One step of taking apart a run [H : ... = OK s']. *)
Ltac run_step :=
  match goal with
  | H : Raise _ = OK _ |- _ => discriminate H
  | H : OK _ = OK _ |- _ => injection H as H; try subst
  | H : bind ?m _ = OK _ |- _ =>
      let x := fresh "x" in
      let E := fresh "E" in
      destruct m as [x|] eqn:E; [cbn [bind] in H | discriminate H]
  | H : (if ?b then _ else _) = OK _ |- _ => destruct b eqn:?
  | H : (let '(_, _) := ?p in _) = OK _ |- _ => destruct p eqn:?
  | H : match ?o with Some _ => _ | None => _ end = OK _ |- _ =>
      destruct o eqn:?
  | H : assert _ = OK _ |- _ => clear H
  end.

Ltac frame_hyps :=
  repeat match goal with
    | H : modify_layer _ _ _ = OK _ |- _ => apply modify_layer_frame in H
    | H : frame _ _ |- _ => destruct H as (?&?&?&?&?&?&?&?)
    end.

Ltac frame_solve :=
  repeat run_step; frame_hyps; unfold frame; cbn in *;
  repeat split; congruence.

Section Phases.
Context {G : Type}.
Variable C : Collab G.
Variable cfg : Settings.
Implicit Types s : Lookahead G.

Lemma emit_frame_but_trace e s :
  trace (emit e s) = trace s ++ [e] /\
  reconstruction_opponent_cfvs (emit e s) = reconstruction_opponent_cfvs s /\
  layers (emit e s) = layers s /\ depth (emit e s) = depth s.
Proof. repeat split. Qed.

Lemma terminal_gather_frame d s s' :
  terminal_gather cfg d s = OK s' -> frame s s'.
Proof. unfold terminal_gather. intros H. frame_solve. Qed.

Lemma terminal_scatter_frame d s s' :
  terminal_scatter cfg d s = OK s' -> frame s s'.
Proof. unfold terminal_scatter. intros H. frame_solve. Qed.

Lemma box_gather_frame d s s' : box_gather cfg d s = OK s' -> frame s s'.
Proof. unfold box_gather. intros H. frame_solve. Qed.

Lemma box_scatter_frame d s s' : box_scatter cfg d s = OK s' -> frame s s'.
Proof. unfold box_scatter. intros H. frame_solve. Qed.

Lemma ranges_step_frame d s s' : ranges_step cfg d s = OK s' -> frame s s'.
Proof. unfold ranges_step. intros H. frame_solve. Qed.

Lemma cfvs_step_frame d s s' : cfvs_step d s = OK s' -> frame s s'.
Proof. unfold cfvs_step. intros H. frame_solve. Qed.

Lemma regrets_step_frame d s v s' v' :
  regrets_step cfg d (s, v) = OK (s', v') -> frame s s'.
Proof. unfold regrets_step. intros H. frame_solve. Qed.

End Phases.

Section Trace.
Context {G : Type}.
Variable C : Collab G.
Variable cfg : Settings.
Implicit Types s : Lookahead G.


Lemma enters_trace e s s' : enters e s s' -> trace s' = trace s ++ [e].
Proof. intros (H & _). exact H. Qed.

Lemma enters_flag e s s' :
  enters e s s' ->
  reconstruction_opponent_cfvs s' = reconstruction_opponent_cfvs s.
Proof. intros (_ & H & _). exact H. Qed.

Lemma current_strategies_enters s s' :
  _compute_current_strategies cfg s = OK s' ->
  enters (Enter compute_current_strategies None) s s'.
Proof.
  unfold _compute_current_strategies, enters. cbv zeta.
  apply for_each_frame. intros d x y. apply modify_layer_frame.
Qed.

Lemma ranges_enters s s' :
  _compute_ranges cfg s = OK s' -> enters (Enter compute_ranges None) s s'.
Proof.
  unfold _compute_ranges, enters. cbv zeta.
  apply for_each_frame. intros d x y. apply ranges_step_frame.
Qed.

Lemma update_average_strategies_enters iter s s' :
  _compute_update_average_strategies cfg iter s = OK s' ->
  enters (Enter compute_update_average_strategies (Some iter)) s s'.
Proof.
  unfold _compute_update_average_strategies, enters. cbv zeta.
  destruct (accumulates _ _).
  - apply modify_layer_frame.
  - intros [= <-]. apply frame_refl.
Qed.

Lemma terminal_equity_frame s s' :
  _compute_terminal_equities_terminal_equity C cfg s = OK s' -> frame s s'.
Proof.
  unfold _compute_terminal_equities_terminal_equity. cbv zeta. intros H.
  repeat run_step.
  apply for_each_frame in E; [|apply terminal_gather_frame].
  apply for_each_frame in H; [|apply terminal_scatter_frame].
  frame_solve.
Qed.

Lemma next_street_box_frame s s' :
  _compute_terminal_equities_next_street_box C cfg s = OK s' -> frame s s'.
Proof.
  unfold _compute_terminal_equities_next_street_box. cbv zeta. intros H.
  repeat run_step; try apply frame_refl;
    repeat match goal with
      | H : for_each _ (box_gather _) _ = OK _ |- _ =>
          apply for_each_frame in H; [|apply box_gather_frame]
      | H : for_each _ (box_scatter _) _ = OK _ |- _ =>
          apply for_each_frame in H; [|apply box_scatter_frame]
      end;
    frame_solve.
Qed.

Lemma terminal_equities_enters s s' :
  _compute_terminal_equities C cfg s = OK s' ->
  enters (Enter compute_terminal_equities None) s s'.
Proof.
  unfold _compute_terminal_equities, enters. cbv zeta. intros H.
  run_step. run_step.
  apply terminal_equity_frame in E0.
  apply for_each_frame in H; [|intros d a b; apply modify_layer_frame].
  destruct (negb _).
  - apply next_street_box_frame in E. eauto using frame_trans.
  - injection E as <-. eauto using frame_trans.
Qed.

Lemma cfvs_enters s s' :
  _compute_cfvs s = OK s' -> enters (Enter compute_cfvs None) s s'.
Proof.
  unfold _compute_cfvs, enters. cbv zeta.
  apply for_each_frame. intros d x y. apply cfvs_step_frame.
Qed.

Lemma regrets_enters s s' :
  _compute_regrets cfg s = OK s' -> enters (Enter compute_regrets None) s s'.
Proof.
  unfold _compute_regrets, enters. cbv zeta. intros H. run_step.
  injection H as <-.
  revert E. generalize (mkLocals None None None).
  generalize (emit (Enter compute_regrets None) s). intros s0 v0 E.
  change s0 with (fst (s0, v0)).
  revert E. apply (for_each_rel (fun a b => frame (fst a) (fst b))).
  - intros. apply frame_refl.
  - intros. eapply frame_trans; eassumption.
  - intros d [a va] [b vb] _. apply regrets_step_frame.
Qed.

Lemma cumulate_average_cfvs_enters iter s s' :
  _compute_cumulate_average_cfvs cfg iter s = OK s' ->
  enters (Enter compute_cumulate_average_cfvs (Some iter)) s s'.
Proof.
  unfold _compute_cumulate_average_cfvs, enters. cbv zeta. intros H.
  frame_solve.
Qed.

Lemma normalize_average_strategies_enters s s' :
  _compute_normalize_average_strategies s = OK s' ->
  enters (Enter compute_normalize_average_strategies None) s s'.
Proof. apply modify_layer_frame. Qed.

Lemma normalize_average_cfvs_enters s s' :
  _compute_normalize_average_cfvs cfg s = OK s' ->
  enters (Enter compute_normalize_average_cfvs None) s s'.
Proof. apply modify_layer_frame. Qed.

End Trace.

Section Runs.
Context {G : Type}.
Variable C : Collab G.
Variable cfg : Settings.
Implicit Types s : Lookahead G.

Lemma layer_emit e s d : layer (emit e s) d = layer s d.
Proof. reflexivity. Qed.

(** The gadget driver: what it does when opponent CFVs were supplied, and
    when not. *)
Lemma set_opponent_starting_range_off iteration s s' :
  reconstruction_opponent_cfvs s = None ->
  _set_opponent_starting_range C iteration s = OK s' ->
  s' = emit (Enter set_opponent_starting_range (Some iteration)) s.
Proof.
  unfold _set_opponent_starting_range. cbv zeta. simpl.
  intros ->. congruence.
Qed.

Lemma set_opponent_starting_range_on iteration s s' :
  reconstruction_opponent_cfvs s <> None ->
  _set_opponent_starting_range C iteration s = OK s' ->
  exists g L0 cf r,
    reconstruction_gadget s = Some g /\
    layer s 0 = OK L0 /\
    gadget_input s = OK cf /\
    setitem (ranges_data L0) (player_slice 1)
            (fst (compute_opponent_range C g cf iteration)) = OK r /\
    layer s' 0 = OK (set_ranges_data r L0) /\
    trace s' = trace s ++ [Enter set_opponent_starting_range (Some iteration);
                           GadgetCall cf iteration] /\
    reconstruction_opponent_cfvs s' = reconstruction_opponent_cfvs s /\
    depth s' = depth s.
Proof.
  unfold _set_opponent_starting_range, gadget_input. cbv zeta. simpl.
  destruct (reconstruction_opponent_cfvs s) as [oc|] eqn:Hoc; [|congruence].
  intros _ H.
  destruct (reconstruction_gadget s) as [g|] eqn:Hg; [|discriminate].
  simpl in H. rewrite layer_emit in H.
  destruct (layer s 0) as [L0|] eqn:HL0; [|discriminate]. simpl in H.
  destruct (getitem _ _) as [cf|] eqn:Hcf; [|discriminate]. simpl in H.
  destruct (compute_opponent_range C g cf iteration) as [opr g'] eqn:Hopr.
  apply modify_layer_OK in H as (k & L & L' & Hk & HL & HL' & ->).
  cbn in Hk, HL.
  assert (L = L0 /\ k = 0) as [-> ->].
  { unfold layer in HL0. rewrite Hk in HL0. cbn [bind] in HL0.
    rewrite HL in HL0. injection HL0 as ->. split; [reflexivity|].
    revert Hk. unfold py_index. cbn. destruct (_ <? _)%Z; [|discriminate].
    intros [= <-]. reflexivity. }
  destruct (setitem _ _ _) as [r|] eqn:Hr; [|discriminate].
  injection HL' as <-.
  exists g, L0, cf, r. rewrite Hopr. cbn.
  split; [reflexivity|]. split; [reflexivity|].
  split; [exact Hcf|]. split; [exact Hr|].
  split.
  - unfold layer. cbn. rewrite length_insert, Hk. cbn.
    rewrite list_lookup_insert_eq; [reflexivity|].
    apply py_index_OK in Hk. exact Hk.
  - split; [|split; [exact Hoc | reflexivity]].
    rewrite <- app_assoc. reflexivity.
Qed.


Lemma iteration_trace iter s s' :
  iteration C cfg iter s = OK s' ->
  trace s' = trace s ++ Enter set_opponent_starting_range (Some iter)
                     :: gadget_events iter s ++ phase_events iter /\
  reconstruction_opponent_cfvs s' = reconstruction_opponent_cfvs s /\
  depth s' = depth s.
Proof.
  unfold iteration. intros H. repeat run_step.
  apply current_strategies_enters in E0.
  apply ranges_enters in E1.
  apply update_average_strategies_enters in E2.
  apply terminal_equities_enters in E3.
  apply cfvs_enters in E4.
  apply regrets_enters in E5.
  apply cumulate_average_cfvs_enters in H.
  assert (Hx : trace x = trace s ++ Enter set_opponent_starting_range (Some iter)
                           :: gadget_events iter s /\
               reconstruction_opponent_cfvs x = reconstruction_opponent_cfvs s /\
               depth x = depth s).
  { unfold gadget_events.
    destruct (reconstruction_opponent_cfvs s) as [oc|] eqn:Hoc.
    - apply set_opponent_starting_range_on in E; [|congruence].
      destruct E as (g & L0 & cf & r & _ & _ & -> & _ & _ & -> & -> & ->).
      rewrite Hoc. auto.
    - apply set_opponent_starting_range_off in E; [|assumption].
      subst x. simpl. auto. }
  destruct Hx as (Ht & Hf & Hd).
  unfold enters, frame in *. cbn in *.
  destruct E0 as (?&?&?&?&?&?&?&?), E1 as (?&?&?&?&?&?&?&?),
    E2 as (?&?&?&?&?&?&?&?), E3 as (?&?&?&?&?&?&?&?),
    E4 as (?&?&?&?&?&?&?&?), E5 as (?&?&?&?&?&?&?&?),
    H as (?&?&?&?&?&?&?&?).
  repeat split; try congruence.
  repeat match goal with H : trace _ = _ |- _ => rewrite H; clear H end.
  rewrite <- !app_assoc. reflexivity.
Qed.

Lemma iteration_gadget_input iter s s' :
  iteration C cfg iter s = OK s' ->
  reconstruction_opponent_cfvs s <> None ->
  exists cf, gadget_input s = OK cf.
Proof.
  unfold iteration. intros H Hf. run_step.
  apply set_opponent_starting_range_on in E; [|assumption].
  destruct E as (g & L0 & cf & r & _ & _ & Hcf & _). eauto.
Qed.

Lemma phases_entered_app t1 t2 :
  phases_entered (t1 ++ t2) = phases_entered t1 ++ phases_entered t2.
Proof. apply omap_app. Qed.

Lemma gadget_calls_app t1 t2 :
  gadget_calls (t1 ++ t2) = gadget_calls t1 ++ gadget_calls t2.
Proof. apply omap_app. Qed.

Lemma phases_entered_iteration iter s :
  phases_entered (Enter set_opponent_starting_range (Some iter)
                    :: gadget_events iter s ++ phase_events iter)
  = iteration_phases.
Proof.
  unfold gadget_events.
  destruct (reconstruction_opponent_cfvs s), (gadget_input s); reflexivity.
Qed.

Lemma gadget_calls_iteration iter s :
  map snd (gadget_calls (Enter set_opponent_starting_range (Some iter)
                           :: gadget_events iter s ++ phase_events iter))
  = match reconstruction_opponent_cfvs s, gadget_input s with
    | Some _, OK _ => [iter]
    | _, _ => []
    end.
Proof.
  unfold gadget_events.
  destruct (reconstruction_opponent_cfvs s), (gadget_input s); reflexivity.
Qed.

(** The main loop, over the iterations [l]. *)
Lemma loop_trace l s s' :
  for_each l (iteration C cfg) s = OK s' ->
  reconstruction_opponent_cfvs s' = reconstruction_opponent_cfvs s /\
  depth s' = depth s /\
  phases_entered (trace s')
  = phases_entered (trace s) ++ concat (replicate (length l) iteration_phases) /\
  map snd (gadget_calls (trace s'))
  = map snd (gadget_calls (trace s))
    ++ match reconstruction_opponent_cfvs s with Some _ => l | None => [] end.
Proof.
  revert s. induction l as [|iter l IH]; intros s H; simpl in H.
  - injection H as <-. simpl. rewrite !app_nil_r.
    destruct (reconstruction_opponent_cfvs s); rewrite ?app_nil_r; auto.
  - run_step. pose proof (iteration_gadget_input _ _ _ E) as Hin.
    apply iteration_trace in E as (Ht & Hf & Hd).
    apply IH in H as (Hf' & Hd' & Hp & Hg).
    rewrite Hf in Hf', Hg. rewrite Hd in Hd'.
    split; [exact Hf'|]. split; [exact Hd'|]. split.
    + rewrite Hp, Ht, phases_entered_app, phases_entered_iteration.
      simpl. rewrite <- app_assoc. reflexivity.
    + rewrite Hg, Ht, gadget_calls_app, map_app, gadget_calls_iteration.
      destruct (reconstruction_opponent_cfvs s) as [oc|] eqn:Hoc.
      * destruct Hin as [cf ->]; [congruence|].
        rewrite <- app_assoc. reflexivity.
      * rewrite !app_nil_r. reflexivity.
Qed.

Lemma length_range a b : length (range a b) = Z.to_nat (b - a).
Proof. unfold range. rewrite length_map, length_seq. reflexivity. Qed.

Lemma compute_trace s s' :
  _compute C cfg s = OK s' ->
  reconstruction_opponent_cfvs s' = reconstruction_opponent_cfvs s /\
  phases_entered (trace s')
  = phases_entered (trace s)
    ++ concat (replicate (Z.to_nat (cfr_iters cfg)) iteration_phases)
    ++ final_phases /\
  map snd (gadget_calls (trace s'))
  = map snd (gadget_calls (trace s))
    ++ match reconstruction_opponent_cfvs s with
       | Some _ => range 0 (cfr_iters cfg)
       | None => []
       end.
Proof.
  unfold _compute. intros H. repeat run_step.
  apply loop_trace in E as (Hf & Hd & Hp & Hg).
  rewrite length_range, Z.sub_0_r in Hp.
  apply normalize_average_strategies_enters in E0.
  apply normalize_average_cfvs_enters in H.
  pose proof (enters_trace _ _ _ E0) as Ht0.
  pose proof (enters_trace _ _ _ H) as Ht1.
  apply enters_flag in E0, H.
  split; [congruence|]. split.
  - rewrite Ht1, Ht0, !phases_entered_app, Hp. simpl.
    rewrite <- !app_assoc. reflexivity.
  - rewrite Ht1, Ht0, !gadget_calls_app, !map_app, Hg. simpl.
    rewrite !app_nil_r. reflexivity.
Qed.

End Runs.

(** ** Elements of the results of the array operations *)

Lemma get_full sh x idx : in_bounds sh idx -> get (full sh x) idx = x.
Proof.
  intros Hb. unfold get, full. simpl.
  apply nth_repeat_lt. apply ravel_lt. assumption.
Qed.

Lemma get_amap f a idx :
  in_bounds (shape a) idx -> get (amap f a) idx = f (get a idx).
Proof. intros Hb. unfold amap. rewrite get_build by assumption. reflexivity. Qed.

Lemma binop_OK f a b c :
  binop f a b = OK c ->
  bshape (shape a) (shape b) = Some (shape c) /\
  forall idx, in_bounds (shape c) idx ->
    get c idx = f (get a (bidx (shape a) idx)) (get b (bidx (shape b) idx)).
Proof.
  unfold binop. destruct (bshape _ _) as [sh|]; [|discriminate].
  intros [= <-]. split; [reflexivity|].
  intros idx Hb. simpl in Hb. rewrite get_build by assumption. reflexivity.
Qed.

Lemma iop_OK f a b c :
  iop f a b = OK c ->
  shape c = shape a /\
  bshape (shape a) (shape b) = Some (shape a) /\
  forall idx, in_bounds (shape a) idx ->
    get c idx = f (get a idx) (get b (bidx (shape b) idx)).
Proof.
  unfold iop. destruct (bshape _ _) as [sh|]; [|discriminate].
  destruct (decide _) as [->|]; [|discriminate].
  intros [= <-]. split; [reflexivity|]. split; [reflexivity|].
  intros idx Hb. rewrite get_build by assumption. reflexivity.
Qed.

Lemma getitem_OK a specs c :
  getitem a specs = OK c ->
  exists sels,
    norm_specs (shape a) specs = OK sels /\
    shape c = sel_shape sels /\
    forall idx, in_bounds (sel_shape sels) idx ->
      get c idx = get a (sel_src sels idx).
Proof.
  unfold getitem. intros H. run_step. injection H as <-.
  exists x. split; [reflexivity|]. split; [reflexivity|].
  intros idx Hb. rewrite get_build by assumption. reflexivity.
Qed.

Lemma setitem_OK a specs v c :
  setitem a specs v = OK c ->
  exists sels,
    norm_specs (shape a) specs = OK sels /\
    assignable (shape v) (sel_shape sels) = true /\
    shape c = shape a /\
    forall idx, in_bounds (shape a) idx ->
      get c idx = match sel_dst sels idx with
                  | Some j => get v (bidx (shape v) j)
                  | None => get a idx
                  end.
Proof.
  unfold setitem. intros H. run_step. run_step; [|discriminate].
  injection H as <-.
  exists x. split; [reflexivity|]. split; [assumption|].
  split; [reflexivity|].
  intros idx Hb. rewrite get_build by assumption. reflexivity.
Qed.

Lemma sum_axis_OK ax a c :
  sum_axis ax a = OK c ->
  exists n,
    shape a !! ax = Some n /\
    shape c = <[ax := 1]> (shape a) /\
    forall idx, in_bounds (shape c) idx ->
      get c idx = sum_list (map (fun i => get a (<[ax := i]> idx)) (seq 0 n)).
Proof.
  unfold sum_axis. destruct (nth_error _ _) as [n|] eqn:E; [|discriminate].
  intros [= <-]. exists n. split.
  - clear -E. revert ax E. induction (shape a) as [|m l IH]; intros [|ax] E;
      simpl in *; try discriminate; auto.
  - split; [reflexivity|].
    intros idx Hb. simpl in Hb. rewrite get_build by assumption. reflexivity.
Qed.

(** ** Arrays of numbers *)


Lemma fin_arr_get a idx : fin_arr a -> is_fin (get a idx) = true.
Proof.
  unfold fin_arr, get. intros H.
  destruct (Nat.lt_ge_cases (ravel (shape a) idx) (length (data a))) as [Hlt|Hge].
  - rewrite List.Forall_forall in H. apply H. apply nth_In. assumption.
  - rewrite nth_overflow by assumption. reflexivity.
Qed.

Lemma Forall_build (P : num -> Prop) sh f :
  (forall idx, in_bounds sh idx -> P (f idx)) -> Forall P (data (build sh f)).
Proof.
  intros H. unfold build. simpl. apply List.Forall_forall. intros x Hx.
  apply in_map_iff in Hx as (k & <- & Hk). apply in_seq in Hk.
  apply H. apply unravel_in_bounds. lia.
Qed.

Lemma Forall_data_get (P : num -> Prop) a :
  wf a ->
  (forall idx, in_bounds (shape a) idx -> P (get a idx)) -> Forall P (data a).
Proof.
  intros Hwf H. apply List.Forall_forall. intros x Hx.
  apply In_nth with (d := zero) in Hx as (k & Hk & <-).
  rewrite Hwf in Hk.
  specialize (H (unravel (shape a) k) (unravel_in_bounds _ _ Hk)).
  unfold get in H. rewrite ravel_unravel in H by assumption. exact H.
Qed.

Lemma fin_build sh f :
  (forall idx, is_fin (f idx) = true) -> fin_arr (build sh f).
Proof. intros H. apply Forall_build. auto. Qed.

Lemma fin_full sh x : is_fin x = true -> fin_arr (full sh x).
Proof. intros H. unfold fin_arr, full. simpl. apply List.Forall_forall.
  intros y Hy. apply repeat_spec in Hy. subst. assumption. Qed.

Lemma fin_getitem a specs c :
  fin_arr a -> getitem a specs = OK c -> fin_arr c.
Proof.
  unfold getitem. intros Ha H. run_step. injection H as <-.
  apply fin_build. intros. apply fin_arr_get. assumption.
Qed.

Lemma fin_transpose a perm c :
  fin_arr a -> transpose a perm = OK c -> fin_arr c.
Proof.
  unfold transpose. intros Ha H. run_step; [|discriminate]. injection H as <-.
  apply fin_build. intros. apply fin_arr_get. assumption.
Qed.

Lemma reshape_data a dims c : reshape a dims = OK c -> data c = data a.
Proof.
  unfold reshape. intros H. cbv zeta in H. run_step; [|discriminate].
  destruct (length (List.filter is_hole dims)) as [|[|]]; repeat run_step;
    try discriminate; reflexivity.
Qed.

Lemma fin_reshape a dims c : fin_arr a -> reshape a dims = OK c -> fin_arr c.
Proof. unfold fin_arr. intros Ha H. rewrite (reshape_data _ _ _ H). exact Ha. Qed.


Lemma fin_op_add : fin_op add.
Proof. intros [] [] ? ?; try discriminate; reflexivity. Qed.

Lemma fin_op_sub : fin_op sub.
Proof. intros [] [] ? ?; try discriminate; reflexivity. Qed.

Lemma fin_op_mul : fin_op mul.
Proof. intros [] [] ? ?; try discriminate; reflexivity. Qed.

Lemma fin_binop f a b c :
  fin_op f -> fin_arr a -> fin_arr b -> binop f a b = OK c -> fin_arr c.
Proof.
  unfold binop. intros Hf Ha Hb H. destruct (bshape _ _); [|discriminate].
  injection H as <-. apply fin_build. intros. apply Hf; apply fin_arr_get; assumption.
Qed.

Lemma fin_iop f a b c :
  fin_op f -> fin_arr a -> fin_arr b -> iop f a b = OK c -> fin_arr c.
Proof.
  unfold iop. intros Hf Ha Hb H. destruct (bshape _ _); [|discriminate].
  destruct (decide _); [|discriminate].
  injection H as <-. apply fin_build. intros. apply Hf; apply fin_arr_get; assumption.
Qed.

(** ** Clipping *)

Lemma clip_fin_bounds lo hi x :
  is_fin x = true -> (lo <= hi)%Q ->
  exists q, clip lo hi x = Fin q /\ (lo <= q <= hi)%Q.
Proof.
  destruct x as [q| | |]; try discriminate. intros _ Hle.
  unfold clip, maximum, minimum, leb.
  destruct (Qle_bool lo q) eqn:E1.
  - apply Qle_bool_iff in E1.
    destruct (Qle_bool q hi) eqn:E2.
    + apply Qle_bool_iff in E2. eauto.
    + exists hi. split; [reflexivity|]. split; [assumption|apply Qle_refl].
  - destruct (Qle_bool lo hi) eqn:E2.
    + exists lo. split; [reflexivity|]. split; [apply Qle_refl|assumption].
    + apply Qle_bool_iff in Hle. congruence.
Qed.

Lemma clip_nonneg hi x :
  is_fin x = true -> (0 <= hi)%Q -> nonneg (clip 0 hi x).
Proof.
  intros Hx Hhi. destruct (clip_fin_bounds 0 hi x Hx Hhi) as (q & -> & Hq & _).
  exact Hq.
Qed.

Lemma clip_is_fin lo hi x : is_fin x = true -> is_fin (clip lo hi x) = true.
Proof.
  destruct x as [q| | |]; try discriminate. intros _.
  unfold clip, maximum, minimum, leb.
  destruct (Qle_bool lo q); [destruct (Qle_bool q hi)|destruct (Qle_bool lo hi)];
    reflexivity.
Qed.

Section Regrets.
Context {G : Type}.
Variable cfg : Settings.
Implicit Types s : Lookahead G.

Lemma layer_OK s d L :
  layer s d = OK L ->
  exists k, py_index (length (layers s)) d = OK k /\ layers s !! k = Some L.
Proof.
  unfold layer. intros H. run_step. apply of_option_OK in H. eauto.
Qed.



Lemma regrets_step_OK d s v s' v' :
  regrets_step cfg d (s, v) = OK (s', v') ->
  exists k L r,
    py_index (length (layers s)) d = OK k /\ layers s !! k = Some L /\
    layers s' = <[k := set_regrets_data (amap (clip 0 (max_number cfg)) r) L]>
                  (layers s) /\
    (fin_layers s -> fin_arr r).
Proof.
  unfold regrets_step. cbv zeta. intros H. repeat run_step.
  match goal with
  | H : modify_layer _ _ _ = OK _ |- _ =>
      apply modify_layer_OK in H as (k & L & L' & Hk & HL & HL' & ->)
  end.
  injection HL' as <-.
  match goal with
  | H : layer s d = OK ?L0 |- _ =>
      apply layer_OK in H as (k0 & Hk0 & HL0);
      rewrite Hk in Hk0; injection Hk0 as <-;
      rewrite HL in HL0; injection HL0 as <-
  end.
  match goal with
  | H : layer s (d - 1) = OK _ |- _ => apply layer_OK in H as (kp & _ & HLp)
  end.
  match goal with
  | H : iop add (regrets_data L) _ = OK ?r |- _ => exists k, L, r
  end.
  split; [assumption|]. split; [assumption|]. split; [reflexivity|].
  intros Hfin. unfold reshape_as in *. destruct (Hfin _ _ HL) as [Hc Hr].
  destruct (Hfin _ _ HLp) as [Hcp _].
  eapply fin_iop; [apply fin_op_add | exact Hr | | eassumption].
  eapply fin_iop; [apply fin_op_sub | | | eassumption].
  - eapply fin_reshape; [|eassumption].
    eapply fin_getitem; [|eassumption]. assumption.
  - eapply fin_binop; [apply fin_op_mul | | | eassumption];
      [|unfold ones_like; apply fin_full; reflexivity].
    eapply fin_reshape; [|eassumption].
    eapply fin_transpose; [|eassumption].
    eapply fin_getitem; [|eassumption]. assumption.
Qed.

Lemma regrets_loop (l : list Z) s v s' v' :
  (0 <= max_number cfg)%Q ->
  fin_layers s ->
  for_each l (regrets_step cfg) (s, v) = OK (s', v') ->
  fin_layers s' /\
  forall d, In d l \/ regrets_nonneg s d -> regrets_nonneg s' d.
Proof.
  intros Hmax. revert s v. induction l as [|d0 l IH]; intros s v Hfin H;
    simpl in H.
  - injection H as <- <-. split; [assumption|]. intros d [[]|Hd]. exact Hd.
  - run_step. destruct x as [s1 v1].
    apply regrets_step_OK in E as (k & L & r & Hk & HL & Hs1 & Hr).
    specialize (Hr Hfin).
    assert (Hfin1 : fin_layers s1).
    { intros k1 L1. rewrite Hs1. intros H1.
      destruct (decide (k = k1)) as [<-|Hne].
      - rewrite list_lookup_insert_eq in H1
          by (apply lookup_lt_Some in HL; exact HL).
        injection H1 as <-. cbn [regrets_data cfvs_data set_regrets_data].
        split; [apply (Hfin _ _ HL)|].
        unfold amap. apply fin_build. intros idx. apply clip_is_fin, fin_arr_get, Hr.
      - rewrite list_lookup_insert_ne in H1 by assumption.
        apply (Hfin _ _ H1). }
    assert (Hgood : forall d, d = d0 \/ regrets_nonneg s d -> regrets_nonneg s1 d).
    { intros d Hd L1 HL1. apply layer_OK in HL1 as (k1 & Hk1 & HL1).
      rewrite Hs1 in Hk1, HL1. rewrite length_insert in Hk1.
      destruct (decide (k = k1)) as [<-|Hne].
      - rewrite list_lookup_insert_eq in HL1
          by (apply lookup_lt_Some in HL; exact HL).
        injection HL1 as <-. cbn [regrets_data set_regrets_data].
        unfold amap. apply Forall_build.
        intros idx _. apply clip_nonneg; [|assumption].
        apply fin_arr_get, Hr.
      - rewrite list_lookup_insert_ne in HL1 by assumption.
        destruct Hd as [->|Hd]; [congruence|].
        apply Hd. unfold layer. rewrite Hk1. simpl. rewrite HL1. reflexivity. }
    destruct (IH _ _ Hfin1 H) as [Hfin' Hgood'].
    split; [assumption|].
    intros d [[->|Hin]|Hd]; apply Hgood'; auto.
Qed.

Lemma In_range_down (a b d : Z) :
  (b < d <= a)%Z -> In d (range_down a b).
Proof.
  intros H. unfold range_down. apply in_map_iff.
  exists (Z.to_nat (a - d)). split; [lia|]. apply in_seq. lia.
Qed.

Lemma In_range (a b d : Z) : (a <= d < b)%Z -> In d (range a b).
Proof.
  intros H. unfold range. apply in_map_iff.
  exists (Z.to_nat (d - a)). split; [lia|]. apply in_seq. lia.
Qed.

Lemma compute_regrets_nonneg s s' :
  (0 <= max_number cfg)%Q ->
  fin_layers s ->
  _compute_regrets cfg s = OK s' ->
  forall d, (1 <= d < depth s)%Z -> regrets_nonneg s' d.
Proof.
  unfold _compute_regrets. cbv zeta. intros Hmax Hfin H d Hd.
  run_step. injection H as <-. destruct x as [s1 v1]. simpl.
  apply regrets_loop in E as [_ Hgood]; [|assumption|exact Hfin].
  apply Hgood. left. apply In_range_down. simpl. lia.
Qed.

End Regrets.

(** ** Broadcasting of shapes that agree but for the first axis *)


Lemma bshape_rev_snoc l a b :
  bshape_rev (l ++ [a]) (l ++ [b])
  = match bdim a b with Some c => Some (l ++ [c]) | None => None end.
Proof.
  induction l as [|x l IH]; simpl.
  - unfold bdim. destruct (a =? b), (a =? 1), (b =? 1); reflexivity.
  - rewrite IH. destruct (bdim a b); [|reflexivity].
    rewrite Nat.eqb_refl. reflexivity.
Qed.

Lemma bshape_rev_same l : bshape_rev l l = Some l.
Proof.
  induction l as [|x l IH]; simpl; [reflexivity|].
  rewrite IH, Nat.eqb_refl. reflexivity.
Qed.

Lemma bshape_same sh : bshape sh sh = Some sh.
Proof. unfold bshape. rewrite bshape_rev_same. simpl. rewrite rev_involutive. reflexivity. Qed.

Lemma bshape_cons a b c sh :
  bdim a b = Some c -> bshape (a :: sh) (b :: sh) = Some (c :: sh).
Proof.
  intros H. unfold bshape. simpl. rewrite bshape_rev_snoc, H. simpl.
  rewrite rev_app_distr, rev_involutive. reflexivity.
Qed.

Lemma bshape_scalar_r sh : bshape sh [] = Some sh.
Proof.
  unfold bshape. simpl.
  assert (E : bshape_rev (rev sh) [] = Some (rev sh))
    by (destruct (rev sh); reflexivity).
  rewrite E. simpl. rewrite rev_involutive. reflexivity.
Qed.

Lemma bidx_rev_app s1 s2 i1 i2 :
  Forall2 lt i1 s1 ->
  bidx_rev (s1 ++ s2) (i1 ++ i2) = i1 ++ bidx_rev s2 i2.
Proof.
  induction 1 as [|i n i1 s1 Hi _ IH]; simpl; [reflexivity|].
  rewrite IH. destruct (Nat.eqb_spec n 1); [|reflexivity].
  f_equal. lia.
Qed.

Lemma Forall2_lt_rev (i s : list nat) : Forall2 lt i s -> Forall2 lt (rev i) (rev s).
Proof.
  induction 1; simpl; [constructor|].
  apply Forall2_app; [assumption|]. constructor; [assumption|constructor].
Qed.

Lemma bidx_same sh idx : in_bounds sh idx -> bidx sh idx = idx.
Proof.
  intros H. unfold bidx.
  rewrite <- (app_nil_r (rev sh)), <- (app_nil_r (rev idx)).
  rewrite bidx_rev_app by (apply Forall2_lt_rev; exact H).
  simpl. rewrite app_nil_r. apply rev_involutive.
Qed.

Lemma bidx_cons_1 sh i idx :
  in_bounds sh idx -> bidx (1 :: sh) (i :: idx) = 0 :: idx.
Proof.
  intros H. unfold bidx. simpl.
  rewrite bidx_rev_app by (apply Forall2_lt_rev; exact H).
  simpl. rewrite rev_app_distr, rev_involutive. reflexivity.
Qed.

Lemma bidx_scalar idx : bidx [] idx = [].
Proof. reflexivity. Qed.

(** ** Sums *)

Lemma fold_add_fin (l : list num) (qs : list Q) (q0 : Q) :
  l = map Fin qs ->
  fold_left add l (Fin q0) = Fin (fold_left Qplus qs q0).
Proof.
  intros ->. revert q0. induction qs as [|q qs IH]; intros q0; simpl;
    [reflexivity|]. apply IH.
Qed.

Lemma sum_list_fin qs : sum_list (map Fin qs) = Fin (fold_left Qplus qs 0%Q).
Proof. unfold sum_list, zero. apply fold_add_fin. reflexivity. Qed.

Lemma fold_Qplus_shift qs q0 :
  (fold_left Qplus qs q0 == q0 + fold_left Qplus qs 0)%Q.
Proof.
  revert q0. induction qs as [|q qs IH]; intros q0; simpl.
  - ring.
  - rewrite (IH (q0 + q)%Q), (IH (0 + q)%Q). ring.
Qed.

Lemma fold_Qplus_nonneg qs :
  Forall (fun q => 0 <= q)%Q qs -> (0 <= fold_left Qplus qs 0)%Q.
Proof.
  induction 1 as [|q qs Hq _ IH]; simpl; [apply Qle_refl|].
  rewrite fold_Qplus_shift. lra.
Qed.

Lemma fold_Qplus_ge qs q :
  Forall (fun q => 0 <= q)%Q qs -> In q qs -> (q <= fold_left Qplus qs 0)%Q.
Proof.
  induction 1 as [|q' qs Hq Hqs IH]; simpl; [tauto|].
  intros [->|Hin]; rewrite fold_Qplus_shift.
  - pose proof (fold_Qplus_nonneg qs Hqs). lra.
  - specialize (IH Hin). lra.
Qed.

Lemma fold_Qplus_scale (qs : list Q) (c : Q) :
  (fold_left Qplus (map (fun q => q * c) qs) 0 == fold_left Qplus qs 0 * c)%Q.
Proof.
  induction qs as [|q qs IH]; simpl; [ring|].
  rewrite fold_Qplus_shift, IH, (fold_Qplus_shift qs (0 + q)). ring.
Qed.

Lemma binary_get a idx : binary a -> get a idx = zero \/ get a idx = one.
Proof.
  unfold binary, get. intros H.
  destruct (Nat.lt_ge_cases (ravel (shape a) idx) (length (data a))) as [Hlt|Hge].
  - rewrite List.Forall_forall in H. apply H. apply nth_In. assumption.
  - rewrite nth_overflow by assumption. left. reflexivity.
Qed.

Lemma bdim_1_l n : bdim 1 n = Some n.
Proof.
  unfold bdim. destruct (Nat.eqb_spec 1 n); [subst; reflexivity|].
  rewrite Nat.eqb_refl. reflexivity.
Qed.

Lemma bdim_same n : bdim n n = Some n.
Proof. unfold bdim. rewrite Nat.eqb_refl. reflexivity. Qed.

Lemma map_seq_fin (f : nat -> num) (x : nat -> Q) n :
  (forall i, i < n -> f i = Fin (x i)) ->
  map f (seq 0 n) = map Fin (map x (seq 0 n)).
Proof.
  intros H. rewrite map_map. apply map_ext_in. intros i Hi.
  apply in_seq in Hi. apply H. lia.
Qed.

Lemma for_each_ext {S} l (f g : Z -> S -> result S) x :
  (forall d y, f d y = g d y) -> for_each l f x = for_each l g x.
Proof.
  intros Hfg. revert x. induction l as [|d l IH]; intros x; [reflexivity|].
  cbn [for_each]. rewrite Hfg. destruct (g d x); cbn [bind]; auto.
Qed.

(** ** Sums with rounding *)

Lemma qpow_nonneg q n : (0 <= q)%Q -> (0 <= qpow q n)%Q.
Proof.
  intros Hq. induction n as [|n IH]; simpl; [lra|].
  apply Qmult_le_0_compat; assumption.
Qed.

Lemma qpow_le_1 q n : (0 <= q <= 1)%Q -> (qpow q n <= 1)%Q.
Proof.
  intros Hq. induction n as [|n IH]; simpl; [lra|].
  pose proof (qpow_nonneg q n (proj1 Hq)). nra.
Qed.

Lemma qpow_ge_1 q n : (1 <= q)%Q -> (1 <= qpow q n)%Q.
Proof.
  intros Hq. induction n as [|n IH]; simpl; [lra|]. nra.
Qed.

Lemma qpow_one n : (qpow 1 n == 1)%Q.
Proof. induction n as [|n IH]; simpl; [reflexivity|]. rewrite IH. ring. Qed.

Lemma fold_Qplus_le (f g : nat -> Q) l q0 :
  (forall i, In i l -> (f i <= g i)%Q) ->
  (fold_left Qplus (map f l) q0 <= fold_left Qplus (map g l) q0)%Q.
Proof.
  revert q0. induction l as [|i l IH]; intros q0 H; simpl; [lra|].
  rewrite (fold_Qplus_shift (map f l)), (fold_Qplus_shift (map g l)).
  pose proof (H i (or_introl eq_refl)).
  pose proof (IH 0%Q (fun k Hk => H k (or_intror Hk))). lra.
Qed.

Lemma fold_Qplus_map_scale (f : nat -> Q) l (c : Q) :
  (fold_left Qplus (map (fun i => c * f i) l) 0
   == c * fold_left Qplus (map f l) 0)%Q.
Proof.
  induction l as [|i l IH]; simpl; [ring|].
  rewrite (fold_Qplus_shift (map _ l)), (fold_Qplus_shift (map f l)), IH.
  ring.
Qed.

Section RoundedSums.
Variable rnd : Q -> Q.
Variable u : Q.
Hypothesis Hrnd : rounds rnd u.

Let rnd_compat : forall x y, (x == y -> rnd x == rnd y)%Q := proj1 Hrnd.
Let rnd_mono : forall x y, (0 <= x -> x <= y -> rnd x <= rnd y)%Q :=
  proj1 (proj2 Hrnd).
Let rnd_idem : forall x, (0 <= x -> rnd (rnd x) == rnd x)%Q :=
  proj1 (proj2 (proj2 Hrnd)).
Let rnd_one : (rnd 1 == 1)%Q := proj1 (proj2 (proj2 (proj2 Hrnd))).
Let u_bounds : (0 <= u <= 1)%Q := proj1 (proj2 (proj2 (proj2 (proj2 Hrnd)))).
Let rnd_err : forall x, (0 <= x -> (1 - u) * x <= rnd x <= (1 + u) * x)%Q :=
  proj2 (proj2 (proj2 (proj2 (proj2 Hrnd)))).

Lemma rnd_zero : (rnd 0 == 0)%Q.
Proof. pose proof (rnd_err 0 ltac:(lra)). lra. Qed.

Lemma rnd_nonneg x : (0 <= x)%Q -> (0 <= rnd x)%Q.
Proof.
  intros Hx. pose proof (rnd_err x Hx). destruct u_bounds. nra.
Qed.

Lemma fl_sum_list_fin_from xs acc :
  fold_left (fl_add rnd) (map Fin xs) (Fin acc) = Fin (fl_fold rnd acc xs).
Proof.
  revert acc. induction xs as [|x xs IH]; intros acc; [reflexivity|].
  simpl. apply IH.
Qed.

Lemma fl_sum_list_fin xs :
  fl_sum_list rnd (map Fin xs) = Fin (fl_fold rnd 0 xs).
Proof. apply fl_sum_list_fin_from. Qed.

Lemma fl_fold_compat acc acc' xs :
  (acc == acc')%Q -> (fl_fold rnd acc xs == fl_fold rnd acc' xs)%Q.
Proof.
  revert acc acc'. induction xs as [|x xs IH]; intros acc acc' H; simpl;
    [exact H|].
  apply IH. apply rnd_compat. rewrite H. reflexivity.
Qed.

(** A rounded sum is a rounded number. *)
Lemma fl_fold_rounded acc xs :
  (0 <= acc)%Q -> Forall (fun x => 0 <= x)%Q xs ->
  (rnd acc == acc)%Q ->
  (0 <= fl_fold rnd acc xs)%Q /\ (rnd (fl_fold rnd acc xs) == fl_fold rnd acc xs)%Q.
Proof.
  revert acc. induction xs as [|x xs IH]; intros acc Hacc Hxs Hr; simpl.
  - auto.
  - inversion Hxs; subst. apply IH; [|assumption|].
    + apply rnd_nonneg. lra.
    + apply rnd_idem. lra.
Qed.

(** A rounded sum of numbers that are not negative is not below where it
    starts, nor below a term that is a rounded number. *)
Lemma fl_fold_ge_acc acc xs :
  (0 <= acc)%Q -> Forall (fun x => 0 <= x)%Q xs ->
  (rnd acc == acc)%Q ->
  (acc <= fl_fold rnd acc xs)%Q.
Proof.
  revert acc. induction xs as [|x xs IH]; intros acc Hacc Hxs Hr; simpl;
    [lra|].
  inversion Hxs; subst.
  apply Qle_trans with (rnd (acc + x)).
  - rewrite <- Hr at 1. apply rnd_mono; lra.
  - apply IH; [apply rnd_nonneg; lra|assumption|apply rnd_idem; lra].
Qed.

Lemma fl_fold_ge acc xs x :
  (0 <= acc)%Q -> Forall (fun x => 0 <= x)%Q xs ->
  (rnd acc == acc)%Q ->
  In x xs -> (rnd x == x)%Q ->
  (x <= fl_fold rnd acc xs)%Q.
Proof.
  revert acc. induction xs as [|y xs IH]; intros acc Hacc Hxs Hr Hin Hx;
    [destruct Hin|].
  inversion Hxs; subst. simpl.
  destruct Hin as [->|Hin].
  - apply Qle_trans with (rnd (acc + x)).
    + rewrite <- Hx at 1. apply rnd_mono; lra.
    + apply fl_fold_ge_acc; [apply rnd_nonneg; lra|assumption
                            |apply rnd_idem; lra].
  - apply IH; [apply rnd_nonneg; lra|assumption|apply rnd_idem; lra
              |assumption|assumption].
Qed.

(** The rounded sum against the sum. *)
Lemma fl_fold_bounds acc xs :
  (0 <= acc)%Q -> Forall (fun x => 0 <= x)%Q xs ->
  (qpow (1 - u) (length xs) * (acc + fold_left Qplus xs 0)
   <= fl_fold rnd acc xs
   <= qpow (1 + u) (length xs) * (acc + fold_left Qplus xs 0))%Q.
Proof.
  destruct u_bounds as [Hu0 Hu1].
  revert acc. induction xs as [|x xs IH]; intros acc Hacc Hxs.
  - simpl. lra.
  - inversion Hxs as [|? ? Hx Hxs']; subst.
    cbn [length qpow fold_left]. change (fl_fold rnd acc (x :: xs))
      with (fl_fold rnd (rnd (acc + x)) xs).
    rewrite (fold_Qplus_shift xs (0 + x)).
    pose proof (rnd_err (acc + x) ltac:(lra)) as [He1 He2].
    assert (Ha' : (0 <= rnd (acc + x))%Q) by (apply rnd_nonneg; lra).
    specialize (IH (rnd (acc + x)) Ha' Hxs').
    assert (HS : (0 <= fold_left Qplus xs 0)%Q)
      by (apply fold_Qplus_nonneg; assumption).
    pose proof (qpow_nonneg (1 - u) (length xs) ltac:(lra)) as HP.
    pose proof (qpow_nonneg (1 + u) (length xs) ltac:(lra)) as HQ.
    set (P := qpow (1 - u) (length xs)) in *.
    set (Q' := qpow (1 + u) (length xs)) in *.
    set (S := fold_left Qplus xs 0%Q) in *.
    set (r := rnd (acc + x)) in *.
    destruct IH as [IH1 IH2]. split.
    + apply Qle_trans with (P * (r + S))%Q; [|exact IH1].
      assert ((1 - u) * (acc + (0 + x + S)) <= r + S)%Q by nra.
      nra.
    + apply Qle_trans with (Q' * (r + S))%Q; [exact IH2|].
      assert (r + S <= (1 + u) * (acc + (0 + x + S)))%Q by nra.
      nra.
Qed.

End RoundedSums.

Lemma fl_sum_axis_OK rnd ax a c :
  fl_sum_axis rnd ax a = OK c ->
  exists n,
    shape a !! ax = Some n /\
    shape c = <[ax := 1]> (shape a) /\
    forall idx, in_bounds (shape c) idx ->
      get c idx
      = fl_sum_list rnd (map (fun i => get a (<[ax := i]> idx)) (seq 0 n)).
Proof.
  unfold fl_sum_axis. destruct (nth_error _ _) as [n|] eqn:E; [|discriminate].
  intros [= <-]. exists n. split.
  - clear -E. revert ax E. induction (shape a) as [|m l IH]; intros [|ax] E;
      simpl in *; try discriminate; auto.
  - split; [reflexivity|].
    intros idx Hb. simpl in Hb. rewrite get_build by assumption. reflexivity.
Qed.

Section RoundedStrategies.
Variable rnd : Q -> Q.
Variable u : Q.
Hypothesis Hrnd : rounds rnd u.
Variable cfg : Settings.

(** Regret matching on one layer, with rounding. *)
Lemma current_strategies_layer_fl_ok eps L L' A sh :
  (0 < eps)%Q -> (eps <= max_number cfg)%Q -> (rnd eps == eps)%Q ->
  shape (regrets_data L) = A :: sh ->
  shape (empty_action_mask L) = A :: sh ->
  shape (current_strategy_data L) = A :: sh ->
  fin_arr (regrets_data L) ->
  binary (empty_action_mask L) ->
  current_strategies_layer_fl rnd cfg eps L = OK L' ->
  regrets_data L' = regrets_data L /\
  empty_action_mask L' = empty_action_mask L /\
  shape (current_strategy_data L') = A :: sh /\
  forall j, in_bounds sh j ->
    (exists a, a < A /\ get (empty_action_mask L) (a :: j) = one) ->
    (exists S, get (regrets_sum L') (0 :: j) = Fin S /\ (eps <= S)%Q) /\
    (forall a, a < A ->
       exists q, get (current_strategy_data L') (a :: j) = Fin q /\
                 (0 <= q <= 1)%Q /\
                 (get (empty_action_mask L) (a :: j) = zero -> q == 0)%Q) /\
    exists T, sum_list (column (current_strategy_data L') A j) = Fin T /\
              (1 - u <= T * qpow (1 + u) A)%Q /\
              (T * qpow (1 - u) A <= 1 + u)%Q.
Proof.
  intros Heps Hmax Hreps Hsr Hsm Hsc Hfin Hbin H.
  destruct Hrnd as (rnd_compat & rnd_mono & rnd_idem & rnd_one & [Hu0 Hu1]
                    & rnd_err).
  pose proof (rnd_zero rnd u Hrnd) as rnd_0.
  unfold current_strategies_layer_fl in H. cbv zeta in H.
  cbn [positive_regrets_data set_positive_regrets_data regrets_sum
       set_regrets_sum empty_action_mask current_strategy_data] in H.
  repeat run_step. cbn.
  rename x into pr, x0 into rs, x1 into den, x2 into cs.
  apply iop_OK in E as (Hspr & _ & Hpr). simpl in Hspr, Hpr.
  apply fl_sum_axis_OK in E0 as (n & Hn & Hsrs & Hrs).
  rewrite Hspr, Hsr in Hn. injection Hn as <-.
  rewrite Hspr, Hsr in Hsrs. simpl in Hsrs.
  apply binop_OK in E1 as (Hsden & Hden).
  rewrite Hsrs in Hsden. simpl in Hsden. rewrite Hsc in Hsden.
  rewrite (bshape_cons 1 A A sh (bdim_1_l A)) in Hsden.
  injection Hsden as Hsden.
  apply binop_OK in E2 as (Hscs & Hcs).
  rewrite Hspr, Hsr, <- Hsden in Hscs.
  rewrite (bshape_cons A A A sh (bdim_same A)) in Hscs.
  injection Hscs as Hscs.
  split; [reflexivity|]. split; [reflexivity|]. split; [congruence|].
  intros j Hj (a0 & Ha0 & Hm0).
  (* the positive regrets of the state [j]: rounded numbers *)
  pose (x := fun i => match get pr (i :: j) with Fin q => q | _ => 0%Q end).
  assert (Hx : forall i, i < A ->
             get pr (i :: j) = Fin (x i) /\ (0 <= x i)%Q /\
             (rnd (x i) == x i)%Q /\
             (get (empty_action_mask L) (i :: j) = one -> (eps <= x i)%Q) /\
             (get (empty_action_mask L) (i :: j) = zero -> (x i == 0)%Q)).
  { intros i Hi. unfold x.
    assert (Hb : in_bounds (A :: sh) (i :: j)) by (apply in_bounds_cons; auto).
    rewrite Hsr in Hpr. rewrite (Hpr _ Hb).
    rewrite get_amap by (rewrite Hsr; exact Hb).
    rewrite Hsm, (bidx_same _ _ Hb).
    destruct (clip_fin_bounds eps (max_number cfg) (get (regrets_data L) (i :: j)))
      as (c & -> & Hc1 & Hc2); [apply fin_arr_get; assumption|assumption|].
    destruct (binary_get _ (i :: j) Hbin) as [-> | ->];
      cbn [fl_mul mul round zero one].
    - assert (E0 : (rnd (c * 0) == 0)%Q)
        by (rewrite (rnd_compat (c * 0)%Q 0%Q) by ring; exact rnd_0).
      split; [reflexivity|]. split; [lra|]. split.
      + rewrite (rnd_compat _ _ E0). rewrite rnd_0. symmetry. exact E0.
      + split; [discriminate|]. intros _. exact E0.
    - assert (Hc0 : (0 <= c * 1)%Q) by lra.
      assert (Hge : (eps <= rnd (c * 1))%Q).
      { rewrite <- Hreps. apply rnd_mono; lra. }
      split; [reflexivity|]. split; [lra|]. split; [apply rnd_idem; lra|].
      split; [intros _; exact Hge|discriminate]. }
  set (xs := map x (seq 0 A)).
  assert (Hxs : Forall (fun q => 0 <= q)%Q xs).
  { apply List.Forall_forall. intros q Hq. apply in_map_iff in Hq as (i & <- & Hi).
    apply in_seq in Hi. apply Hx. lia. }
  set (S := fl_fold rnd 0 xs).
  assert (Hrsj : get rs (0 :: j) = Fin S).
  { rewrite Hrs by (rewrite Hsrs; apply in_bounds_cons; split; [lia|assumption]).
    simpl. rewrite (map_seq_fin _ x) by (intros i Hi; apply Hx; exact Hi).
    apply fl_sum_list_fin. }
  assert (Hxle : forall i, i < A -> (x i <= S)%Q).
  { intros i Hi. apply (fl_fold_ge rnd u Hrnd); [lra|exact Hxs|exact rnd_0| |].
    - apply in_map. apply in_seq. lia.
    - apply Hx. exact Hi. }
  assert (HS : (eps <= S)%Q).
  { apply Qle_trans with (x a0); [apply Hx; assumption|apply Hxle; exact Ha0]. }
  destruct (fl_fold_rounded rnd u Hrnd 0 xs ltac:(lra) Hxs rnd_0) as [_ HSr].
  fold S in HSr.
  (* the denominator *)
  set (D := rnd (S * 1)).
  assert (HD : (D == S)%Q).
  { unfold D. rewrite (rnd_compat (S * 1)%Q S) by ring. exact HSr. }
  assert (Hcsa : forall i, i < A ->
             get cs (i :: j) = Fin (rnd (x i / D))).
  { intros i Hi.
    assert (Hb : in_bounds (A :: sh) (i :: j)) by (apply in_bounds_cons; auto).
    rewrite Hcs by (rewrite <- Hscs; exact Hb).
    rewrite Hspr, Hsr, <- Hsden, (bidx_same _ _ Hb).
    rewrite Hden by (rewrite <- Hsden; exact Hb).
    unfold ones_like. cbn [shape full].
    rewrite Hsrs, (bidx_cons_1 _ _ _ Hj), Hsc, (bidx_same _ _ Hb).
    rewrite Hrsj. rewrite get_full by exact Hb.
    destruct (Hx i Hi) as (-> & _). unfold fl_div, fl_mul.
    cbn [mul round one]. fold D. cbn [div].
    unfold Qzerob. destruct (Qeq_bool D 0) eqn:E; [|reflexivity].
    apply Qeq_bool_iff in E. lra. }
  assert (Hdiv : forall i, i < A -> (0 <= x i / D <= 1)%Q).
  { intros i Hi. destruct (Hx i Hi) as (_ & Hnn & _).
    pose proof (Hxle i Hi). split.
    - apply Qle_shift_div_l; lra.
    - apply Qle_shift_div_r; lra. }
  split; [exists S; split; [exact Hrsj | exact HS]|]. split.
  - intros a Ha. exists (rnd (x a / D)). split; [apply Hcsa; exact Ha|].
    destruct (Hdiv a Ha) as [Hd0 Hd1].
    destruct (Hx a Ha) as (_ & Hnn & _ & _ & Hz). split; [split|].
    + rewrite <- rnd_0. apply rnd_mono; lra.
    + rewrite <- rnd_one. apply rnd_mono; lra.
    + intros Hm. rewrite (rnd_compat (x a / D)%Q 0%Q); [exact rnd_0|].
      rewrite (Hz Hm). unfold Qdiv. ring.
  - exists (fold_left Qplus (map (fun i => rnd (x i / D)) (seq 0 A)) 0%Q).
    split.
    { unfold column.
      rewrite (map_seq_fin _ (fun i => rnd (x i / D))) by exact Hcsa.
      apply sum_list_fin. }
    set (T := fold_left Qplus (map (fun i => rnd (x i / D)) (seq 0 A)) 0%Q).
    set (X := fold_left Qplus xs 0%Q).
    (* the sum of the rounded quotients against the quotient of the sum *)
    assert (HT1 : ((1 - u) * (X / D) <= T)%Q).
    { unfold T, X, xs.
      apply Qle_trans
        with (fold_left Qplus (map (fun i => (1 - u) * / D * x i)%Q (seq 0 A))
                        0%Q).
      - rewrite fold_Qplus_map_scale. unfold Qdiv.
        apply Qle_lteq. right. ring.
      - apply fold_Qplus_le. intros i Hi. apply in_seq in Hi.
        destruct (Hdiv i ltac:(lia)) as [Hd0 _].
        pose proof (rnd_err _ Hd0) as [He _].
        unfold Qdiv in *. lra. }
    assert (HT2 : (T <= (1 + u) * (X / D))%Q).
    { unfold T, X, xs.
      apply Qle_trans
        with (fold_left Qplus (map (fun i => (1 + u) * / D * x i)%Q (seq 0 A))
                        0%Q).
      - apply fold_Qplus_le. intros i Hi. apply in_seq in Hi.
        destruct (Hdiv i ltac:(lia)) as [Hd0 _].
        pose proof (rnd_err _ Hd0) as [_ He].
        unfold Qdiv in *. lra.
      - rewrite fold_Qplus_map_scale. unfold Qdiv.
        apply Qle_lteq. right. ring. }
    (* the rounded sum against the sum *)
    pose proof (fl_fold_bounds rnd u Hrnd 0 xs ltac:(lra) Hxs) as [HS1 HS2].
    fold S X in HS1, HS2.
    assert (Hlen : length xs = A) by (unfold xs; rewrite length_map, length_seq;
                                      reflexivity).
    rewrite Hlen in HS1, HS2.
    assert (HX : (0 <= X)%Q) by (apply fold_Qplus_nonneg; exact Hxs).
    pose proof (qpow_nonneg (1 - u) A ltac:(lra)) as HP.
    pose proof (qpow_ge_1 (1 + u) A ltac:(lra)) as HQ.
    set (P := qpow (1 - u) A) in *. set (Q' := qpow (1 + u) A) in *.
    assert (HDpos : (0 < D)%Q) by lra.
    assert (HXD : (X / D * D == X)%Q) by (field; lra).
    set (R := (X / D)%Q) in *.
    assert (HR : (0 <= R)%Q) by (unfold R; apply Qle_shift_div_l; lra).
    assert (HQD : (0 <= Q' * D)%Q) by nra.
    assert (HPD : (0 <= P * D)%Q) by nra.
    split.
    + (* (1 - u) D <= (1 - u) Q' X = (1 - u) Q' R D <= T Q' D *)
      apply Qmult_le_r with D; [exact HDpos|].
      assert (H1 : ((1 - u) * D <= (1 - u) * (Q' * (0 + X)))%Q) by nra.
      pose proof (Qmult_le_compat_r _ _ (Q' * D) HT1 HQD) as H2.
      rewrite <- HXD in H1.
      apply Qle_trans with ((1 - u) * R * (Q' * D))%Q; [|lra].
      apply Qle_trans with ((1 - u) * (Q' * (0 + R * D)))%Q; [exact H1|].
      apply Qle_lteq. right. ring.
    + apply Qmult_le_r with D; [exact HDpos|].
      pose proof (Qmult_le_compat_r _ _ (P * D) HT2 HPD) as H2.
      assert (H1 : ((1 + u) * (P * (0 + X)) <= (1 + u) * D)%Q) by nra.
      rewrite <- HXD in H1.
      apply Qle_trans with ((1 + u) * R * (P * D))%Q; [lra|].
      apply Qle_trans with ((1 + u) * (P * (0 + R * D)))%Q; [|exact H1].
      apply Qle_lteq. right. ring.
Qed.

End RoundedStrategies.

(** A loop that assigns [f L] to the layers [l], one after the other. *)
Lemma layers_loop {G} (f : Layer -> result Layer) (ready ok : Layer -> Prop)
      (l0 l : list Z) (s s' : Lookahead G) :
  (forall L L', ready L -> f L = OK L' -> ready L' /\ ok L') ->
  (forall d, In d l -> In d l0) ->
  (forall d L, In d l0 -> layer s d = OK L -> ready L) ->
  for_each l (fun d => modify_layer d f) s = OK s' ->
  (forall d L, In d l0 -> layer s' d = OK L -> ready L) /\
  (forall d L, In d l -> layer s' d = OK L -> ok L).
Proof.
  intros Hstep. revert s.
  assert (Hgen : forall s,
    (forall d, In d l -> In d l0) ->
    (forall d L, In d l0 -> layer s d = OK L -> ready L) ->
    for_each l (fun d => modify_layer d f) s = OK s' ->
    (forall d L, In d l0 -> layer s' d = OK L -> ready L) /\
    (forall d L, In d l \/ (forall L0, layer s d = OK L0 -> ok L0) ->
                 layer s' d = OK L -> ok L)).
  { induction l as [|d0 l IH]; intros s Hsub Hready H; simpl in H.
    - injection H as <-. split; [exact Hready|].
      intros d L [[]|Hd] HL. apply Hd. exact HL.
    - run_step. rename x into s1.
      apply modify_layer_OK in E as (k & L0 & L0' & Hk & HL0 & Hf & ->).
      assert (Hr0 : ready L0).
      { apply (Hready d0); [apply Hsub; left; reflexivity|].
        unfold layer. rewrite Hk. simpl. rewrite HL0. reflexivity. }
      destruct (Hstep _ _ Hr0 Hf) as [Hr0' Hok0'].
      assert (Hlay : forall d L,
                layer (set_layers (<[k:=L0']> (layers s)) s) d = OK L ->
                L = L0' \/ layer s d = OK L).
      { intros d L HL. apply layer_OK in HL as (k1 & Hk1 & HL1).
        cbn in Hk1, HL1. rewrite length_insert in Hk1.
        destruct (decide (k = k1)) as [<-|Hne].
        - rewrite list_lookup_insert_eq in HL1
            by (apply lookup_lt_Some in HL0; exact HL0).
          left. congruence.
        - rewrite list_lookup_insert_ne in HL1 by assumption.
          right. unfold layer. rewrite Hk1. simpl. rewrite HL1. reflexivity. }
      assert (Hready1 : forall d L, In d l0 ->
                layer (set_layers (<[k:=L0']> (layers s)) s) d = OK L ->
                ready L).
      { intros d L Hd HL. destruct (Hlay _ _ HL) as [->|HL']; eauto. }
      destruct (IH _ (fun d Hd => Hsub d (or_intror Hd)) Hready1 H)
        as [Hready' Hok'].
      split; [exact Hready'|].
      intros d L Hd HL. apply (Hok' d L); [|exact HL].
      destruct Hd as [[<-|Hd]|Hd].
      + right. intros L1 HL1.
        apply layer_OK in HL1 as (k1 & Hk1 & HL1). cbn in Hk1, HL1.
        rewrite length_insert in Hk1. rewrite Hk in Hk1. injection Hk1 as <-.
        rewrite list_lookup_insert_eq in HL1
          by (apply lookup_lt_Some in HL0; exact HL0).
        congruence.
      + left. exact Hd.
      + right. intros L1 HL1. destruct (Hlay _ _ HL1) as [->|HL1']; auto. }
  intros s Hsub Hready H. destruct (Hgen s Hsub Hready H) as [H1 H2].
  split; [exact H1|]. intros d L Hd. apply H2. left. exact Hd.
Qed.

(** ** The phase of the model is the phase without rounding *)

Lemma round_id x : round (fun q => q) x = x.
Proof. destruct x; reflexivity. Qed.

Lemma build_ext sh (f g : list nat -> num) :
  (forall idx, f idx = g idx) -> build sh f = build sh g.
Proof.
  intros H. unfold build. f_equal. apply map_ext. intros k. apply H.
Qed.

Lemma iop_ext (f g : num -> num -> num) a b :
  (forall x y, f x y = g x y) -> iop f a b = iop g a b.
Proof.
  intros H. unfold iop. destruct (bshape _ _); [|reflexivity].
  destruct (decide _); [|reflexivity]. f_equal. apply build_ext.
  intros idx. apply H.
Qed.

Lemma binop_ext (f g : num -> num -> num) a b :
  (forall x y, f x y = g x y) -> binop f a b = binop g a b.
Proof.
  intros H. unfold binop. destruct (bshape _ _); [|reflexivity].
  f_equal. apply build_ext. intros idx. apply H.
Qed.

Lemma fl_sum_list_id l : fl_sum_list (fun q => q) l = sum_list l.
Proof.
  unfold fl_sum_list, sum_list. generalize zero.
  induction l as [|x l IH]; intros acc; [reflexivity|].
  simpl. unfold fl_add at 2. rewrite round_id. apply IH.
Qed.

Lemma fl_sum_axis_id ax a : fl_sum_axis (fun q => q) ax a = sum_axis ax a.
Proof.
  unfold fl_sum_axis, sum_axis. destruct (nth_error _ _); [|reflexivity].
  f_equal. apply build_ext. intros idx. apply fl_sum_list_id.
Qed.

Lemma current_strategies_layer_exact cfg eps L :
  current_strategies_layer_fl (fun q => q) cfg eps L
  = current_strategies_layer cfg eps L.
Proof.
  unfold current_strategies_layer_fl, current_strategies_layer. cbv zeta.
  rewrite (iop_ext (fl_mul (fun q => q)) mul)
    by (intros; apply round_id).
  destruct (iop mul _ _) as [pr|]; cbn [bind]; [|reflexivity].
  rewrite fl_sum_axis_id.
  destruct (sum_axis 0 _) as [rs|]; cbn [bind]; [|reflexivity].
  rewrite (binop_ext (fl_mul (fun q => q)) mul)
    by (intros; apply round_id).
  destruct (binop mul _ _) as [den|]; cbn [bind]; [|reflexivity].
  rewrite (binop_ext (fl_div (fun q => q)) div)
    by (intros; apply round_id).
  reflexivity.
Qed.

Lemma modify_layer_ext {G} d (f g : Layer -> result Layer) (s : Lookahead G) :
  (forall L, f L = g L) -> modify_layer d f s = modify_layer d g s.
Proof.
  intros H. unfold modify_layer.
  destruct (py_index _ _) as [k|]; cbn [bind]; [|reflexivity].
  destruct (of_option _ _) as [L|]; cbn [bind]; [|reflexivity].
  rewrite H. reflexivity.
Qed.

Lemma compute_current_strategies_exact {G} cfg (s : Lookahead G) :
  _compute_current_strategies_fl (fun q => q) cfg s
  = _compute_current_strategies cfg s.
Proof.
  unfold _compute_current_strategies_fl, _compute_current_strategies.
  cbv zeta. apply for_each_ext. intros d y. apply modify_layer_ext.
  intros L. apply current_strategies_layer_exact.
Qed.

Lemma rounds_exact : rounds (fun q => q) 0.
Proof.
  repeat split; intros; try assumption; try reflexivity; lra.
Qed.

(** ** The rounding to the nearest float is a rounding *)

Lemma pow2_pos (z : Z) : (0 < 2 ^ z)%Q.
Proof. apply Qpower_0_lt. reflexivity. Qed.

Lemma pow2_inject (k : Z) : (0 <= k)%Z -> (inject_Z (2 ^ k) == 2 ^ k)%Q.
Proof. intros Hk. rewrite Zpower_Qpower by exact Hk. reflexivity. Qed.

Lemma pow2_succ (z : Z) : (2 ^ (z + 1) == 2 * 2 ^ z)%Q.
Proof. rewrite Qpower_plus by discriminate. rewrite Qpower_1_r. ring. Qed.

Lemma pow2_pred (z : Z) : (2 ^ (z - 1) == 2 ^ z / 2)%Q.
Proof.
  rewrite Qpower_minus by discriminate. rewrite Qpower_1_r. reflexivity.
Qed.

Lemma pow2_le (a b : Z) : (a <= b)%Z -> (2 ^ a <= 2 ^ b)%Q.
Proof. intros H. apply Qpower_le_compat_l; [exact H|]. discriminate. Qed.

Lemma pow2_lt_inv (a b : Z) : (2 ^ a < 2 ^ b)%Q -> (a < b)%Z.
Proof.
  intros H. destruct (Z.lt_ge_cases a b) as [|Hge]; [assumption|].
  apply pow2_le in Hge. lra.
Qed.

(** The exponent of a positive number. *)
Lemma exponent_spec x :
  (0 < x)%Q -> (2 ^ exponent x <= x < 2 ^ (exponent x + 1))%Q.
Proof.
  intros Hx. unfold exponent. cbv zeta.
  destruct x as [n d]. unfold Qlt in Hx. simpl in Hx. rewrite Z.mul_1_r in Hx.
  cbn [Qnum Qden].
  set (la := Z.log2 n). set (ld := Z.log2 (Z.pos d)).
  pose proof (Z.log2_spec n Hx) as [Ha1 Ha2].
  pose proof (Z.log2_spec (Z.pos d) ltac:(lia)) as [Hd1 Hd2].
  fold la in Ha1, Ha2. fold ld in Hd1, Hd2.
  pose proof (Z.log2_nonneg n) as Hla. pose proof (Z.log2_nonneg (Z.pos d)) as Hld.
  fold la in Hla. fold ld in Hld.
  assert (Qa1 : (2 ^ la <= inject_Z n)%Q)
    by (rewrite <- pow2_inject by lia; rewrite <- Zle_Qle; exact Ha1).
  assert (Qa2 : (inject_Z n < 2 ^ (la + 1))%Q)
    by (rewrite <- pow2_inject by lia; rewrite <- Zlt_Qlt; exact Ha2).
  assert (Qd1 : (2 ^ ld <= inject_Z (Z.pos d))%Q)
    by (rewrite <- pow2_inject by lia; rewrite <- Zle_Qle; exact Hd1).
  assert (Qd2 : (inject_Z (Z.pos d) < 2 ^ (ld + 1))%Q)
    by (rewrite <- pow2_inject by lia; rewrite <- Zlt_Qlt; exact Hd2).
  assert (Hx' : (n # d == inject_Z n / inject_Z (Z.pos d))%Q)
    by apply Qmake_Qdiv.
  assert (Hdpos : (0 < inject_Z (Z.pos d))%Q)
    by (rewrite <- (Zlt_Qlt 0); lia).
  pose proof (pow2_pos la). pose proof (pow2_pos ld).
  assert (E1 : (2 ^ (la - ld) == 2 ^ la / 2 ^ ld)%Q)
    by (apply Qpower_minus; discriminate).
  rewrite pow2_succ in Qa2, Qd2.
  set (X := (n # d)%Q) in *. set (N := inject_Z n) in *.
  set (D := inject_Z (Z.pos d)) in *.
  set (A := (2 ^ la)%Q) in *. set (B := (2 ^ ld)%Q) in *.
  assert (HXD : (X * D == N)%Q) by (rewrite Hx'; field; lra).
  assert (Hup : (X < 2 * (A / B))%Q).
  { apply Qmult_lt_r with (D * B)%Q; [nra|].
    assert (E2 : (2 * (A / B) * (D * B) == 2 * A * D)%Q) by (field; lra).
    assert (E3 : (X * (D * B) == N * B)%Q) by (rewrite <- HXD; ring).
    rewrite E2, E3. nra. }
  assert (Hlow : (A / B / 2 < X)%Q).
  { apply Qmult_lt_r with (D * B * 2)%Q; [nra|].
    assert (E2 : (A / B / 2 * (D * B * 2) == A * D)%Q) by (field; lra).
    assert (E3 : (X * (D * B * 2) == N * (2 * B))%Q) by (rewrite <- HXD; ring).
    rewrite E2, E3. nra. }
  destruct (Qle_bool (2 ^ (la - ld)) X) eqn:E.
  - apply Qle_bool_iff in E. split; [exact E|].
    rewrite pow2_succ, E1. exact Hup.
  - assert (Hlt : (X < 2 ^ (la - ld))%Q).
    { apply Qnot_le_lt. intros Hle. apply Qle_bool_iff in Hle. congruence. }
    replace (la - ld - 1 + 1)%Z with (la - ld)%Z by lia.
    split; [|exact Hlt]. rewrite pow2_pred, E1. lra.
Qed.

Lemma exponent_unique x e :
  (0 < x)%Q -> (2 ^ e <= x < 2 ^ (e + 1))%Q -> exponent x = e.
Proof.
  intros Hx [H1 H2]. destruct (exponent_spec x Hx) as [H3 H4].
  assert ((e < exponent x + 1)%Z) by (apply pow2_lt_inv; lra).
  assert ((exponent x < e + 1)%Z) by (apply pow2_lt_inv; lra).
  lia.
Qed.

Lemma exponent_compat x y : (0 < x)%Q -> (x == y)%Q -> exponent x = exponent y.
Proof.
  intros Hx Hxy. symmetry. apply exponent_unique; [lra|].
  rewrite <- Hxy. apply exponent_spec. exact Hx.
Qed.

(** The nearest integer. *)
Lemma nearest_even_spec n d :
  (0 < d)%Z ->
  (- d <= 2 * (nearest_even n d * d - n) <= d)%Z.
Proof.
  intros Hd. unfold nearest_even. cbv zeta.
  pose proof (Z.div_mod n d ltac:(lia)) as Hn.
  pose proof (Z.mod_pos_bound n d Hd) as Hr.
  destruct (Z.compare_spec (2 * (n mod d)) d) as [E|E|E].
  - destruct (Z.even (n / d)); nia.
  - nia.
  - nia.
Qed.

Lemma rne_spec y :
  (inject_Z (rne y) - (1 # 2) <= y <= inject_Z (rne y) + (1 # 2))%Q.
Proof.
  unfold rne. cbv zeta. pose proof (Qred_correct y) as Hy.
  destruct (Qred y) as [n d]. cbn [Qnum Qden].
  pose proof (nearest_even_spec n (Z.pos d) ltac:(lia)) as [H1 H2].
  set (m := nearest_even n (Z.pos d)) in *.
  assert (H : (inject_Z m - (1 # 2) <= n # d <= inject_Z m + (1 # 2))%Q).
  { unfold Qle, Qminus, Qplus, Qopp, inject_Z. cbn [Qnum Qden].
    split; nia. }
  rewrite Hy in H. exact H.
Qed.

Lemma rne_compat y y' : (y == y')%Q -> rne y = rne y'.
Proof. intros H. unfold rne. rewrite (Qred_complete _ _ H). reflexivity. Qed.

Lemma rne_int y k : (y == inject_Z k)%Q -> rne y = k.
Proof.
  intros H. pose proof (rne_spec y) as [H1 H2].
  assert (H3 : (inject_Z (rne y) < inject_Z k + 1)%Q) by lra.
  assert (H4 : (inject_Z k < inject_Z (rne y) + 1)%Q) by lra.
  change 1%Q with (inject_Z 1) in H3, H4.
  rewrite <- inject_Z_plus, <- Zlt_Qlt in H3, H4. lia.
Qed.

Lemma rne_mono y y' : (y <= y')%Q -> (rne y <= rne y')%Z.
Proof.
  intros H. destruct (Z.le_gt_cases (rne y) (rne y')) as [|Hgt]; [assumption|].
  pose proof (rne_spec y) as [H1 _]. pose proof (rne_spec y') as [_ H2].
  assert (H3 : (inject_Z (rne y') + 1 <= inject_Z (rne y))%Q).
  { change 1%Q with (inject_Z 1). rewrite <- inject_Z_plus, <- Zle_Qle. lia. }
  assert (E : (y == y')%Q) by lra.
  rewrite (rne_compat _ _ E) in Hgt. lia.
Qed.

Lemma pow2_add (a b : Z) : (2 ^ (a + b) == 2 ^ a * 2 ^ b)%Q.
Proof. apply Qpower_plus. discriminate. Qed.

Lemma pow2_cancel (s : Z) : (2 ^ s * 2 ^ (- s) == 1)%Q.
Proof. rewrite <- pow2_add. replace (s + - s)%Z with 0%Z by lia. reflexivity. Qed.

Section RoundPos.
Variable p : Z.
Hypothesis Hp : (1 <= p)%Z.

(** The mantissa of a positive number, before it is rounded. *)
Lemma scaled_bounds x :
  (0 < x)%Q ->
  (2 ^ (p - 1) <= x * 2 ^ (p - 1 - exponent x) < 2 ^ p)%Q.
Proof.
  intros Hx. destruct (exponent_spec x Hx) as [H1 H2].
  set (e := exponent x) in *.
  pose proof (pow2_pos (p - 1 - e)) as Hs.
  assert (E1 : (2 ^ (p - 1) == 2 ^ e * 2 ^ (p - 1 - e))%Q).
  { rewrite <- pow2_add. replace (e + (p - 1 - e))%Z with (p - 1)%Z by lia.
    reflexivity. }
  assert (E2 : (2 ^ p == 2 ^ (e + 1) * 2 ^ (p - 1 - e))%Q).
  { rewrite <- pow2_add. replace (e + 1 + (p - 1 - e))%Z with p by lia.
    reflexivity. }
  rewrite E1, E2. split.
  - apply Qmult_le_compat_r; lra.
  - apply Qmult_lt_compat_r; lra.
Qed.

Lemma mantissa_bounds x :
  (0 < x)%Q ->
  (2 ^ (p - 1) <= rne (x * 2 ^ (p - 1 - exponent x)) <= 2 ^ p)%Z.
Proof.
  intros Hx. destruct (scaled_bounds x Hx) as [H1 H2].
  pose proof (pow2_inject (p - 1) ltac:(lia)) as E1.
  pose proof (pow2_inject p ltac:(lia)) as E2.
  pose proof (rne_int (inject_Z (2 ^ (p - 1))) _ ltac:(reflexivity)) as R1.
  pose proof (rne_int (inject_Z (2 ^ p)) _ ltac:(reflexivity)) as R2.
  split.
  - apply Z.le_trans with (rne (inject_Z (2 ^ (p - 1)))); [lia|].
    apply rne_mono. lra.
  - apply Z.le_trans with (rne (inject_Z (2 ^ p))); [|lia].
    apply rne_mono. lra.
Qed.

Lemma round_pos_bounds x :
  (0 < x)%Q ->
  (2 ^ exponent x <= round_pos p x <= 2 ^ (exponent x + 1))%Q.
Proof.
  intros Hx. destruct (mantissa_bounds x Hx) as [H1 H2].
  unfold round_pos. cbv zeta.
  set (e := exponent x) in *. set (s := (p - 1 - e)%Z) in *.
  set (m := rne (x * 2 ^ s)) in *.
  rewrite Zle_Qle in H1, H2.
  pose proof (pow2_inject (p - 1) ltac:(lia)) as I1.
  pose proof (pow2_inject p ltac:(lia)) as I2.
  pose proof (pow2_pos (- s)) as Hs.
  assert (E1 : (2 ^ e == 2 ^ (p - 1) * 2 ^ (- s))%Q).
  { rewrite <- pow2_add. replace (p - 1 + - s)%Z with e by lia. reflexivity. }
  assert (E2 : (2 ^ (e + 1) == 2 ^ p * 2 ^ (- s))%Q).
  { rewrite <- pow2_add. replace (p + - s)%Z with (e + 1)%Z by lia.
    reflexivity. }
  rewrite E1, E2. split; apply Qmult_le_compat_r; lra.
Qed.

Lemma round_pos_pos x : (0 < x)%Q -> (0 < round_pos p x)%Q.
Proof.
  intros Hx. destruct (round_pos_bounds x Hx) as [H _].
  pose proof (pow2_pos (exponent x)). lra.
Qed.

(** The relative error of the rounding. *)
Lemma round_pos_err x :
  (0 < x)%Q ->
  ((1 - 2 ^ (- p)) * x <= round_pos p x <= (1 + 2 ^ (- p)) * x)%Q.
Proof.
  intros Hx. destruct (exponent_spec x Hx) as [He _].
  unfold round_pos. cbv zeta.
  set (e := exponent x) in *. set (s := (p - 1 - e)%Z) in *.
  pose proof (rne_spec (x * 2 ^ s)) as [H1 H2].
  set (m := inject_Z (rne (x * 2 ^ s))) in *.
  pose proof (pow2_pos (- s)) as Hs. pose proof (pow2_pos s) as Hs'.
  pose proof (pow2_cancel s) as Hc.
  (* half a unit of the last place is at most [x * 2 ^ (- p)] *)
  assert (Hulp : (2 ^ (- s) * (1 # 2) <= 2 ^ (- p) * x)%Q).
  { assert (E : (2 ^ (- s) * (1 # 2) == 2 ^ (- p) * 2 ^ e)%Q).
    { rewrite <- pow2_add. replace (- p + e)%Z with (- s - 1)%Z by lia.
      rewrite pow2_pred. field. }
    rewrite E. pose proof (pow2_pos (- p)). nra. }
  set (a := (2 ^ (- s))%Q) in *. set (b := (2 ^ s)%Q) in *.
  set (v := (2 ^ (- p))%Q) in *.
  assert (Hx1 : (x == x * b * a)%Q) by (rewrite <- Qmult_assoc, Hc; ring).
  split.
  - assert ((x * b - (1 # 2)) * a <= m * a)%Q by nra. nra.
  - assert (m * a <= (x * b + (1 # 2)) * a)%Q by nra. nra.
Qed.

Lemma round_pos_compat x y :
  (0 < x)%Q -> (x == y)%Q -> round_pos p x = round_pos p y.
Proof.
  intros Hx Hxy. unfold round_pos. cbv zeta.
  rewrite (exponent_compat x y Hx Hxy).
  rewrite (rne_compat (x * _) (y * 2 ^ (p - 1 - exponent y))); [reflexivity|].
  rewrite Hxy. reflexivity.
Qed.

Lemma exponent_mono x y :
  (0 < x)%Q -> (x <= y)%Q -> (exponent x <= exponent y)%Z.
Proof.
  intros Hx Hxy. destruct (exponent_spec x Hx) as [H1 _].
  destruct (exponent_spec y ltac:(lra)) as [_ H2].
  assert ((exponent x < exponent y + 1)%Z) by (apply pow2_lt_inv; lra).
  lia.
Qed.

Lemma round_pos_mono x y :
  (0 < x)%Q -> (x <= y)%Q -> (round_pos p x <= round_pos p y)%Q.
Proof.
  intros Hx Hxy. assert (Hy : (0 < y)%Q) by lra.
  pose proof (exponent_mono x y Hx Hxy) as He.
  destruct (Z.eq_dec (exponent x) (exponent y)) as [E|Hne].
  - unfold round_pos. cbv zeta. rewrite E.
    set (s := (p - 1 - exponent y)%Z).
    pose proof (pow2_pos s). pose proof (pow2_pos (- s)).
    apply Qmult_le_compat_r; [|lra].
    rewrite <- Zle_Qle. apply rne_mono.
    apply Qmult_le_compat_r; lra.
  - destruct (round_pos_bounds x Hx) as [_ H1].
    destruct (round_pos_bounds y Hy) as [H2 _].
    assert (H3 : (2 ^ (exponent x + 1) <= 2 ^ exponent y)%Q)
      by (apply pow2_le; lia).
    lra.
Qed.

(** A rounded number is left as it is. *)
Lemma round_pos_idem x :
  (0 < x)%Q -> (round_pos p (round_pos p x) == round_pos p x)%Q.
Proof.
  intros Hx. pose proof (round_pos_pos x Hx) as Hz.
  destruct (round_pos_bounds x Hx) as [Hz1 Hz2].
  destruct (mantissa_bounds x Hx) as [Hm1 Hm2].
  set (e := exponent x) in *. set (s := (p - 1 - e)%Z) in *.
  assert (Ez : (round_pos p x == inject_Z (rne (x * 2 ^ s)) * 2 ^ (- s))%Q)
    by reflexivity.
  set (m := rne (x * 2 ^ s)) in *. set (z := round_pos p x) in *.
  pose proof (pow2_pos (- s)) as Hs. pose proof (pow2_cancel s) as Hc.
  destruct (Z.eq_dec m (2 ^ p)) as [Em|Hne].
  - (* the mantissa was rounded up to the next power of two *)
    assert (Ez' : (z == 2 ^ (e + 1))%Q).
    { rewrite Ez, Em, pow2_inject by lia. rewrite <- pow2_add.
      replace (p + - s)%Z with (e + 1)%Z by lia. reflexivity. }
    assert (Ee : exponent z = (e + 1)%Z).
    { apply exponent_unique; [exact Hz|]. rewrite Ez'. split; [lra|].
      rewrite (pow2_succ (e + 1)). pose proof (pow2_pos (e + 1)). lra. }
    unfold round_pos at 1. cbv zeta. rewrite Ee.
    replace (p - 1 - (e + 1))%Z with (s - 1)%Z by lia.
    rewrite (rne_int _ (2 ^ (p - 1))).
    + rewrite pow2_inject by lia. rewrite <- pow2_add, Ez'.
      replace (p - 1 + - (s - 1))%Z with (e + 1)%Z by lia. reflexivity.
    + rewrite pow2_inject by lia. rewrite Ez', <- pow2_add.
      replace (e + 1 + (s - 1))%Z with (p - 1)%Z by lia. reflexivity.
  - assert (Hlt : (z < 2 ^ (e + 1))%Q).
    { assert (Hm : (inject_Z m + 1 <= inject_Z (2 ^ p))%Q).
      { change 1%Q with (inject_Z 1).
        rewrite <- inject_Z_plus, <- Zle_Qle. lia. }
      pose proof (pow2_inject p ltac:(lia)) as I2.
      assert (E2 : (2 ^ (e + 1) == 2 ^ p * 2 ^ (- s))%Q).
      { rewrite <- pow2_add. replace (p + - s)%Z with (e + 1)%Z by lia.
        reflexivity. }
      rewrite E2, Ez. apply Qmult_lt_compat_r; [exact Hs|lra]. }
    assert (Ee : exponent z = e) by (apply exponent_unique; [exact Hz|lra]).
    unfold round_pos at 1. cbv zeta. rewrite Ee. fold s.
    rewrite (rne_int _ m); [symmetry; exact Ez|].
    rewrite Ez, <- Qmult_assoc, (Qmult_comm (2 ^ (- s))), Hc. ring.
Qed.

Lemma round_pos_one : (round_pos p 1 == 1)%Q.
Proof.
  assert (Ee : exponent 1 = 0%Z).
  { apply exponent_unique; [reflexivity|]. split; [discriminate|reflexivity]. }
  unfold round_pos. cbv zeta. rewrite Ee.
  replace (p - 1 - 0)%Z with (p - 1)%Z by lia.
  rewrite (rne_int _ (2 ^ (p - 1))).
  - rewrite pow2_inject by lia. apply pow2_cancel.
  - rewrite pow2_inject by lia. ring.
Qed.

End RoundPos.

Section RoundTo.
Variable p : Z.
Hypothesis Hp : (1 <= p)%Z.

Lemma round_to_pos x : (0 < x)%Q -> (round_to p x == round_pos p x)%Q.
Proof.
  intros Hx. unfold round_to. rewrite Qred_correct.
  destruct (Qle_bool x 0) eqn:E; [|reflexivity].
  apply Qle_bool_iff in E. lra.
Qed.

Lemma round_to_zero x : (x == 0)%Q -> (round_to p x == 0)%Q.
Proof.
  intros Hx. unfold round_to. rewrite Qred_correct.
  destruct (Qle_bool x 0) eqn:E.
  - destruct (Qeq_bool x 0) eqn:E0; [reflexivity|].
    apply Qeq_bool_neq in E0. contradiction.
  - assert (Hle : (x <= 0)%Q) by lra. apply Qle_bool_iff in Hle. congruence.
Qed.

Lemma round_to_neg x : (x < 0)%Q -> (round_to p x == - round_pos p (- x))%Q.
Proof.
  intros Hx. unfold round_to. rewrite Qred_correct.
  destruct (Qle_bool x 0) eqn:E.
  - destruct (Qeq_bool x 0) eqn:E0; [|reflexivity].
    apply Qeq_bool_iff in E0. lra.
  - assert (Hle : (x <= 0)%Q) by lra. apply Qle_bool_iff in Hle. congruence.
Qed.

Lemma round_to_compat x y : (x == y)%Q -> (round_to p x == round_to p y)%Q.
Proof.
  intros Hxy.
  destruct (Qlt_le_dec 0 x) as [Hx|Hx].
  - rewrite !round_to_pos by lra.
    rewrite (round_pos_compat p x y Hx Hxy). reflexivity.
  - destruct (Qlt_le_dec x 0) as [Hx'|Hx'].
    + rewrite !round_to_neg by lra.
      rewrite (round_pos_compat p (- x) (- y)); [reflexivity|lra|].
      rewrite Hxy. reflexivity.
    + rewrite !round_to_zero by lra. reflexivity.
Qed.

Lemma round_to_nonneg x : (0 <= x)%Q -> (0 <= round_to p x)%Q.
Proof.
  intros Hx. destruct (Qlt_le_dec 0 x) as [Hx'|Hx'].
  - rewrite round_to_pos by exact Hx'.
    pose proof (round_pos_pos p Hp x Hx'). lra.
  - rewrite round_to_zero by lra. lra.
Qed.

(** The rounding to the nearest number with a mantissa of [p] bits is a
    rounding, with the unit roundoff [2 ^ (- p)]. *)
Lemma round_to_rounds : rounds (round_to p) (2 ^ (- p)).
Proof.
  split; [exact round_to_compat|]. split; [|split]; [| |split; [|split]].
  - intros x y Hx Hxy. destruct (Qlt_le_dec 0 x) as [Hx'|Hx'].
    + rewrite !round_to_pos by lra. apply round_pos_mono; assumption.
    + rewrite (round_to_zero x) by lra. apply round_to_nonneg. lra.
  - intros x Hx. destruct (Qlt_le_dec 0 x) as [Hx'|Hx'].
    + pose proof (round_pos_pos p Hp x Hx') as Hz.
      rewrite (round_to_compat _ _ (round_to_pos x Hx')).
      rewrite !round_to_pos by assumption.
      apply round_pos_idem; assumption.
    + rewrite (round_to_compat _ 0) by (apply round_to_zero; lra).
      rewrite (round_to_zero 0) by reflexivity.
      rewrite round_to_zero by lra. reflexivity.
  - rewrite round_to_pos by reflexivity. apply round_pos_one. exact Hp.
  - pose proof (pow2_pos (- p)). split; [lra|].
    change 1%Q with (2 ^ 0)%Q. apply pow2_le. lia.
  - intros x Hx. destruct (Qlt_le_dec 0 x) as [Hx'|Hx'].
    + rewrite round_to_pos by exact Hx'. apply round_pos_err; assumption.
    + rewrite round_to_zero by lra.
      assert (E : (x == 0)%Q) by lra. rewrite E. split; lra.
Qed.

End RoundTo.

Lemma binary64_rounds : rounds binary64 (2 ^ (-53)).
Proof. apply (round_to_rounds 53). lia. Qed.

Section RoundedPhase.
Context {G : Type}.
Variable rnd : Q -> Q.
Variable u : Q.
Variable cfg : Settings.
Implicit Types s : Lookahead G.

Lemma current_strategies_layer_fl_ready eps L L' :
  rounds rnd u ->
  (0 < eps)%Q -> (eps <= max_number cfg)%Q -> (rnd eps == eps)%Q ->
  strategy_ready L ->
  current_strategies_layer_fl rnd cfg eps L = OK L' ->
  strategy_ready L' /\ strategy_rounded u eps L'.
Proof.
  intros Hrnd Heps Hmax Hreps (A & sh & Hsr & Hsm & Hsc & Hfin & Hbin) H.
  destruct (current_strategies_layer_fl_ok rnd u Hrnd cfg eps L L' A sh
              Heps Hmax Hreps Hsr Hsm Hsc Hfin Hbin H)
    as (Er & Em & Hsc' & Hok).
  split.
  - exists A, sh. rewrite Er, Em. auto.
  - exists A, sh. rewrite Em. auto.
Qed.


End RoundedPhase.

(** ** Indexing the first axis *)

Lemma norm_ix_all n : norm_ix n all = OK (Span 0 n).
Proof.
  unfold norm_ix, all, norm_bound. f_equal. f_equal. lia.
Qed.

Lemma norm_specs_nil sh : norm_specs sh [] = OK (map (Span 0) sh).
Proof.
  induction sh as [|n sh IH]; simpl; [reflexivity|]. rewrite IH. reflexivity.
Qed.

Lemma sel_shape_spans sh : sel_shape (map (Span 0) sh) = sh.
Proof. induction sh as [|n sh IH]; simpl; congruence. Qed.

Lemma sel_src_spans sh j :
  length j = length sh -> sel_src (map (Span 0) sh) j = j.
Proof.
  revert j. induction sh as [|n sh IH]; intros [|i j] Hlen; simpl in *;
    try discriminate; [reflexivity|].
  rewrite IH by lia. reflexivity.
Qed.

Lemma sel_dst_spans sh j :
  in_bounds sh j -> sel_dst (map (Span 0) sh) j = Some j.
Proof.
  unfold in_bounds. induction 1 as [|i n j sh Hi _ IH]; simpl; [reflexivity|].
  destruct (Nat.ltb_spec i n); [|lia]. rewrite IH. simpl.
  rewrite Nat.sub_0_r. reflexivity.
Qed.

Lemma norm_ix_at n (i : nat) : i < n -> norm_ix n (At (Z.of_nat i)) = OK (Pick i).
Proof.
  intros Hi. unfold norm_ix. destruct (Z.ltb_spec (Z.of_nat i) 0); [lia|].
  destruct (Z.leb_spec 0 (Z.of_nat i)); [|lia].
  destruct (Z.ltb_spec (Z.of_nat i) (Z.of_nat n)); [|lia].
  simpl. rewrite Nat2Z.id. reflexivity.
Qed.

Lemma norm_ix_at_OK n z s :
  (0 <= z)%Z -> norm_ix n (At z) = OK s -> Z.to_nat z < n /\ s = Pick (Z.to_nat z).
Proof.
  intros Hz. unfold norm_ix. destruct (Z.ltb_spec z 0); [lia|].
  destruct (_ && _) eqn:E; [|discriminate]. intros [= <-].
  apply andb_prop in E as [_ E]. apply Z.ltb_lt in E. split; [lia|reflexivity].
Qed.

(** [a[i]] and [a[i] = v] for an index [i] into the first axis. *)
Lemma getitem_row a n sh (i : nat) c :
  shape a = n :: sh ->
  getitem a [At (Z.of_nat i)] = OK c ->
  i < n /\ shape c = sh /\
  forall j, in_bounds sh j -> get c j = get a (i :: j).
Proof.
  intros Hs H. apply getitem_OK in H as (sels & Hn & Hsc & Hget).
  rewrite Hs in Hn. cbn [norm_specs] in Hn.
  destruct (norm_ix n (At (Z.of_nat i))) as [s0|] eqn:E; [|discriminate].
  apply norm_ix_at_OK in E as [Hi ->]; [|lia]. rewrite Nat2Z.id in *.
  rewrite norm_specs_nil in Hn. cbn [bind] in Hn. injection Hn as <-.
  simpl in Hsc, Hget. rewrite sel_shape_spans in Hsc, Hget.
  split; [assumption|]. split; [assumption|].
  intros j Hj. rewrite (Hget j Hj).
  rewrite sel_src_spans by (apply in_bounds_length; assumption). reflexivity.
Qed.

Lemma setitem_row a n sh (i : nat) v c :
  shape a = n :: sh -> shape v = sh ->
  setitem a [At (Z.of_nat i)] v = OK c ->
  shape c = n :: sh /\
  forall k j, k < n -> in_bounds sh j ->
    get c (k :: j) = if k =? i then get v j else get a (k :: j).
Proof.
  intros Hs Hv H. apply setitem_OK in H as (sels & Hn & _ & Hsc & Hget).
  rewrite Hs in Hn. cbn [norm_specs] in Hn.
  destruct (norm_ix n (At (Z.of_nat i))) as [s0|] eqn:E; [|discriminate].
  apply norm_ix_at_OK in E as [Hi ->]; [|lia]. rewrite Nat2Z.id in *.
  rewrite norm_specs_nil in Hn. cbn [bind] in Hn. injection Hn as <-.
  split; [congruence|].
  intros k j Hk Hj. rewrite Hget by (rewrite Hs; apply in_bounds_cons; auto).
  simpl. destruct (k =? i); [|reflexivity].
  rewrite sel_dst_spans by assumption. rewrite Hv, bidx_same by assumption.
  reflexivity.
Qed.

(** ** Sums that are numbers *)

Lemma fold_add_not_fin l x : is_fin x = false -> is_fin (fold_left add l x) = false.
Proof.
  revert x. induction l as [|y l IH]; intros x Hx; simpl; [exact Hx|].
  apply IH. destruct x, y; try discriminate; reflexivity.
Qed.

Lemma fold_add_fin_inv l q0 s :
  fold_left add l (Fin q0) = Fin s ->
  exists qs, l = map Fin qs /\ s = fold_left Qplus qs q0.
Proof.
  revert q0. induction l as [|y l IH]; intros q0 H; simpl in H.
  - injection H as <-. exists []. split; reflexivity.
  - destruct y as [q| | |].
    + apply IH in H as (qs & -> & ->). exists (q :: qs). split; reflexivity.
    + pose proof (fold_add_not_fin l PInf eq_refl) as Hn.
      rewrite H in Hn. discriminate.
    + pose proof (fold_add_not_fin l NInf eq_refl) as Hn.
      rewrite H in Hn. discriminate.
    + pose proof (fold_add_not_fin l NaN eq_refl) as Hn.
      rewrite H in Hn. discriminate.
Qed.

Lemma sum_list_fin_inv l s :
  sum_list l = Fin s -> exists qs, l = map Fin qs /\ s = fold_left Qplus qs 0%Q.
Proof. apply fold_add_fin_inv. Qed.

Lemma fold_Qplus_zero qs :
  Forall (fun q => 0 <= q)%Q qs -> (fold_left Qplus qs 0 == 0)%Q ->
  Forall (fun q => q == 0)%Q qs.
Proof.
  intros Hnn Hz. apply List.Forall_forall. intros q Hq.
  pose proof (fold_Qplus_ge qs q Hnn Hq).
  rewrite List.Forall_forall in Hnn. specialize (Hnn q Hq). lra.
Qed.

Lemma neb_self y : neb y y = is_nan y.
Proof.
  destruct y as [q| | |]; try reflexivity. unfold neb, eqb.
  replace (Qeq_bool q q) with true; [reflexivity|].
  symmetry. apply Qeq_bool_iff. reflexivity.
Qed.

Lemma div_zero_zero (a b : Q) :
  (a == 0)%Q -> (b == 0)%Q -> div (Fin a) (Fin b) = NaN.
Proof.
  intros Ha Hb. simpl. unfold Qzerob.
  apply Qeq_bool_iff in Ha, Hb. rewrite Ha, Hb. reflexivity.
Qed.

Lemma div_fin (a b : Q) : ~ (b == 0)%Q -> div (Fin a) (Fin b) = Fin (a / b).
Proof.
  intros Hb. simpl. unfold Qzerob.
  destruct (Qeq_bool b 0) eqn:E; [|reflexivity].
  apply Qeq_bool_iff in E. contradiction.
Qed.

Lemma get_set_where_nan x a idx :
  in_bounds (shape a) idx ->
  get (set_where_nan x a) idx = if is_nan (get a idx) then x else get a idx.
Proof.
  intros Hb. unfold set_where_nan. rewrite get_amap by assumption.
  rewrite neb_self. reflexivity.
Qed.

Lemma modify_layer_layer {G} d f (s s' : Lookahead G) :
  modify_layer d f s = OK s' ->
  exists L L', layer s d = OK L /\ f L = OK L' /\ layer s' d = OK L'.
Proof.
  intros H. apply modify_layer_OK in H as (k & L & L' & Hk & HL & Hf & ->).
  exists L, L'. split; [|split; [exact Hf|]].
  - unfold layer. rewrite Hk. simpl. rewrite HL. reflexivity.
  - unfold layer. cbn. rewrite length_insert, Hk. simpl.
    rewrite list_lookup_insert_eq by (apply lookup_lt_Some in HL; exact HL).
    reflexivity.
Qed.

Lemma column_nth a n j i : i < n -> In (get a (i :: j)) (column a n j).
Proof.
  intros Hi. unfold column. apply in_map_iff. exists i. split; [reflexivity|].
  apply in_seq. lia.
Qed.

(** The normalized average strategy of one layer. *)
Lemma normalize_average_strategies_ok L L' A sh :
  shape (average_strategies_data L) = A :: sh ->
  normalize_average_strategies L = OK L' ->
  shape (average_strategies_data L') = A :: sh /\
  Forall (fun x => is_nan x = false) (data (average_strategies_data L')) /\
  forall j, in_bounds sh j ->
    ((sum_list (column (average_strategies_data L) A j) = NaN \/
      (equiv (sum_list (column (average_strategies_data L) A j)) zero /\
       forall i, i < A -> nonneg (get (average_strategies_data L) (i :: j)))) ->
     get (average_strategies_data L') (0 :: j) = one /\
     forall a, 0 < a < A -> get (average_strategies_data L') (a :: j) = zero) /\
    (forall q, sum_list (column (average_strategies_data L) A j) = Fin q ->
       (0 < q)%Q ->
       forall a, a < A ->
         equiv (get (average_strategies_data L') (a :: j))
               (div (get (average_strategies_data L) (a :: j)) (Fin q))).
Proof.
  intros Hs H. unfold normalize_average_strategies in H. cbv zeta in H.
  cbn [regrets_sum set_regrets_sum average_strategies_data] in H.
  repeat run_step. cbn [average_strategies_data set_average_strategies_data].
  rename x into rs, x0 into den, x1 into pas, x2 into row, x3 into pas2.
  set (avg := average_strategies_data L) in *.
  apply sum_axis_OK in E as (n & Hn & Hsrs & Hrs).
  rewrite Hs in Hn, Hsrs. injection Hn as <-. simpl in Hsrs.
  apply binop_OK in E0 as (Hsden & Hden).
  unfold ones_like in Hsden, Hden. cbn [shape full] in Hsden, Hden.
  rewrite Hsrs, Hs, (bshape_cons 1 A A sh (bdim_1_l A)) in Hsden.
  injection Hsden as Hsden.
  apply iop_OK in E1 as (Hspas & _ & Hpas). rewrite Hs in Hspas, Hpas.
  change 0%Z with (Z.of_nat 0) in E2, E3.
  apply (getitem_row _ A sh) in E2 as (HA & Hsrow & Hrow); [|assumption].
  apply (setitem_row _ A sh) in E3 as (Hspas2 & Hpas2);
    [|assumption|exact Hsrow].
  (* the quotient at an action and a state *)
  assert (Hq : forall a j, a < A -> in_bounds sh j ->
            get pas (a :: j)
            = div (get avg (a :: j)) (mul (sum_list (column avg A j)) one)).
  { intros a j Ha Hj.
    assert (Hb : in_bounds (A :: sh) (a :: j)) by (apply in_bounds_cons; auto).
    rewrite (Hpas _ Hb). rewrite <- Hsden, (bidx_same _ _ Hb).
    rewrite Hden by (rewrite <- Hsden; exact Hb).
    rewrite Hsrs, (bidx_cons_1 _ _ _ Hj), Hs, (bidx_same _ _ Hb).
    rewrite get_full by exact Hb.
    rewrite Hrs by (rewrite Hsrs; apply in_bounds_cons; split; [lia|assumption]).
    reflexivity. }
  assert (Hout : forall a j, a < A -> in_bounds sh j ->
            get (set_where_nan zero pas2) (a :: j)
            = if is_nan (get pas (a :: j))
              then (if a =? 0 then one else zero)
              else get pas (a :: j)).
  { intros a j Ha Hj.
    rewrite get_set_where_nan
      by (rewrite Hspas2; apply in_bounds_cons; auto).
    rewrite (Hpas2 a j Ha Hj). destruct (Nat.eqb_spec a 0) as [->|Hne].
    - rewrite get_set_where_nan by (rewrite Hsrow; exact Hj).
      rewrite (Hrow j Hj). destruct (is_nan (get pas (0 :: j))) eqn:En.
      + reflexivity.
      + rewrite En. reflexivity.
    - reflexivity. }
  split; [exact Hspas2|]. split.
  { unfold set_where_nan, amap. apply Forall_build. intros idx _.
    rewrite neb_self. destruct (is_nan (get pas2 idx)) eqn:En; [reflexivity|exact En]. }
  intros j Hj. split.
  - intros Hdeg.
    assert (Hnan : forall a, a < A -> is_nan (get pas (a :: j)) = true).
    { intros a Ha. rewrite (Hq a j Ha Hj).
      destruct Hdeg as [-> | [Hz Hnn]].
      - destruct (get avg (a :: j)); reflexivity.
      - destruct (sum_list (column avg A j)) as [s0| | |] eqn:ES;
          try contradiction.
        simpl in Hz.
        apply sum_list_fin_inv in ES as (qs & Hqs & ->).
        pose proof (column_nth avg A j a Ha) as Hin.
        rewrite Hqs in Hin. apply in_map_iff in Hin as (x & Hx & Hxin).
        assert (Hall : Forall (fun q => 0 <= q)%Q qs).
        { apply List.Forall_forall. intros y Hy.
          assert (Hiny : In (Fin y) (column avg A j))
            by (rewrite Hqs; apply in_map; exact Hy).
          unfold column in Hiny. apply in_map_iff in Hiny as (i & Hi & Hiin).
          apply in_seq in Hiin. specialize (Hnn i ltac:(lia)).
          rewrite Hi in Hnn. exact Hnn. }
        pose proof (fold_Qplus_zero qs Hall Hz) as Hzero.
        rewrite List.Forall_forall in Hzero. specialize (Hzero x Hxin).
        rewrite <- Hx. cbn [mul one].
        rewrite div_zero_zero; [reflexivity | exact Hzero | lra]. }
    split.
    + rewrite (Hout 0 j HA Hj), (Hnan 0 HA). reflexivity.
    + intros a Ha. rewrite (Hout a j ltac:(lia) Hj), (Hnan a ltac:(lia)).
      destruct (Nat.eqb_spec a 0); [lia|reflexivity].
  - intros q ES Hpos a Ha.
    rewrite (Hout a j Ha Hj), (Hq a j Ha Hj), ES.
    apply sum_list_fin_inv in ES as (qs & Hqs & Eq).
    pose proof (column_nth avg A j a Ha) as Hin.
    rewrite Hqs in Hin. apply in_map_iff in Hin as (x & Hx & _).
    rewrite <- Hx. cbn [mul one].
    rewrite !div_fin by lra. simpl. field. lra.
Qed.

Lemma reshape_rank a dims c :
  reshape a dims = OK c -> length (shape c) = length dims.
Proof.
  unfold reshape. intros H. cbv zeta in H. run_step; [|discriminate].
  destruct (length (List.filter is_hole dims)) as [|[|]]; repeat run_step;
    try discriminate; simpl; apply length_map.
Qed.

(** [a[:, i, :]] and [a[:, i, :] = v] on an array of three axes. *)
Lemma getitem_mid a B P H (i : nat) c :
  shape a = [B; P; H] ->
  getitem a [all; At (Z.of_nat i); all] = OK c ->
  i < P /\ shape c = [B; H] /\
  forall b h, b < B -> h < H -> get c [b; h] = get a [b; i; h].
Proof.
  intros Hs Hg. apply getitem_OK in Hg as (sels & Hn & Hsc & Hget).
  rewrite Hs in Hn. cbn [norm_specs] in Hn. rewrite !norm_ix_all in Hn.
  cbn [bind] in Hn.
  destruct (norm_ix P (At (Z.of_nat i))) as [s0|] eqn:E; [|discriminate].
  apply norm_ix_at_OK in E as [Hi ->]; [|lia]. rewrite Nat2Z.id in *.
  cbn [bind] in Hn. injection Hn as <-.
  split; [assumption|]. split; [assumption|].
  intros b h Hb Hh. rewrite Hget; [reflexivity|].
  repeat constructor; assumption.
Qed.

Lemma setitem_mid a B P H (i : nat) v c :
  shape a = [B; P; H] -> shape v = [B; H] ->
  setitem a [all; At (Z.of_nat i); all] v = OK c ->
  shape c = [B; P; H] /\
  forall b p h, b < B -> p < P -> h < H ->
    get c [b; p; h] = if p =? i then get v [b; h] else get a [b; p; h].
Proof.
  intros Hs Hv Hg. apply setitem_OK in Hg as (sels & Hn & _ & Hsc & Hget).
  rewrite Hs in Hn. cbn [norm_specs] in Hn. rewrite !norm_ix_all in Hn.
  cbn [bind] in Hn.
  destruct (norm_ix P (At (Z.of_nat i))) as [s0|] eqn:E; [|discriminate].
  apply norm_ix_at_OK in E as [Hi ->]; [|lia]. rewrite Nat2Z.id in *.
  cbn [bind] in Hn. injection Hn as <-.
  split; [congruence|].
  intros b p h Hb Hp Hh.
  rewrite Hget by (rewrite Hs; repeat constructor; assumption).
  cbn [sel_dst]. rewrite Nat.sub_0_r.
  destruct (Nat.ltb_spec b (0 + B)); [|lia].
  destruct (Nat.ltb_spec h (0 + H)); [|lia].
  cbn. destruct (p =? i); [|reflexivity]. cbn. rewrite Nat.sub_0_r.
  rewrite Hv, bidx_same by (repeat constructor; assumption). reflexivity.
Qed.

Section Results.
Context {G : Type}.
Variable C : Collab G.
Variable cfg : Settings.
Implicit Types s : Lookahead G.

(** Which root CFVs [get_results] reports. *)
Lemma get_results_root s out :
  get_results cfg s = OK out ->
  match reconstruction_opponent_cfvs s with
  | Some _ => root_cfvs out = None /\ root_cfvs_both_players out = None
  | None =>
      exists L0 avg0 root both B P H,
        layer s 0 = OK L0 /\
        reshape (average_cfvs_data L0)
                [batch_size s; players_count cfg; hand_count cfg] = OK avg0 /\
        shape avg0 = [B; P; H] /\
        root_cfvs out = Some root /\
        root_cfvs_both_players out = Some both /\
        shape root = [B; H] /\ shape both = [B; P; H] /\
        forall b h, b < B -> h < H ->
          get root [b; h] = get avg0 [b; 1; h] /\
          get both [b; 0; h] = get avg0 [b; 1; h] /\
          get both [b; 1; h] = get avg0 [b; 0; h]
  end.
Proof.
  unfold get_results. cbv zeta. intros H0.
  destruct (reconstruction_opponent_cfvs s) as [oc|].
  - repeat run_step. cbn. split; reflexivity.
  - repeat run_step. cbn.
    match goal with
    | Hre : reshape (average_cfvs_data _) _ = OK ?a |- _ =>
        pose proof (reshape_rank _ _ _ Hre) as Hrank;
        destruct (shape a) as [|B [|P [|H []]]] eqn:Hs; try discriminate Hrank
    end.
    change 1%Z with (Z.of_nat 1) in *. change 0%Z with (Z.of_nat 0) in *.
    repeat match goal with
      | Hg : getitem _ [all; At _; all] = OK _ |- _ =>
          apply (getitem_mid _ B P H) in Hg as (? & ? & ?); [|exact Hs]
      end.
    match goal with
    | H1 : setitem _ _ _ = OK ?m, H2 : setitem ?m _ _ = OK _ |- _ =>
        apply (setitem_mid _ B P H) in H1 as (Hsm & Hm); [|exact Hs|assumption];
        apply (setitem_mid _ B P H) in H2 as (Hsb & Hb); [|exact Hsm|assumption]
    end.
    do 7 eexists.
    split; [reflexivity|]. split; [eassumption|]. split; [exact Hs|].
    split; [reflexivity|]. split; [reflexivity|].
    split; [eassumption|]. split; [exact Hsb|].
    intros b h Hb' Hh. split; [auto|].
    rewrite !Hb by lia. rewrite !Hm by lia. cbn. split; auto.
Qed.

Lemma compute_flag s s' :
  _compute C cfg s = OK s' ->
  reconstruction_opponent_cfvs s' = reconstruction_opponent_cfvs s.
Proof. intros H. apply compute_trace in H as (H & _). exact H. Qed.

Lemma resolve_first_node_flag pr opr s s' :
  resolve_first_node C cfg pr opr s = OK s' ->
  reconstruction_opponent_cfvs s' = reconstruction_opponent_cfvs s.
Proof.
  unfold resolve_first_node. intros H. repeat run_step.
  apply compute_flag in H.
  repeat match goal with
    | H : modify_layer _ _ _ = OK _ |- _ => apply modify_layer_frame in H
    end.
  unfold frame in *. intuition congruence.
Qed.

Lemma resolve_flag pr oc s s' :
  resolve C cfg pr oc s = OK s' ->
  reconstruction_opponent_cfvs s' = oc /\ oc <> None.
Proof.
  unfold resolve. intros H. repeat run_step.
  apply compute_flag in H. cbn in H.
  destruct pr, oc; try discriminate. simpl in *.
  split; congruence.
Qed.

End Results.

Lemma norm_ix_at_Z n (z : Z) :
  (0 <= z < Z.of_nat n)%Z -> norm_ix n (At z) = OK (Pick (Z.to_nat z)).
Proof.
  intros Hz. rewrite <- (Z2Nat.id z) at 1 by lia. apply norm_ix_at. lia.
Qed.

Lemma assignable_same sh : assignable sh sh = true.
Proof.
  unfold assignable. rewrite Nat.sub_diag. simpl.
  rewrite bshape_same. destruct (decide (sh = sh)); congruence.
Qed.

Section Chance.
Context {G : Type}.
Variable C : Collab G.
Variable cfg : Settings.
Implicit Types s : Lookahead G.

(** An action without a batch index. *)
Lemma get_chance_action_cfv_unmapped action board s :
  action_to_index s !! action = None ->
  (forall r, get_chance_action_cfv C cfg action board s <> OK r) /\
  (forall box,
     reshape (next_street_boxes_outputs s)
             [-1; players_count cfg; hand_count cfg]%Z = OK box ->
     get_chance_action_cfv C cfg action board s = Raise KeyError).
Proof.
  intros Hnone. unfold get_chance_action_cfv. cbv zeta. rewrite Hnone. split.
  - intros r. destruct (reshape _ _); simpl; discriminate.
  - intros box ->. reflexivity.
Qed.

(** An action with the batch index [bi]. *)
Lemma get_chance_action_cfv_mapped action board s bi box n P H m :
  action_to_index s !! action = Some bi ->
  reshape (next_street_boxes_outputs s)
          [-1; players_count cfg; hand_count cfg]%Z = OK box ->
  shape box = [n; P; H] ->
  shape (next_round_pot_sizes s) = [m] ->
  (0 <= bi < Z.of_nat n)%Z -> (0 <= bi < Z.of_nat m)%Z ->
  (0 <= current_player (tree s) < Z.of_nat P)%Z ->
  exists out s',
    get_chance_action_cfv C cfg action board s = OK (out, s') /\
    shape out = [H] /\
    forall h, h < H ->
      get out [h]
      = mul (get (mkArr (shape box) (data (get_value_on_board C board box)))
                 [Z.to_nat bi; Z.to_nat (current_player (tree s)); h])
            (get (next_round_pot_sizes s) [Z.to_nat bi]).
Proof.
  intros Hmap Hre Hsb Hsp Hbn Hbm Hcp.
  unfold get_chance_action_cfv. cbv zeta. rewrite Hre, Hmap. cbn [bind of_option].
  set (box' := mkArr (shape box) (data (get_value_on_board C board box))).
  set (cp := current_player (tree s)) in *.
  assert (Hpm : getitem (next_round_pot_sizes s) [At bi]
                = OK (build [] (fun idx => get (next_round_pot_sizes s)
                                              [Z.to_nat bi]))).
  { unfold getitem. rewrite Hsp. cbn [norm_specs].
    rewrite norm_ix_at_Z by assumption. reflexivity. }
  rewrite Hpm. cbn [bind].
  assert (Hout : getitem box' [At bi; At cp]
                 = OK (build [H] (fun idx => get box'
                         (Z.to_nat bi :: Z.to_nat cp
                            :: match idx with [] => [0] | i :: _ => [0 + i] end)))).
  { unfold getitem. change (shape box') with (shape box). rewrite Hsb.
    cbn [norm_specs]. rewrite !norm_ix_at_Z by assumption.
    reflexivity. }
  rewrite Hout. cbn [bind].
  unfold iop at 1. cbn [shape build]. rewrite bshape_scalar_r.
  destruct (decide ([H] = [H])) as [_|]; [|congruence]. cbn [bind].
  unfold setitem. change (shape box') with (shape box). rewrite Hsb.
  cbn [norm_specs]. rewrite !norm_ix_at_Z by assumption. cbn [bind sel_shape shape build].
  rewrite assignable_same.
  eexists _, _. split; [reflexivity|]. split; [reflexivity|].
  intros h Hh. rewrite get_build by (repeat constructor; exact Hh).
  rewrite (get_build [H]) by (repeat constructor; exact Hh).
  rewrite bidx_scalar, (get_build []) by constructor. reflexivity.
Qed.

End Chance.

(** ** Slices of the tensors of a layer *)

Lemma norm_ix_from n (t : nat) :
  t <= n -> norm_ix n (Sl (Some (Z.of_nat t)) None) = OK (Span t (n - t)).
Proof.
  intros Ht. unfold norm_ix, norm_bound.
  destruct (Z.ltb_spec (Z.of_nat t) 0); [lia|].
  f_equal. f_equal; lia.
Qed.

Lemma norm_ix_upto n (g : nat) :
  g <= n -> norm_ix n (Sl None (Some (Z.of_nat g))) = OK (Span 0 g).
Proof.
  intros Hg. unfold norm_ix, norm_bound.
  destruct (Z.ltb_spec (Z.of_nat g) 0); [lia|].
  f_equal. f_equal; lia.
Qed.

Lemma in_bounds6 n0 n1 n2 n3 n4 n5 i0 i1 i2 i3 i4 i5 :
  in_bounds [n0; n1; n2; n3; n4; n5] [i0; i1; i2; i3; i4; i5] <->
  i0 < n0 /\ i1 < n1 /\ i2 < n2 /\ i3 < n3 /\ i4 < n4 /\ i5 < n5.
Proof.
  rewrite !in_bounds_cons. split.
  - intros (?&?&?&?&?&?&_). tauto.
  - intros (?&?&?&?&?&?). repeat split; try assumption. constructor.
Qed.

Lemma in_bounds5 n0 n1 n2 n3 n4 i0 i1 i2 i3 i4 :
  in_bounds [n0; n1; n2; n3; n4] [i0; i1; i2; i3; i4] <->
  i0 < n0 /\ i1 < n1 /\ i2 < n2 /\ i3 < n3 /\ i4 < n4.
Proof.
  rewrite !in_bounds_cons. split.
  - intros (?&?&?&?&?&_). tauto.
  - intros (?&?&?&?&?). repeat split; try assumption. constructor.
Qed.

(** [a[:, :, :, :, pl, :]] *)
Lemma getitem_player a A P N B PC HC (pl : nat) c :
  shape a = [A; P; N; B; PC; HC] ->
  getitem a (player_slice (Z.of_nat pl)) = OK c ->
  pl < PC /\ shape c = [A; P; N; B; HC] /\
  forall i p n b h, i < A -> p < P -> n < N -> b < B -> h < HC ->
    get c [i; p; n; b; h] = get a [i; p; n; b; pl; h].
Proof.
  intros Hs Hg. apply getitem_OK in Hg as (sels & Hn & Hsc & Hget).
  rewrite Hs in Hn. unfold player_slice in Hn. cbn [norm_specs] in Hn.
  rewrite !norm_ix_all in Hn. cbn [bind] in Hn.
  destruct (norm_ix PC (At (Z.of_nat pl))) as [s0|] eqn:E; [|discriminate].
  apply norm_ix_at_OK in E as [Hi ->]; [|lia]. rewrite Nat2Z.id in *.
  cbn [bind] in Hn. injection Hn as <-.
  split; [assumption|]. split; [assumption|].
  intros i p n b h Hi' Hp Hn Hb Hh. rewrite Hget; [reflexivity|].
  apply in_bounds5. repeat split; assumption.
Qed.

(** [a[:, :, :, :, pl, :] = v] *)
Lemma setitem_player_any a A P N B PC HC (pl : nat) v c :
  shape a = [A; P; N; B; PC; HC] ->
  setitem a (player_slice (Z.of_nat pl)) v = OK c ->
  pl < PC /\ shape c = [A; P; N; B; PC; HC] /\
  forall i p n b q h, i < A -> p < P -> n < N -> b < B -> q < PC -> h < HC ->
    get c [i; p; n; b; q; h]
    = if q =? pl then get v (bidx (shape v) [i; p; n; b; h])
      else get a [i; p; n; b; q; h].
Proof.
  intros Hs Hg. apply setitem_OK in Hg as (sels & Hn & _ & Hsc & Hget).
  rewrite Hs in Hn. unfold player_slice in Hn. cbn [norm_specs] in Hn.
  rewrite !norm_ix_all in Hn. cbn [bind] in Hn.
  destruct (norm_ix PC (At (Z.of_nat pl))) as [s0|] eqn:E; [|discriminate].
  apply norm_ix_at_OK in E as [Hi ->]; [|lia]. rewrite Nat2Z.id in *.
  cbn [bind] in Hn. injection Hn as <-.
  split; [exact Hi|]. split; [congruence|].
  intros i p n b q h Hi' Hp Hn Hb Hq Hh.
  rewrite Hget by (rewrite Hs; apply in_bounds6; repeat split; assumption).
  cbn [sel_dst]. rewrite !Nat.sub_0_r. cbn [Nat.leb andb].
  destruct (Nat.ltb_spec i (0 + A)); [|lia].
  destruct (Nat.ltb_spec p (0 + P)); [|lia].
  destruct (Nat.ltb_spec n (0 + N)); [|lia].
  destruct (Nat.ltb_spec b (0 + B)); [|lia].
  destruct (Nat.ltb_spec h (0 + HC)); [|lia].
  destruct (q =? pl); reflexivity.
Qed.

(** The same for a value of the shape of the slice. *)
Lemma setitem_player a A P N B PC HC (pl : nat) v c :
  shape a = [A; P; N; B; PC; HC] -> shape v = [A; P; N; B; HC] ->
  setitem a (player_slice (Z.of_nat pl)) v = OK c ->
  shape c = [A; P; N; B; PC; HC] /\
  forall i p n b q h, i < A -> p < P -> n < N -> b < B -> q < PC -> h < HC ->
    get c [i; p; n; b; q; h]
    = if q =? pl then get v [i; p; n; b; h] else get a [i; p; n; b; q; h].
Proof.
  intros Hs Hv Hg.
  apply (setitem_player_any _ _ _ _ _ _ _ _ _ _ Hs) in Hg as (_ & Hsc & Hget).
  split; [exact Hsc|].
  intros i p n b q h Hi Hp Hn Hb Hq Hh. rewrite Hget by assumption.
  rewrite Hv, bidx_same by (apply in_bounds5; repeat split; assumption).
  reflexivity.
Qed.

(** [a[:, :, :, :, pl, :] *= v] *)
Lemma iop_at_player f a A P N B PC HC (pl : nat) v c :
  shape a = [A; P; N; B; PC; HC] -> shape v = [A; P; N; B; HC] ->
  iop_at f a (player_slice (Z.of_nat pl)) v = OK c ->
  pl < PC /\ shape c = [A; P; N; B; PC; HC] /\
  forall i p n b q h, i < A -> p < P -> n < N -> b < B -> q < PC -> h < HC ->
    get c [i; p; n; b; q; h]
    = if q =? pl
      then f (get a [i; p; n; b; pl; h]) (get v [i; p; n; b; h])
      else get a [i; p; n; b; q; h].
Proof.
  intros Hs Hv H. unfold iop_at in H. repeat run_step.
  rename x into view, x0 into r.
  apply (getitem_player _ A P N B PC HC) in E as (Hpl & Hsview & Hview);
    [|exact Hs].
  apply iop_OK in E0 as (Hsr & _ & Hr). rewrite Hsview in Hsr, Hr.
  apply (setitem_player _ A P N B PC HC) in H as (Hsc & Hc);
    [|exact Hs|exact Hsr].
  split; [assumption|]. split; [assumption|].
  intros i p n b q h Hi Hp Hn Hb Hq Hh. rewrite Hc by assumption.
  destruct (q =? pl); [|reflexivity].
  rewrite Hr by (apply in_bounds5; repeat split; assumption).
  rewrite Hview by assumption.
  rewrite Hv, bidx_same by (apply in_bounds5; repeat split; assumption). reflexivity.
Qed.

(** ** Reshaping *)




Lemma is_hole_of_nat n : is_hole (Z.of_nat n) = false.
Proof. unfold is_hole. destruct (Z.eqb_spec (Z.of_nat n) (-1)); [lia|reflexivity]. Qed.

Lemma numel_fill_hole x dims :
  forallb (fun d => (-1 <=? d)%Z) dims = true ->
  Z.of_nat (numel (map (fill_hole x) dims))
  = (known_size dims * Z.of_nat x ^ Z.of_nat (holes dims))%Z.
Proof.
  unfold known_size, holes. induction dims as [|d dims IH]; intros Hd.
  - reflexivity.
  - simpl in Hd. apply andb_prop in Hd as [Hd1 Hd2]. apply Z.leb_le in Hd1.
    specialize (IH Hd2). cbn [map numel fold_right List.filter].
    change (fold_right Nat.mul 1 (map (fill_hole x) dims))
      with (numel (map (fill_hole x) dims)).
    rewrite Nat2Z.inj_mul, IH. unfold fill_hole at 1.
    destruct (is_hole d) eqn:E; cbn [negb length fold_right].
    + rewrite Nat2Z.inj_succ, Z.pow_succ_r by lia. ring.
    + unfold is_hole in E. apply Z.eqb_neq in E.
      rewrite Z2Nat.id by lia. ring.
Qed.

Lemma known_size_nonneg dims :
  forallb (fun d => (-1 <=? d)%Z) dims = true -> (0 <= known_size dims)%Z.
Proof.
  unfold known_size. induction dims as [|d dims IH]; intros Hd; simpl; [lia|].
  simpl in Hd. apply andb_prop in Hd as [Hd1 Hd2]. apply Z.leb_le in Hd1.
  specialize (IH Hd2). destruct (is_hole d) eqn:E; simpl; [exact IH|].
  unfold is_hole in E. apply Z.eqb_neq in E. apply Z.mul_nonneg_nonneg; lia.
Qed.

Lemma map_fill_no_hole x dims :
  holes dims = 0 -> map Z.to_nat dims = map (fill_hole x) dims.
Proof.
  unfold holes. induction dims as [|d dims IH]; intros H; [reflexivity|].
  simpl in H. unfold fill_hole at 1. simpl.
  destruct (is_hole d); [discriminate|]. rewrite IH by exact H. reflexivity.
Qed.

Lemma reshape_OK a dims c :
  reshape a dims = OK c ->
  data c = data a /\
  numel (shape c) = numel (shape a) /\
  exists x, shape c = map (fill_hole x) dims.
Proof.
  unfold reshape. cbv zeta. intros H.
  destruct (forallb _ dims) eqn:Hd; [|discriminate].
  fold (known_size dims) in H. fold (holes dims) in H.
  pose proof (known_size_nonneg dims Hd) as Hk.
  destruct (holes dims) as [|[|]] eqn:Hh; try discriminate.
  - destruct (Z.eqb_spec (known_size dims) (Z.of_nat (numel (shape a))))
      as [Heq|]; [|discriminate].
    injection H as <-. cbn [data shape]. split; [reflexivity|].
    rewrite (map_fill_no_hole 0 dims Hh). split; [|eauto].
    apply Nat2Z.inj. rewrite numel_fill_hole, Hh by exact Hd.
    rewrite <- Heq. change (Z.of_nat 0) with 0%Z. rewrite Z.pow_0_r. lia.
  - destruct (Z.eqb_spec (known_size dims) 0); [discriminate|].
    destruct (Z.eqb_spec (Z.of_nat (numel (shape a)) mod known_size dims) 0)
      as [Hmod|]; [|discriminate].
    injection H as <-. cbn [data shape]. split; [reflexivity|].
    fold (fill_hole (Z.to_nat (Z.of_nat (numel (shape a)) / known_size dims))).
    split; [|eauto].
    apply Nat2Z.inj. rewrite numel_fill_hole, Hh by exact Hd.
    rewrite Z2Nat.id by (apply Z.div_pos; lia).
    change (Z.of_nat 1) with 1%Z. rewrite Z.pow_1_r.
    symmetry. apply Z_div_exact_full_2; [lia|exact Hmod].
Qed.

Lemma get_reshape a dims c idx :
  reshape a dims = OK c ->
  in_bounds (shape c) idx ->
  get c idx = get a (unravel (shape a) (ravel (shape c) idx)).
Proof.
  intros H Hb. apply reshape_OK in H as (Hdata & Hnum & _).
  unfold get. rewrite Hdata.
  rewrite ravel_unravel by (rewrite <- Hnum; apply ravel_lt; exact Hb).
  reflexivity.
Qed.

(** ** Transposing the second and the third axis *)

Lemma transpose_021345 a n0 n1 n2 n3 n4 n5 c :
  shape a = [n0; n1; n2; n3; n4; n5] ->
  transpose a [0; 2; 1; 3; 4; 5] = OK c ->
  shape c = [n0; n2; n1; n3; n4; n5] /\
  forall i0 i1 i2 i3 i4 i5,
    in_bounds [n0; n2; n1; n3; n4; n5] [i0; i2; i1; i3; i4; i5] ->
    get c [i0; i2; i1; i3; i4; i5] = get a [i0; i1; i2; i3; i4; i5].
Proof.
  intros Hs H. unfold transpose in H. rewrite Hs in H. cbn in H.
  injection H as <-. split; [reflexivity|].
  intros i0 i1 i2 i3 i4 i5 Hb. rewrite get_build by exact Hb. reflexivity.
Qed.

(** ** From the inner nodes of a layer to the nodes of the next *)

(** [a[t:, :g, :, :, :, :]] *)
Lemma getitem_inner a A P N B PC HC (t g : nat) c :
  shape a = [A; P; N; B; PC; HC] -> t <= A -> g <= P ->
  getitem a [Sl (Some (Z.of_nat t)) None; Sl None (Some (Z.of_nat g));
             all; all; all; all] = OK c ->
  shape c = [A - t; g; N; B; PC; HC] /\
  forall i j k b q h,
    in_bounds [A - t; g; N; B; PC; HC] [i; j; k; b; q; h] ->
    get c [i; j; k; b; q; h] = get a [t + i; j; k; b; q; h].
Proof.
  intros Hs Ht Hg H. apply getitem_OK in H as (sels & Hn & Hsc & Hget).
  rewrite Hs in Hn. cbn [norm_specs] in Hn.
  rewrite norm_ix_from, norm_ix_upto, !norm_ix_all in Hn by assumption.
  cbn [bind] in Hn. injection Hn as <-.
  split; [exact Hsc|].
  intros i j k b q h Hb. rewrite Hget by exact Hb. reflexivity.
Qed.

Lemma reshape_inner a pb N g B PC HC c :
  shape a = [pb; N; g; B; PC; HC] ->
  0 < g -> 0 < pb -> 0 < B -> 0 < PC -> 0 < HC ->
  reshape a [1%Z; Z.of_nat pb; (-1)%Z; Z.of_nat B; Z.of_nat PC; Z.of_nat HC]
  = OK c ->
  shape c = [1; pb; N * g; B; PC; HC] /\
  forall p n b q h,
    p < pb -> n < N * g -> b < B -> q < PC -> h < HC ->
    get c [0; p; n; b; q; h] = get a [p; n / g; n mod g; b; q; h].
Proof.
  intros Hs Hg Hpb HB HPC HHC H.
  pose proof (reshape_OK _ _ _ H) as (_ & Hnum & x & Hsc).
  cbn [map] in Hsc. unfold fill_hole in Hsc.
  rewrite !is_hole_of_nat, !Nat2Z.id in Hsc. cbn in Hsc.
  assert (Hx : x = N * g).
  { rewrite Hsc, Hs in Hnum. cbn [numel fold_right] in Hnum.
    rewrite !Nat.mul_1_r in Hnum. change (Z.to_nat 1) with 1 in Hnum.
    rewrite Nat.mul_1_l in Hnum.
    assert (Hm : 0 < B * (PC * HC)) by (repeat apply Nat.mul_pos_pos; assumption).
    apply -> Nat.mul_cancel_l in Hnum; [|lia].
    replace (N * (g * (B * (PC * HC)))) with ((N * g) * (B * (PC * HC)))
      in Hnum by lia.
    apply -> Nat.mul_cancel_r in Hnum; lia. }
  subst x. change (Z.to_nat 1) with 1 in Hsc. split; [exact Hsc|].
  intros p n b q h Hp Hn Hb Hq Hh.
  rewrite (get_reshape _ _ _ _ H)
    by (rewrite Hsc; apply in_bounds6; repeat split; assumption || lia).
  rewrite Hsc, Hs.
  assert (Hdiv : n / g < N) by (apply Nat.Div0.div_lt_upper_bound; lia).
  assert (Hmod : n mod g < g) by (apply Nat.mod_upper_bound; lia).
  replace (ravel [1; pb; N * g; B; PC; HC] [0; p; n; b; q; h])
    with (ravel [pb; N; g; B; PC; HC] [p; n / g; n mod g; b; q; h]).
  - rewrite unravel_ravel; [reflexivity|].
    apply in_bounds6. repeat split; assumption.
  - cbn [ravel numel fold_right]. rewrite !Nat.mul_1_r.
    pose proof (Nat.div_mod_eq n g) as Hn'.
    set (M := B * (PC * HC)). set (r := b * (PC * HC) + (q * HC + (h + 0))).
    rewrite Hn' at 3. lia.
Qed.

(** The arrays of one propagation step: the ranges of the next layer, from
    the ranges [R] of the current one. *)
Lemma propagate_OK R Rn strat A P N B PC HC A' (t g ap : nat) v inner sv sv2 r :
  shape R = [A; P; N; B; PC; HC] ->
  shape Rn = [A'; A - t; N * g; B; PC; HC] ->
  shape strat = [A'; A - t; N * g; B; HC] ->
  t < A -> 0 < g <= P -> 0 < B -> 0 < PC -> 0 < HC ->
  getitem R [Sl (Some (Z.of_nat t)) None; Sl None (Some (Z.of_nat g));
             all; all; all; all] = OK v ->
  transpose v [0; 2; 1; 3; 4; 5] = OK inner ->
  reshape inner [1%Z; Z.of_nat (A - t); (-1)%Z;
                 Z.of_nat B; Z.of_nat PC; Z.of_nat HC] = OK sv ->
  binop mul sv (ones_like Rn) = OK sv2 ->
  iop_at mul sv2 (player_slice (Z.of_nat ap)) strat = OK r ->
  ap < PC /\
  shape r = [A'; A - t; N * g; B; PC; HC] /\
  forall a p n b q h,
    a < A' -> p < A - t -> n < N * g -> b < B -> q < PC -> h < HC ->
    get r [a; p; n; b; q; h]
    = let up := mul (get R [t + p; n mod g; n / g; b; q; h]) one in
      if q =? ap then mul up (get strat [a; p; n; b; h]) else up.
Proof.
  intros HsR HsRn Hss Ht Hg HB HPC HHC Hv Hinner Hsv Hsv2 Hr.
  apply (getitem_inner _ A P N B PC HC) in Hv as (Hsv0 & Hv); try lia;
    [|exact HsR].
  apply (transpose_021345 _ _ _ _ _ _ _ _ Hsv0) in Hinner as (Hsi & Hinner).
  apply (reshape_inner _ _ _ _ _ _ _ _ Hsi) in Hsv as (Hssv & Hsv); try lia.
  apply binop_OK in Hsv2 as (Hssv2 & Hsv2).
  unfold ones_like in Hssv2, Hsv2. cbn [shape full] in Hssv2, Hsv2.
  rewrite Hssv, HsRn, (bshape_cons 1 A' A' _ (bdim_1_l A')) in Hssv2.
  injection Hssv2 as Hssv2. symmetry in Hssv2.
  apply (iop_at_player _ _ _ _ _ _ _ _ _ _ _ Hssv2 Hss) in Hr
    as (Hap & Hsr & Hr).
  split; [exact Hap|]. split; [exact Hsr|].
  intros a p n b q h Ha Hp Hn Hb Hq Hh. cbv zeta.
  assert (Hdiv : n / g < N) by (apply Nat.Div0.div_lt_upper_bound; lia).
  assert (Hmod : n mod g < g) by (apply Nat.mod_upper_bound; lia).
  assert (Hup : forall q', q' < PC ->
            get sv2 [a; p; n; b; q'; h]
            = mul (get R [t + p; n mod g; n / g; b; q'; h]) one).
  { intros q' Hq'.
    assert (Hb6 : in_bounds [A'; A - t; N * g; B; PC; HC] [a; p; n; b; q'; h])
      by (apply in_bounds6; repeat split; assumption).
    rewrite Hsv2 by (rewrite Hssv2; exact Hb6).
    rewrite Hssv, HsRn, (bidx_same _ _ Hb6).
    rewrite bidx_cons_1
      by (apply in_bounds5; repeat split; assumption).
    rewrite get_full by exact Hb6.
    rewrite Hsv by assumption.
    rewrite (Hinner p (n mod g) (n / g) b q' h)
      by (apply in_bounds6; repeat split; assumption).
    rewrite Hv by (apply in_bounds6; repeat split; assumption).
    reflexivity. }
  rewrite Hr by assumption. rewrite !Hup by assumption.
  destruct (Nat.eqb_spec q ap) as [->|]; reflexivity.
Qed.


(** ** Equality of numbers up to the representation of a rational *)

Lemma equiv_refl x : equiv x x.
Proof. destruct x; simpl; auto. reflexivity. Qed.

Lemma equiv_sym x y : equiv x y -> equiv y x.
Proof. destruct x, y; simpl; auto. intros H. symmetry. exact H. Qed.

Lemma equiv_trans x y z : equiv x y -> equiv y z -> equiv x z.
Proof.
  destruct x, y, z; simpl; auto; try contradiction.
  intros H1 H2. rewrite H1. exact H2.
Qed.

Lemma Qzerob_compat a b : (a == b)%Q -> Qzerob a = Qzerob b.
Proof.
  intros H. unfold Qzerob.
  destruct (Qeq_bool a 0) eqn:Ea, (Qeq_bool b 0) eqn:Eb; try reflexivity.
  - apply Qeq_bool_iff in Ea. rewrite H in Ea. apply Qeq_bool_iff in Ea. congruence.
  - apply Qeq_bool_iff in Eb. rewrite <- H in Eb. apply Qeq_bool_iff in Eb. congruence.
Qed.

Lemma Qposb_compat a b : (a == b)%Q -> Qposb a = Qposb b.
Proof.
  intros H. unfold Qposb. f_equal.
  destruct (Qle_bool a 0) eqn:Ea, (Qle_bool b 0) eqn:Eb; try reflexivity.
  - apply Qle_bool_iff in Ea. rewrite H in Ea. apply Qle_bool_iff in Ea. congruence.
  - apply Qle_bool_iff in Eb. rewrite <- H in Eb. apply Qle_bool_iff in Eb. congruence.
Qed.

Lemma inf_scale_compat pos a b : (a == b)%Q -> inf_scale pos a = inf_scale pos b.
Proof.
  intros H. unfold inf_scale.
  rewrite (Qzerob_compat a b H), (Qposb_compat a b H). reflexivity.
Qed.

Lemma mul_equiv x x' y y' : equiv x x' -> equiv y y' -> equiv (mul x y) (mul x' y').
Proof.
  destruct x, x', y, y'; simpl; try contradiction; auto;
    try (intros H1 H2; first [rewrite (inf_scale_compat _ _ _ H1)
                            | rewrite (inf_scale_compat _ _ _ H2)];
         apply equiv_refl).
  intros H1 H2. rewrite H1, H2. reflexivity.
Qed.

Lemma mul_one_r x : equiv (mul x one) x.
Proof. destruct x; simpl; auto. ring. Qed.

Section Propagation.
Context {G : Type}.
Variable cfg : Settings.
Implicit Types s : Lookahead G.

Lemma py_index_of_nat n k x : py_index n (Z.of_nat k) = OK x -> x = k /\ k < n.
Proof.
  intros H. pose proof (py_index_OK _ _ _ H) as Hlt.
  unfold py_index in H. destruct (Z.ltb_spec (Z.of_nat k) 0); [lia|].
  destruct (_ && _); [|discriminate]. injection H as <-.
  rewrite Nat2Z.id in *. auto.
Qed.

Lemma layer_of_nat s k L : layer s (Z.of_nat k) = OK L -> layers s !! k = Some L.
Proof.
  intros H. apply layer_OK in H as (x & Hx & HL).
  apply py_index_of_nat in Hx as [-> _]. exact HL.
Qed.

Lemma modify_layer_of_nat k f s s' :
  modify_layer (Z.of_nat k) f s = OK s' ->
  exists L L', layers s !! k = Some L /\ f L = OK L' /\
               s' = set_layers (<[k := L']> (layers s)) s.
Proof.
  intros H. apply modify_layer_OK in H as (x & L & L' & Hx & HL & Hf & ->).
  apply py_index_of_nat in Hx as [-> _]. eauto.
Qed.

Lemma layer_field_lookup {A} (f : Layer -> A) dflt s k L :
  layers s !! k = Some L -> layer_field f dflt s k = f L.
Proof. unfold layer_field. intros ->. reflexivity. Qed.

(** One step of [_compute_ranges], from the layer [k]. *)
Lemma ranges_step_state s k s' :
  step_shaped cfg s k ->
  ranges_step cfg (Z.of_nat k) s = OK s' ->
  exists Ld Ln inner r,
    layers s !! k = Some Ld /\ layers s !! S k = Some Ln /\
    layers s' = <[S k := set_ranges_data r Ln]>
                  (<[k := set_inner_nodes inner Ld]> (layers s)) /\
    batch_size s' = batch_size s /\
    shape r = shape (ranges_data Ln) /\
    forall a p n b q h,
      in_bounds (shape (ranges_data Ln)) [a; p; n; b; q; h] ->
      get r [a; p; n; b; q; h]
      = let g := grandparent_bets s k in
        let up := mul (get (ranges_data Ld)
                           [terminal_above s k + p; n mod g; n / g; b; q; h])
                      one in
        if q =? actor s k
        then mul up (get (current_strategy_data Ln) [a; p; n; b; h])
        else up.
Proof.
  intros (A & P & N & B & PC & HC & A' & Hsh) H. cbv zeta in Hsh.
  destruct Hsh as (Hlen & HsR & HsRn & Hss & Ht & Hg & HB & HPC & HHC & Hbs
                   & Hpc & Hhc & Hap & Hprev & Hgp).
  unfold ranges_step in H. cbv zeta in H.
  destruct (layer s (Z.of_nat k)) as [Ld|] eqn:ELd; [|discriminate].
  cbn [bind] in H. pose proof (layer_of_nat _ _ _ ELd) as HLd.
  replace (Z.of_nat k + 1)%Z with (Z.of_nat (S k)) in H by lia.
  destruct (layer s (Z.of_nat (S k))) as [Ln|] eqn:ELn; [|discriminate].
  cbn [bind] in H. pose proof (layer_of_nat _ _ _ ELn) as HLn.
  unfold ranges_of, strategy_of in HsR, HsRn, Hss.
  rewrite (layer_field_lookup _ _ _ _ _ HLd) in HsR.
  rewrite (layer_field_lookup _ _ _ _ _ HLd) in Hap.
  rewrite (layer_field_lookup _ _ _ _ _ HLn) in HsRn.
  rewrite (layer_field_lookup _ _ _ _ _ HLn) in Hss.
  (* the counts of the layers above *)
  set (t := terminal_above s k) in *. set (g := grandparent_bets s k) in *.
  assert (Hcounts :
    (if (Z.of_nat k >? 0)%Z
     then do Lp <- layer s (Z.of_nat k - 1);
          OK (terminal_actions_count Lp, bets_count Lp)
     else OK (0%Z, 1%Z))
    = OK (Z.of_nat t, Z.of_nat (A - t)) \/
    (if (Z.of_nat k >? 0)%Z
     then do Lp <- layer s (Z.of_nat k - 1);
          OK (terminal_actions_count Lp, bets_count Lp)
     else OK (0%Z, 1%Z))
    = Raise IndexError).
  { destruct k as [|k'].
    - left. subst t. cbn [terminal_above] in *. rewrite Hprev. reflexivity.
    - assert (E : (Z.of_nat (S k') >? 0)%Z = true) by (apply Z.gtb_lt; lia).
      rewrite E.
      replace (Z.of_nat (S k') - 1)%Z with (Z.of_nat k') by lia.
      unfold layer. rewrite py_index_nonneg by lia. rewrite Nat2Z.id. cbn [bind].
      destruct (layers s !! k') as [Lp|] eqn:HLp; [|right; reflexivity].
      left. cbn [bind]. destruct Hprev as [Hp1 Hp2].
      rewrite (layer_field_lookup _ _ _ _ _ HLp) in Hp1.
      rewrite (layer_field_lookup _ _ _ _ _ HLp) in Hp2.
      assert (Et : Z.of_nat t = terminal_actions_count Lp).
      { subst t. cbn [terminal_above].
        rewrite (layer_field_lookup _ _ _ _ _ HLp), Z2Nat.id by exact Hp1.
        reflexivity. }
      cbn [bind of_option]. rewrite Hp2, <- Et. reflexivity. }
  destruct Hcounts as [Hcounts|Hcounts]; rewrite Hcounts in H;
    [|discriminate]. cbn [bind] in H.
  assert (Hgc :
    (if (Z.of_nat k >? 1)%Z
     then do Lg <- layer s (Z.of_nat k - 2); OK (nonallinbets_count Lg)
     else OK 1%Z)
    = OK (Z.of_nat g) \/
    (if (Z.of_nat k >? 1)%Z
     then do Lg <- layer s (Z.of_nat k - 2); OK (nonallinbets_count Lg)
     else OK 1%Z)
    = Raise IndexError).
  { destruct k as [|[|k'']].
    - left. reflexivity.
    - left. reflexivity.
    - assert (E : (Z.of_nat (S (S k'')) >? 1)%Z = true) by (apply Z.gtb_lt; lia).
      rewrite E.
      replace (Z.of_nat (S (S k'')) - 2)%Z with (Z.of_nat k'') by lia.
      unfold layer. rewrite py_index_nonneg by lia. rewrite Nat2Z.id. cbn [bind].
      destruct (layers s !! k'') as [Lg|] eqn:HLg; [|right; reflexivity].
      left. cbn [bind]. rewrite (layer_field_lookup _ _ _ _ _ HLg) in Hgp.
      assert (Eg : Z.of_nat g = nonallinbets_count Lg).
      { subst g. cbn [grandparent_bets].
        rewrite (layer_field_lookup _ _ _ _ _ HLg), Z2Nat.id by exact Hgp.
        reflexivity. }
      cbn [bind of_option]. rewrite <- Eg. reflexivity. }
  destruct Hgc as [Hgc|Hgc]; rewrite Hgc in H; [|discriminate].
  cbn [bind] in H.
  destruct (getitem (ranges_data Ld) _) as [v|] eqn:Ev; [|discriminate].
  cbn [bind] in H.
  destruct (transpose v _) as [inner|] eqn:Einner; [|discriminate].
  cbn [bind] in H.
  destruct (modify_layer (Z.of_nat k) _ s) as [s1|] eqn:Es1; [|discriminate].
  cbn [bind] in H.
  apply modify_layer_of_nat in Es1 as (L0 & L0' & HL0 & HL0' & ->).
  rewrite HLd in HL0. injection HL0 as <-. injection HL0' as <-.
  cbn [batch_size set_layers] in H. rewrite Hbs, Hpc, Hhc in H.
  destruct (reshape inner _) as [sv|] eqn:Esv; [|discriminate].
  cbn [bind] in H.
  destruct (binop mul sv _) as [sv2|] eqn:Esv2; [|discriminate].
  cbn [bind] in H.
  destruct (modify_layer (Z.of_nat (S k)) _ _) as [s2|] eqn:Es2; [|discriminate].
  cbn [bind] in H.
  apply modify_layer_of_nat in Es2 as (L1 & L1' & HL1 & HL1' & ->).
  cbn [layers set_layers] in HL1.
  rewrite list_lookup_insert_ne in HL1 by lia.
  rewrite HLn in HL1. injection HL1 as <-. injection HL1' as <-.
  apply modify_layer_of_nat in H as (L2 & L2' & HL2 & HL2' & ->).
  cbn [layers set_layers] in HL2.
  rewrite list_lookup_insert_eq in HL2 by (rewrite length_insert; lia).
  injection HL2 as <-. cbn [ranges_data set_ranges_data] in HL2'.
  rewrite <- (Z2Nat.id (acting_player Ld)) in HL2' by exact Hap.
  destruct (iop_at mul sv2 _ _) as [r|] eqn:Er; [|discriminate].
  injection HL2' as <-.
  destruct (propagate_OK _ _ _ A P N B PC HC A' t g _ v inner sv sv2 r
              HsR HsRn Hss Ht Hg HB HPC HHC Ev Einner Esv Esv2 Er)
    as (Hact & Hsr & Hr).
  exists Ld, Ln, inner, r.
  split; [exact HLd|]. split; [exact HLn|]. split.
  { cbn [layers set_layers]. rewrite list_insert_insert_eq. reflexivity. }
  split; [reflexivity|]. split; [congruence|].
  intros a p n b q h Hb. rewrite HsRn in Hb. apply in_bounds6 in Hb.
  destruct Hb as (?&?&?&?&?&?).
  rewrite Hr by assumption. unfold actor.
  rewrite (layer_field_lookup _ _ _ _ _ HLd). reflexivity.
Qed.

End Propagation.

Section Closed.
Context {G : Type}.
Variable cfg : Settings.
Implicit Types s : Lookahead G.


Lemma skeleton_cases s s1 k :
  map skeleton (layers s1) = map skeleton (layers s) ->
  (layers s1 !! k = None /\ layers s !! k = None) \/
  exists L1 L, layers s1 !! k = Some L1 /\ layers s !! k = Some L /\
               skeleton L1 = skeleton L.
Proof.
  intros H. apply (f_equal (fun l => l !! k)) in H.
  rewrite !list_lookup_fmap in H.
  destruct (layers s1 !! k) as [L1|], (layers s !! k) as [L|];
    simpl in H; try discriminate.
  - right. exists L1, L. split; [reflexivity|]. split; [reflexivity|].
    congruence.
  - left. auto.
Qed.

Ltac by_skeleton H k :=
  let L1 := fresh "L1" in
  let L := fresh "L" in
  let E1 := fresh "E1" in
  let E := fresh "E" in
  let Hsk := fresh "Hsk" in
  destruct (skeleton_cases _ _ k H) as [[E1 E]|(L1 & L & E1 & E & Hsk)];
  unfold ranges_of, strategy_of, actor, layer_field;
  rewrite ?E1, ?E; [reflexivity|];
  unfold skeleton in Hsk; injection Hsk as ? ? ? ? ? ?; congruence.

Lemma same_shape_ranges s s1 k :
  map skeleton (layers s1) = map skeleton (layers s) ->
  shape (ranges_of s1 k) = shape (ranges_of s k).
Proof. intros H. by_skeleton H k. Qed.

Lemma same_strategy s s1 k :
  map skeleton (layers s1) = map skeleton (layers s) ->
  strategy_of s1 k = strategy_of s k.
Proof. intros H. by_skeleton H k. Qed.

Lemma same_acting s s1 k :
  map skeleton (layers s1) = map skeleton (layers s) ->
  layer_field acting_player 0%Z s1 k = layer_field acting_player 0%Z s k.
Proof. intros H. by_skeleton H k. Qed.

Lemma same_terminal s s1 k :
  map skeleton (layers s1) = map skeleton (layers s) ->
  layer_field terminal_actions_count 0%Z s1 k
  = layer_field terminal_actions_count 0%Z s k.
Proof. intros H. by_skeleton H k. Qed.

Lemma same_bets s s1 k :
  map skeleton (layers s1) = map skeleton (layers s) ->
  layer_field bets_count 0%Z s1 k = layer_field bets_count 0%Z s k.
Proof. intros H. by_skeleton H k. Qed.

Lemma same_nonallin s s1 k :
  map skeleton (layers s1) = map skeleton (layers s) ->
  layer_field nonallinbets_count 0%Z s1 k
  = layer_field nonallinbets_count 0%Z s k.
Proof. intros H. by_skeleton H k. Qed.

Lemma same_terminal_above s s1 k :
  map skeleton (layers s1) = map skeleton (layers s) ->
  terminal_above s1 k = terminal_above s k.
Proof.
  intros H. destruct k as [|k]; [reflexivity|]. cbn [terminal_above].
  rewrite (same_terminal _ _ _ H). reflexivity.
Qed.

Lemma same_grandparent_bets s s1 k :
  map skeleton (layers s1) = map skeleton (layers s) ->
  grandparent_bets s1 k = grandparent_bets s k.
Proof.
  intros H. destruct k as [|[|k]]; try reflexivity. cbn [grandparent_bets].
  rewrite (same_nonallin _ _ _ H). reflexivity.
Qed.

Lemma same_actor s s1 k :
  map skeleton (layers s1) = map skeleton (layers s) ->
  actor s1 k = actor s k.
Proof. intros H. unfold actor. rewrite (same_acting _ _ _ H). reflexivity. Qed.

Lemma same_length s s1 :
  map skeleton (layers s1) = map skeleton (layers s) ->
  length (layers s1) = length (layers s).
Proof. intros H. apply (f_equal length) in H. rewrite !length_map in H. exact H. Qed.

Lemma step_shaped_same s s1 k :
  same_layout s s1 -> step_shaped cfg s k -> step_shaped cfg s1 k.
Proof.
  intros [H Hb] (A & P & N & B & PC & HC & A' & Hsh). cbv zeta in Hsh.
  exists A, P, N, B, PC, HC, A'. cbv zeta.
  rewrite (same_length _ _ H), !(same_shape_ranges _ _ _ H),
    (same_strategy _ _ _ H), (same_terminal_above _ _ _ H),
    (same_grandparent_bets _ _ _ H), (same_acting _ _ _ H), Hb.
  destruct Hsh as (?&?&?&?&?&?&?&?&?&?&?&?&?&Hprev&Hgp).
  repeat (split; [assumption|]). split.
  - destruct k as [|k']; [exact Hprev|].
    rewrite (same_terminal _ _ _ H), (same_bets _ _ _ H). exact Hprev.
  - destruct k as [|[|k']]; try exact Hgp.
    rewrite (same_nonallin _ _ _ H). exact Hgp.
Qed.


Lemma propagated_step s i s1 s2 :
  step_shaped cfg s i ->
  propagated s i s1 ->
  ranges_step cfg (Z.of_nat i) s1 = OK s2 ->
  propagated s (S i) s2.
Proof.
  intros Hshape [[Hsk Hbs] Hreach] Hstep.
  pose proof (step_shaped_same _ _ _ (conj Hsk Hbs) Hshape) as Hshape1.
  destruct (ranges_step_state cfg _ _ _ Hshape1 Hstep)
    as (Ld & Ln & inner & r & HLd & HLn & Hl2 & Hb2 & Hsr & Hr).
  assert (Hsk2 : map skeleton (layers s2) = map skeleton (layers s1)).
  { rewrite Hl2. rewrite !list_fmap_insert.
    rewrite (list_insert_id (skeleton <$> layers s1) i)
      by (rewrite list_lookup_fmap, HLd; reflexivity).
    apply list_insert_id.
    rewrite list_lookup_fmap, HLn. cbn. unfold skeleton. cbn. rewrite Hsr.
    reflexivity. }
  split; [split; congruence|].
  intros k a p n b q h Hk Hb.
  assert (Hold : forall k', k' <= i -> ranges_of s2 k' = ranges_of s1 k').
  { intros k' Hk'. unfold ranges_of, layer_field. rewrite Hl2.
    rewrite list_lookup_insert_ne by lia.
    destruct (decide (i = k')) as [<-|Hne].
    - rewrite list_lookup_insert_eq by (apply lookup_lt_Some in HLd; exact HLd).
      rewrite HLd. reflexivity.
    - rewrite list_lookup_insert_ne by assumption. reflexivity. }
  destruct (decide (k = S i)) as [->|Hne].
  - (* the layer that the step has computed *)
    assert (Hnew : ranges_of s2 (S i) = r).
    { unfold ranges_of, layer_field. rewrite Hl2.
      rewrite list_lookup_insert_eq; [reflexivity|].
      rewrite length_insert. apply lookup_lt_Some in HLn. exact HLn. }
    rewrite Hnew.
    rewrite <- (same_shape_ranges _ _ _ Hsk) in Hb.
    unfold ranges_of in Hb. rewrite (layer_field_lookup _ _ _ _ _ HLn) in Hb.
    rewrite (Hr _ _ _ _ _ _ Hb). cbv zeta.
    rewrite (same_grandparent_bets _ _ _ Hsk), (same_terminal_above _ _ _ Hsk),
      (same_actor _ _ _ Hsk).
    cbn [reach].
    replace (current_strategy_data Ln) with (strategy_of s (S i)).
    2:{ rewrite <- (same_strategy _ _ _ Hsk). unfold strategy_of.
        rewrite (layer_field_lookup _ _ _ _ _ HLn). reflexivity. }
    replace (ranges_data Ld) with (ranges_of s1 i)
      by (unfold ranges_of; rewrite (layer_field_lookup _ _ _ _ _ HLd);
          reflexivity).
    (* the node above is a node of the layer [i] *)
    destruct Hshape as (A & P & N & B & PC & HC & A' & Hsh). cbv zeta in Hsh.
    destruct Hsh as (_ & HsR & HsRn & _ & Ht & Hg & _).
    assert (HsLn : shape (ranges_data Ln)
                   = [A'; A - terminal_above s i; N * grandparent_bets s i;
                      B; PC; HC]).
    { rewrite <- HsRn, <- (same_shape_ranges _ _ _ Hsk). unfold ranges_of.
      rewrite (layer_field_lookup _ _ _ _ _ HLn). reflexivity. }
    rewrite HsLn in Hb. apply in_bounds6 in Hb as (Ha & Hp & Hn & Hb' & Hq & Hh).
    set (g := grandparent_bets s i) in *. set (t := terminal_above s i) in *.
    assert (Hup : equiv (mul (get (ranges_of s1 i)
                                   [t + p; n mod g; n / g; b; q; h]) one)
                        (reach s i (t + p) (n mod g) (n / g) b q h)).
    { eapply equiv_trans; [apply mul_one_r|].
      apply Hreach; [lia|]. rewrite HsR. apply in_bounds6.
      repeat split; try assumption; try lia.
      - pose proof (Nat.mod_upper_bound n g). lia.
      - apply Nat.Div0.div_lt_upper_bound. lia. }
    destruct (q =? actor s i).
    + apply mul_equiv; [exact Hup|apply equiv_refl].
    + exact Hup.
  - rewrite Hold by lia. apply Hreach; [lia|exact Hb].
Qed.

Lemma propagated_loop s m i s1 s2 :
  (forall k, i <= k < i + m -> step_shaped cfg s k) ->
  propagated s i s1 ->
  for_each (map Z.of_nat (seq i m)) (ranges_step cfg) s1 = OK s2 ->
  propagated s (i + m) s2.
Proof.
  revert i s1. induction m as [|m IH]; intros i s1 Hshape Hinv H; simpl in H.
  - injection H as <-. rewrite Nat.add_0_r. exact Hinv.
  - run_step. rename x into s1'.
    replace (i + S m) with (S i + m) by lia.
    apply (IH (S i) s1'); [intros k Hk; apply Hshape; lia| |exact H].
    eapply propagated_step; [apply Hshape; lia|exact Hinv|exact E].
Qed.

Lemma compute_ranges_reach s s' :
  well_shaped cfg s ->
  _compute_ranges cfg s = OK s' ->
  forall k a p n b q h,
    (Z.of_nat k < depth s)%Z ->
    in_bounds (shape (ranges_of s k)) [a; p; n; b; q; h] ->
    equiv (get (ranges_of s' k) [a; p; n; b; q; h]) (reach s k a p n b q h).
Proof.
  intros Hws H k a p n b q h Hk Hb.
  unfold _compute_ranges in H. cbv zeta in H.
  change (depth (emit (Enter compute_ranges None) s)) with (depth s) in H.
  unfold range in H. rewrite Z.sub_0_r in H.
  rewrite (map_ext _ Z.of_nat) in H by (intros; lia).
  apply (propagated_loop s _ 0) in H.
  - destruct H as [_ H]. apply H; [lia|exact Hb].
  - intros j Hj. apply Hws. lia.
  - split; [split; reflexivity|].
    intros k0 a0 p0 n0 b0 q0 h0 Hk0 _.
    assert (k0 = 0) as -> by lia. apply equiv_refl.
Qed.

End Closed.

(** ** The events of a run *)

Section Events.
Context {G : Type}.
Variable C : Collab G.
Variable cfg : Settings.
Implicit Types s : Lookahead G.

(** The CFVs that the iteration that starts in [s] gives to the gadget. *)
Lemma iteration_events_start iter s s' :
  iteration C cfg iter s = OK s' ->
  exists cf,
    trace s' = trace s ++ iteration_events iter cf /\
    (reconstruction_opponent_cfvs s = None -> cf = None) /\
    (reconstruction_opponent_cfvs s <> None ->
     exists c, cf = Some c /\ gadget_input s = OK c).
Proof.
  intros H. pose proof (iteration_gadget_input _ _ _ _ _ H) as Hin.
  apply iteration_trace in H as (Ht & _ & _).
  unfold gadget_events in Ht.
  destruct (reconstruction_opponent_cfvs s) as [oc|] eqn:Hoc.
  - destruct Hin as [cf Hcf]; [congruence|]. rewrite Hcf in Ht.
    exists (Some cf). split; [exact Ht|]. split; [congruence|].
    intros _. eauto.
  - exists None. split; [exact Ht|]. split; [reflexivity|congruence].
Qed.

Lemma loop_events l s s' :
  for_each l (iteration C cfg) s = OK s' ->
  exists cfs,
    length cfs = length l /\
    trace s' = trace s ++ concat (zip_with iteration_events l cfs) /\
    (reconstruction_opponent_cfvs s = None -> Forall (fun c => c = None) cfs) /\
    (reconstruction_opponent_cfvs s <> None ->
     Forall (fun c => c <> None) cfs).
Proof.
  revert s. induction l as [|iter l IH]; intros s H; simpl in H.
  - injection H as <-. exists []. simpl. rewrite app_nil_r. auto.
  - run_step.
    destruct (iteration_events_start _ _ _ E) as (cf & Ht & Hn & Hs).
    apply iteration_trace in E as (_ & Hf & _).
    apply IH in H as (cfs & Hlen & Ht' & Hn' & Hs').
    rewrite Hf in Hn', Hs'.
    exists (cf :: cfs). simpl. split; [congruence|]. split.
    + rewrite Ht', Ht, <- app_assoc. reflexivity.
    + split; intros Hflag; constructor; auto.
      destruct (Hs Hflag) as (c & -> & _). discriminate.
Qed.

Lemma compute_events s s' :
  _compute C cfg s = OK s' ->
  exists cfs,
    length cfs = Z.to_nat (cfr_iters cfg) /\
    trace s' = trace s ++ run_events (range 0 (cfr_iters cfg)) cfs /\
    (reconstruction_opponent_cfvs s = None -> Forall (fun c => c = None) cfs) /\
    (reconstruction_opponent_cfvs s <> None ->
     Forall (fun c => c <> None) cfs).
Proof.
  unfold _compute. intros H. repeat run_step.
  apply loop_events in E as (cfs & Hlen & Ht & Hn & Hs).
  rewrite length_range, Z.sub_0_r in Hlen.
  apply normalize_average_strategies_enters, enters_trace in E0.
  apply normalize_average_cfvs_enters, enters_trace in H.
  exists cfs. split; [exact Hlen|]. split; [|auto].
  rewrite H, E0, Ht. unfold run_events, final_events.
  rewrite <- !app_assoc. reflexivity.
Qed.

(** What [resolve_first_node] and [resolve] do before [_compute]. *)
Lemma resolve_first_node_compute pr opr s s' :
  resolve_first_node C cfg pr opr s = OK s' ->
  exists s0, frame s s0 /\ _compute C cfg s0 = OK s'.
Proof.
  unfold resolve_first_node. intros H. repeat run_step.
  apply modify_layer_frame in E0, E2.
  eexists. split; [|exact H]. eauto using frame_trans.
Qed.

Lemma resolve_compute pr oc s s' :
  resolve C cfg pr oc s = OK s' ->
  exists s0 c, oc = Some c /\ trace s0 = trace s /\
               reconstruction_opponent_cfvs s0 = Some c /\
               _compute C cfg s0 = OK s'.
Proof.
  unfold resolve. cbv zeta. intros H. repeat run_step.
  apply of_option_OK in E0. apply modify_layer_frame in E1.
  destruct E1 as (Ht & _).
  eexists _, _. split; [exact E0|]. split; [|split; [|exact H]].
  - cbn. rewrite Ht. reflexivity.
  - reflexivity.
Qed.

End Events.

(** ** The phases and the gadget calls of a run *)

Lemma phases_entered_iteration_events iter cf :
  phases_entered (iteration_events iter cf) = iteration_phases.
Proof. destruct cf; reflexivity. Qed.

Lemma phases_entered_loop l cfs :
  length cfs = length l ->
  phases_entered (concat (zip_with iteration_events l cfs))
  = concat (replicate (length l) iteration_phases).
Proof.
  revert cfs. induction l as [|iter l IH]; intros [|cf cfs] Hlen;
    try discriminate; [reflexivity|].
  cbn [zip_with concat length replicate].
  rewrite phases_entered_app, phases_entered_iteration_events, IH
    by (simpl in Hlen; lia).
  reflexivity.
Qed.

Lemma filter_concat_replicate {A} (f : A -> bool) n l :
  List.filter f (concat (replicate n l))
  = concat (replicate n (List.filter f l)).
Proof.
  induction n as [|n IH]; [reflexivity|].
  simpl. rewrite List.filter_app, IH. reflexivity.
Qed.

Lemma gadget_calls_no_gadget l cfs :
  Forall (fun c => c = None) cfs ->
  gadget_calls (concat (zip_with iteration_events l cfs)) = [].
Proof.
  revert cfs. induction l as [|iter l IH]; intros [|cf cfs] H;
    try reflexivity.
  inversion H as [|? ? -> Hcfs]; subst. cbn [zip_with concat].
  rewrite gadget_calls_app. rewrite IH by exact Hcfs. reflexivity.
Qed.

Lemma Forall_None_replicate {A} (l : list (option A)) :
  Forall (fun c => c = None) l -> l = replicate (length l) None.
Proof. induction 1 as [|? ? -> _ IH]; simpl; congruence. Qed.

Lemma Forall_Some_map {A} (l : list (option A)) :
  Forall (fun c => c <> None) l -> exists l', l = map Some l'.
Proof.
  induction 1 as [|[c|] l Hc _ [l' ->]]; [exists []; reflexivity| |congruence].
  exists (c :: l'). reflexivity.
Qed.

Lemma In_range_inv (a b d : Z) : In d (range a b) -> (a <= d < b)%Z.
Proof.
  unfold range. intros H. apply in_map_iff in H as (k & <- & Hk).
  apply in_seq in Hk. lia.
Qed.

Section Runs2.
Context {G : Type}.
Variable C : Collab G.
Variable cfg : Settings.
Implicit Types s : Lookahead G.

(** Assigning to a layer below the root leaves the root alone. *)
Lemma modify_layer_root d f s s' :
  (1 <= d)%Z -> modify_layer d f s = OK s' -> layers s' !! 0 = layers s !! 0.
Proof.
  intros Hd H. apply modify_layer_OK in H as (k & L & L' & Hk & _ & _ & ->).
  cbn. apply list_lookup_insert_ne.
  revert Hk. unfold py_index. cbv zeta.
  destruct (Z.ltb_spec d 0); [lia|].
  destruct (_ && _); [|discriminate]. intros [= <-]. lia.
Qed.

Lemma compute_current_strategies_root s s' :
  _compute_current_strategies cfg s = OK s' -> layers s' !! 0 = layers s !! 0.
Proof.
  unfold _compute_current_strategies. cbv zeta. intros H.
  change (layers s !! 0)
    with (layers (emit (Enter compute_current_strategies None) s) !! 0).
  revert H.
  apply (for_each_rel (fun a b : Lookahead G => layers b !! 0 = layers a !! 0)).
  - reflexivity.
  - intros x y z H1 H2. congruence.
  - intros d x y Hd. apply In_range_inv in Hd.
    apply modify_layer_root. lia.
Qed.

Lemma layer_root s s' L :
  layers s' !! 0 = layers s !! 0 -> layer s 0 = OK L -> layer s' 0 = OK L.
Proof.
  unfold layer. intros Hl H.
  destruct (py_index (length (layers s)) 0) as [k|] eqn:Hk; [|discriminate].
  cbn [bind] in H. apply of_option_OK in H.
  assert (k = 0) as ->.
  { revert Hk. unfold py_index. cbn. destruct (_ <? _)%Z; [|discriminate].
    intros [= <-]. reflexivity. }
  rewrite <- Hl in H.
  rewrite py_index_nonneg by (apply lookup_lt_Some in H; lia).
  change (Z.to_nat 0) with 0. cbn [bind]. rewrite H. reflexivity.
Qed.

(** An iteration is its phases, one after the other. *)
Lemma iteration_in_order iter s :
  iteration C cfg iter s = phases_run C cfg iter iteration_phases s.
Proof.
  unfold iteration, iteration_phases. cbn [phases_run phase_run].
  repeat match goal with
         | |- bind ?m _ = bind ?m _ => destruct m; cbn [bind]; [|reflexivity]
         end.
  destruct (_compute_cumulate_average_cfvs cfg iter _); reflexivity.
Qed.

Lemma compute_in_order s : _compute C cfg s = solve_in_order C cfg s.
Proof.
  unfold _compute, solve_in_order.
  rewrite (for_each_ext _ _ (fun iter => phases_run C cfg iter iteration_phases))
    by (intros; apply iteration_in_order).
  destruct (for_each _ _ s) as [s1|]; cbn [bind]; [|reflexivity].
  unfold final_phases. cbn [phases_run phase_run].
  destruct (_compute_normalize_average_strategies s1); cbn [bind];
    [|reflexivity].
  destruct (_compute_normalize_average_cfvs cfg _); reflexivity.
Qed.

(** A phase that runs records that it was entered, and no other phase. *)
Lemma phase_run_entered iter p s s' :
  phase_run C cfg iter p s = OK s' ->
  phases_entered (trace s') = phases_entered (trace s) ++ [p].
Proof.
  intros H.
  assert (He : forall e, enters (Enter p e) s s' ->
                         phases_entered (trace s')
                         = phases_entered (trace s) ++ [p]).
  { intros e He. rewrite (enters_trace _ _ _ He), phases_entered_app.
    reflexivity. }
  destruct p; cbn [phase_run] in H.
  - destruct (reconstruction_opponent_cfvs s) as [oc|] eqn:Hoc.
    + apply set_opponent_starting_range_on in H; [|congruence].
      destruct H as (g & L0 & cf & r & _ & _ & _ & _ & _ & -> & _).
      rewrite phases_entered_app. reflexivity.
    + apply set_opponent_starting_range_off in H; [|assumption].
      subst s'. cbn [trace emit set_trace]. rewrite phases_entered_app.
      reflexivity.
  - eapply He, current_strategies_enters, H.
  - eapply He, ranges_enters, H.
  - eapply He, update_average_strategies_enters, H.
  - eapply He, terminal_equities_enters, H.
  - eapply He, cfvs_enters, H.
  - eapply He, regrets_enters, H.
  - eapply He, cumulate_average_cfvs_enters, H.
  - eapply He, normalize_average_strategies_enters, H.
  - eapply He, normalize_average_cfvs_enters, H.
Qed.

(** C6: a call of [resolve_first_node] or [resolve] that returns has
    seeded the ranges of the root and then run, on the lookahead so
    seeded, exactly [cfr_iters] iterations, the iterations [0], ...,
    [cfr_iters - 1]: the lookahead that it leaves is the one that
    [solve_in_order] computes.  Every iteration runs its phases in this
    order, each on the lookahead that the one before has left: the
    opponent's range is set (see C7), then regret matching
    ([_compute_current_strategies]), the propagation of the ranges, the
    update of the average strategy, the evaluation of the terminal and
    depth-limited states, the computation of the CFVs, the update of the
    regrets and the accumulation of the average CFVs.  After the loop the
    average strategy and then the average CFVs of the root are
    normalized.  A phase that runs records its entry in the trace, so the
    trace of the run lists the phases in the same order; the phases of the
    solver proper are those of the claim. *)
Theorem resolve_phase_order pr x s s' :
  resolve_first_node C cfg pr x s = OK s' \/ resolve C cfg pr x s = OK s' ->
  (exists s0, trace s0 = trace s /\ solve_in_order C cfg s0 = OK s') /\
  (forall iter p a b,
     phase_run C cfg iter p a = OK b ->
     phases_entered (trace b) = phases_entered (trace a) ++ [p]) /\
  phases_entered (trace s')
  = phases_entered (trace s)
    ++ concat (replicate (Z.to_nat (cfr_iters cfg)) iteration_phases)
    ++ final_phases /\
  solver_phases (trace s')
  = solver_phases (trace s)
    ++ concat (replicate (Z.to_nat (cfr_iters cfg)) cfr_phases)
    ++ final_phases.
Proof.
  intros H.
  assert (Hrun : exists s0, trace s0 = trace s /\ _compute C cfg s0 = OK s').
  { destruct H as [H|H].
    - apply resolve_first_node_compute in H as (s0 & (Ht & _) & H). eauto.
    - apply resolve_compute in H as (s0 & c & _ & Ht & _ & H). eauto. }
  destruct Hrun as (s0 & Ht & Hrun).
  assert (Hp : phases_entered (trace s')
               = phases_entered (trace s)
                 ++ concat (replicate (Z.to_nat (cfr_iters cfg)) iteration_phases)
                 ++ final_phases).
  { apply compute_trace in Hrun as (_ & Hrun & _). rewrite Hrun, Ht.
    reflexivity. }
  split.
  { exists s0. split; [exact Ht|]. rewrite <- compute_in_order. exact Hrun. }
  split; [exact phase_run_entered|].
  split; [exact Hp|].
  unfold solver_phases. rewrite Hp, !List.filter_app, filter_concat_replicate.
  reflexivity.
Qed.

(** C7: in an iteration of a re-solve that was given the opponent's CFVs,
    [_set_opponent_starting_range] calls the gadget once, with the slice of
    player 0 of the CFVs of the layer 0 as they are when the iteration
    starts and with the number of the iteration; the range that the gadget
    returns is written over the slice of player 1 of the ranges of the
    layer 0, and it is there when regret matching is over and the ranges
    are propagated.  A run of [resolve] that returns has called the gadget
    exactly once in every iteration, between the entry of
    [_set_opponent_starting_range] and that of regret matching.  A run of
    [resolve_first_node] on a lookahead that holds no opponent CFVs (as
    [__init__] leaves it) has not called the gadget. *)
Theorem opponent_range_each_iteration :
  (forall iter s s',
     reconstruction_opponent_cfvs s <> None ->
     iteration C cfg iter s = OK s' ->
     exists g L0 cf r s1 s2 s3,
       reconstruction_gadget s = Some g /\
       layer s 0 = OK L0 /\
       getitem (cfvs_data L0) (player_slice 0) = OK cf /\
       setitem (ranges_data L0) (player_slice 1)
               (fst (compute_opponent_range C g cf iter)) = OK r /\
       (forall A P N B PC HC,
          shape (ranges_data L0) = [A; P; N; B; PC; HC] ->
          forall a p n b q h,
            in_bounds [A; P; N; B; PC; HC] [a; p; n; b; q; h] ->
            get r [a; p; n; b; q; h]
            = if q =? 1
              then let o := fst (compute_opponent_range C g cf iter) in
                   get o (bidx (shape o) [a; p; n; b; h])
              else get (ranges_data L0) [a; p; n; b; q; h]) /\
       _set_opponent_starting_range C iter s = OK s1 /\
       layer s1 0 = OK (set_ranges_data r L0) /\
       _compute_current_strategies cfg s1 = OK s2 /\
       layer s2 0 = OK (set_ranges_data r L0) /\
       _compute_ranges cfg s2 = OK s3 /\
       trace s' = trace s ++ iteration_events iter (Some cf)) /\
  (forall pr oc s s',
     resolve C cfg pr oc s = OK s' ->
     exists cfs,
       length cfs = Z.to_nat (cfr_iters cfg) /\
       trace s' = trace s ++ run_events (range 0 (cfr_iters cfg)) (map Some cfs) /\
       map snd (gadget_calls (trace s'))
       = map snd (gadget_calls (trace s)) ++ range 0 (cfr_iters cfg)) /\
  (forall pr opr s s',
     reconstruction_opponent_cfvs s = None ->
     resolve_first_node C cfg pr opr s = OK s' ->
     trace s' = trace s ++ run_events (range 0 (cfr_iters cfg))
                             (replicate (Z.to_nat (cfr_iters cfg)) None) /\
     gadget_calls (trace s') = gadget_calls (trace s)).
Proof.
  split; [|split].
  - intros iter s s' Hflag H.
    destruct (iteration_events_start _ _ _ _ _ H) as (cf' & Ht & _ & Hcf).
    destruct (Hcf Hflag) as (cf & -> & Hin). clear Hcf.
    unfold iteration in H.
    destruct (_set_opponent_starting_range C iter s) as [s1|] eqn:E1;
      [|discriminate]. cbn [bind] in H.
    destruct (_compute_current_strategies cfg s1) as [s2|] eqn:E2;
      [|discriminate]. cbn [bind] in H.
    destruct (_compute_ranges cfg s2) as [s3|] eqn:E3; [|discriminate].
    pose proof (set_opponent_starting_range_on _ _ _ _ Hflag E1)
      as (g & L0 & cf0 & r & Hg & HL0 & Hin0 & Hr & HL1 & _).
    rewrite Hin in Hin0. injection Hin0 as <-.
    exists g, L0, cf, r, s1, s2, s3.
    split; [exact Hg|]. split; [exact HL0|]. split.
    { unfold gadget_input in Hin. rewrite HL0 in Hin. exact Hin. }
    split; [exact Hr|]. split.
    { intros A P N B PC HC Hsh a p n b q h Hb. apply in_bounds6 in Hb.
      destruct Hb as (?&?&?&?&?&?).
      change 1%Z with (Z.of_nat 1) in Hr.
      destruct (setitem_player_any _ _ _ _ _ _ _ _ _ _ Hsh Hr) as (_ & _ & Hget).
      cbv zeta. apply Hget; assumption. }
    split; [first [exact E1|reflexivity]|]. split; [exact HL1|].
    split; [first [exact E2|reflexivity]|].
    split; [|split; [first [exact E3|reflexivity]|exact Ht]].
    eapply layer_root; [|exact HL1].
    apply compute_current_strategies_root, E2.
  - intros pr oc s s' H.
    apply resolve_compute in H as (s0 & c & _ & Ht & Hflag & H).
    pose proof (compute_trace _ _ _ _ H) as (_ & _ & Hcalls).
    apply compute_events in H as (cfs & Hlen & Ht' & _ & Hs).
    destruct (Forall_Some_map cfs) as [cfs' ->]; [apply Hs; congruence|].
    exists cfs'. rewrite length_map in Hlen. split; [exact Hlen|].
    rewrite Ht in Ht', Hcalls. rewrite Hflag in Hcalls. auto.
  - intros pr opr s s' Hflag H.
    apply resolve_first_node_compute in H as (s0 & (Ht & Hf & _) & H).
    apply compute_events in H as (cfs & Hlen & Ht' & Hn & _).
    rewrite Hf in Hn. specialize (Hn Hflag).
    pose proof (Forall_None_replicate _ Hn) as Hcfs. rewrite Hlen in Hcfs.
    rewrite Ht in Ht'. split; [rewrite Ht', Hcfs; reflexivity|].
    rewrite Ht'. unfold run_events.
    rewrite !gadget_calls_app, gadget_calls_no_gadget by exact Hn.
    simpl. rewrite app_nil_r. reflexivity.
Qed.

End Runs2.

(** ** Regrets that are not numbers *)

(** [np.clip] lets a NaN through, and nothing else below its lower bound. *)
Lemma clip_nan_or_nonneg hi x :
  (0 <= hi)%Q -> is_nan (clip 0 hi x) = false -> nonneg (clip 0 hi x).
Proof.
  intros Hhi. destruct x as [q| | |]; intros Hn.
  - apply clip_nonneg; [reflexivity|exact Hhi].
  - unfold clip, maximum, minimum, leb. exact Hhi.
  - unfold clip, maximum, minimum, leb.
    change (Qle_bool 0 0) with true. cbv iota.
    destruct (Qle_bool 0 hi) eqn:E; [apply Qle_refl|exact Hhi].
  - discriminate.
Qed.

Section Regrets2.
Context {G : Type}.
Variable cfg : Settings.
Implicit Types s : Lookahead G.

Lemma regrets_loop_nan (l : list Z) s v s' v' :
  (0 <= max_number cfg)%Q ->
  for_each l (regrets_step cfg) (s, v) = OK (s', v') ->
  forall d, In d l -> forall L, layer s' d = OK L ->
    Forall (fun x => is_nan x = false -> nonneg x) (data (regrets_data L)).
Proof.
  intros Hmax.
  set (P := fun (s : Lookahead G) (d : Z) =>
              forall L, layer s d = OK L ->
                Forall (fun x => is_nan x = false -> nonneg x)
                       (data (regrets_data L))).
  enough (Hgen : forall s v, for_each l (regrets_step cfg) (s, v) = OK (s', v') ->
                 forall d, In d l \/ P s d -> P s' d).
  { intros H d Hd. apply (Hgen _ _ H). left. exact Hd. }
  clear s v. induction l as [|d0 l IH]; intros s v H; simpl in H.
  - injection H as <- <-. intros d [[]|Hd]. exact Hd.
  - run_step. destruct x as [s1 v1].
    apply regrets_step_OK in E as (k & L & r & Hk & HL & Hs1 & _).
    assert (Hgood : forall d, d = d0 \/ P s d -> P s1 d).
    { intros d Hd L1 HL1. apply layer_OK in HL1 as (k1 & Hk1 & HL1).
      rewrite Hs1 in Hk1, HL1. rewrite length_insert in Hk1.
      destruct (decide (k = k1)) as [<-|Hne].
      - rewrite list_lookup_insert_eq in HL1
          by (apply lookup_lt_Some in HL; exact HL).
        injection HL1 as <-. cbn [regrets_data set_regrets_data].
        unfold amap. apply Forall_build.
        intros idx _. apply clip_nan_or_nonneg, Hmax.
      - rewrite list_lookup_insert_ne in HL1 by assumption.
        destruct Hd as [->|Hd]; [congruence|].
        apply Hd. unfold layer. rewrite Hk1. simpl. rewrite HL1. reflexivity. }
    intros d [[->|Hin]|Hd]; apply (IH _ _ H); auto.
Qed.

(** C3: when [_compute_regrets] returns, in whatever iteration, every
    entry of the regrets of every layer below the root that is a number is
    at least 0: the sum of the regrets and of the regrets of the iteration
    is clipped to [[0, max_number]].  Every entry is at least 0 when the
    CFVs and the regrets that the phase starts from are numbers ([np.clip]
    lets a NaN through). *)
Theorem regrets_nonneg_after_compute_regrets s s' d L :
  (0 <= max_number cfg)%Q ->
  _compute_regrets cfg s = OK s' ->
  (1 <= d < depth s)%Z ->
  layer s' d = OK L ->
  Forall (fun x => is_nan x = false -> nonneg x) (data (regrets_data L)) /\
  (fin_layers s -> Forall nonneg (data (regrets_data L))).
Proof.
  intros Hmax H Hd HL. split.
  - unfold _compute_regrets in H. cbv zeta in H. run_step.
    injection H as <-. destruct x as [s1 v1]. cbn [fst] in HL.
    eapply regrets_loop_nan; [exact Hmax|exact E| |exact HL].
    apply In_range_down. cbn. lia.
  - intros Hfin. exact (compute_regrets_nonneg cfg s s' Hmax Hfin H d Hd L HL).
Qed.

End Regrets2.

(** ** The claims about the ranges, the final pass and the results *)

Section Claims.
Context {G : Type}.
Variable C : Collab G.
Variable cfg : Settings.
Implicit Types s : Lookahead G.

Lemma compute_ranges_propagated s s' :
  well_shaped cfg s ->
  _compute_ranges cfg s = OK s' ->
  propagated s (Z.to_nat (depth s - 1)) s'.
Proof.
  intros Hws H.
  unfold _compute_ranges in H. cbv zeta in H.
  change (depth (emit (Enter compute_ranges None) s)) with (depth s) in H.
  unfold range in H. rewrite Z.sub_0_r in H.
  rewrite (map_ext _ Z.of_nat) in H by (intros; lia).
  apply (propagated_loop cfg s _ 0) in H.
  - exact H.
  - intros j Hj. apply Hws. lia.
  - split; [split; reflexivity|].
    intros k0 a0 p0 n0 b0 q0 h0 Hk0 _.
    assert (k0 = 0) as -> by lia. apply equiv_refl.
Qed.

(** C2: [_compute_ranges] leaves the current strategies as
    they are, and when it returns, for every layer [k] from the root to
    [depth - 2], the ranges of a node of the layer [k + 1] are those of its
    parent, an inner node of the layer [k], times the current strategy of
    the layer [k + 1] for the player who acts at the layer [k], and
    unchanged for the other player.  So the range of a player at a node is
    that player's range at the root times the product of that player's
    strategies at the actions on the path from the root. *)
Theorem compute_ranges_reach_from_root s s' :
  well_shaped cfg s ->
  _compute_ranges cfg s = OK s' ->
  (forall k, strategy_of s' k = strategy_of s k) /\
  (forall k a p n b q h,
     (Z.of_nat (S k) < depth s)%Z ->
     in_bounds (shape (ranges_of s (S k))) [a; p; n; b; q; h] ->
     let g := grandparent_bets s k in
     let up := get (ranges_of s' k)
                   [terminal_above s k + p; n mod g; n / g; b; q; h] in
     equiv (get (ranges_of s' (S k)) [a; p; n; b; q; h])
           (if q =? actor s k
            then mul up (get (strategy_of s' (S k)) [a; p; n; b; h])
            else up)) /\
  (forall k a p n b q h,
     (Z.of_nat k < depth s)%Z ->
     in_bounds (shape (ranges_of s k)) [a; p; n; b; q; h] ->
     equiv (get (ranges_of s' k) [a; p; n; b; q; h]) (reach s k a p n b q h)).
Proof.
  intros Hws H. destruct (compute_ranges_propagated _ _ Hws H) as [[Hsk _] Hreach].
  assert (Hclosed : forall k a p n b q h,
             (Z.of_nat k < depth s)%Z ->
             in_bounds (shape (ranges_of s k)) [a; p; n; b; q; h] ->
             equiv (get (ranges_of s' k) [a; p; n; b; q; h])
                   (reach s k a p n b q h)).
  { intros k a p n b q h Hk Hb. apply Hreach; [lia|exact Hb]. }
  split; [intros k; apply same_strategy, Hsk|]. split; [|exact Hclosed].
  intros k a p n b q h Hk Hb. cbv zeta.
  rewrite (same_strategy _ _ _ Hsk).
  eapply equiv_trans; [apply Hclosed; [exact Hk|exact Hb]|].
  cbn [reach]. cbv zeta.
  assert (Hup : equiv (reach s k (terminal_above s k + p)
                         (n mod grandparent_bets s k)
                         (n / grandparent_bets s k) b q h)
                      (get (ranges_of s' k)
                         [terminal_above s k + p; n mod grandparent_bets s k;
                          n / grandparent_bets s k; b; q; h])).
  { apply equiv_sym, Hclosed; [lia|].
    destruct (Hws k Hk) as (A & P & N & B & PC & HC & A' & Hsh).
    cbv zeta in Hsh.
    destruct Hsh as (_ & HsR & HsRn & _ & Ht & Hg & _).
    rewrite HsRn in Hb. rewrite HsR.
    apply in_bounds6 in Hb. destruct Hb as (?&?&?&?&?&?).
    apply in_bounds6. repeat split; try assumption.
    - lia.
    - pose proof (Nat.mod_upper_bound n (grandparent_bets s k)). lia.
    - apply Nat.Div0.div_lt_upper_bound. lia. }
  destruct (q =? actor s k); [|exact Hup].
  apply mul_equiv; [exact Hup|apply equiv_refl].
Qed.



(** C9: [get_chance_action_cfv] with an action that the mapping from
    actions to batch indices does not hold returns no value: the look-up
    raises (a [KeyError], once the outputs of the next street could be
    viewed per player and hand).  With an action that the mapping holds, it
    returns the vector of the current player at the batch index of the
    action, taken from the outputs after the collaborator has evaluated
    them on the board, times the pot size of the next round at that
    index. *)
Theorem get_chance_action_cfv_by_action action board s :
  (action_to_index s !! action = None ->
   (forall r, get_chance_action_cfv C cfg action board s <> OK r) /\
   (forall box,
      reshape (next_street_boxes_outputs s)
              [-1; players_count cfg; hand_count cfg]%Z = OK box ->
      get_chance_action_cfv C cfg action board s = Raise KeyError)) /\
  (forall bi box n P H m,
     action_to_index s !! action = Some bi ->
     reshape (next_street_boxes_outputs s)
             [-1; players_count cfg; hand_count cfg]%Z = OK box ->
     shape box = [n; P; H] ->
     shape (next_round_pot_sizes s) = [m] ->
     (0 <= bi < Z.of_nat n)%Z -> (0 <= bi < Z.of_nat m)%Z ->
     (0 <= current_player (tree s) < Z.of_nat P)%Z ->
     exists out s',
       get_chance_action_cfv C cfg action board s = OK (out, s') /\
       shape out = [H] /\
       forall h, h < H ->
         get out [h]
         = mul (get (mkArr (shape box) (data (get_value_on_board C board box)))
                    [Z.to_nat bi; Z.to_nat (current_player (tree s)); h])
               (get (next_round_pot_sizes s) [Z.to_nat bi])).
Proof.
  split.
  - apply get_chance_action_cfv_unmapped.
  - intros bi box n P H m. apply get_chance_action_cfv_mapped.
Qed.

End Claims.

(** ** The claims on small lookaheads *)

Lemma deep_well_shaped : well_shaped (Toy.cfg 3 1) Toy.deep.
Proof.
  intros k Hk. change (depth Toy.deep) with 4%Z in Hk.
  destruct k as [|[|[|k]]]; [| | |lia].
  - exists 1, 1, 1, 1, 2, 2, 5. vm_compute. repeat split; try lia; discriminate.
  - exists 5, 1, 1, 1, 2, 2, 3. vm_compute. repeat split; try lia; discriminate.
  - exists 3, 3, 1, 1, 2, 2, 2. vm_compute. repeat split; try lia; discriminate.
Qed.

Lemma compute_ranges_reach_from_root_witness :
  exists s',
    _compute_ranges (Toy.cfg 3 1) Toy.deep = OK s' /\
    (forall k, strategy_of s' k = strategy_of Toy.deep k) /\
    (forall k a p n b q h,
       (Z.of_nat (S k) < depth Toy.deep)%Z ->
       in_bounds (shape (ranges_of Toy.deep (S k))) [a; p; n; b; q; h] ->
       let g := grandparent_bets Toy.deep k in
       let up := get (ranges_of s' k)
                     [terminal_above Toy.deep k + p; n mod g; n / g; b; q; h] in
       equiv (get (ranges_of s' (S k)) [a; p; n; b; q; h])
             (if q =? actor Toy.deep k
              then mul up (get (strategy_of s' (S k)) [a; p; n; b; h])
              else up)) /\
    (forall k a p n b q h,
       (Z.of_nat k < depth Toy.deep)%Z ->
       in_bounds (shape (ranges_of Toy.deep k)) [a; p; n; b; q; h] ->
       equiv (get (ranges_of s' k) [a; p; n; b; q; h])
             (reach Toy.deep k a p n b q h)).
Proof.
  destruct (_compute_ranges (Toy.cfg 3 1) Toy.deep) as [s'|e] eqn:E.
  - exists s'. split; [reflexivity|].
    exact (compute_ranges_reach_from_root (Toy.cfg 3 1) Toy.deep s'
             deep_well_shaped E).
  - vm_compute in E. discriminate E.
Defined.

Lemma played_fin_layers : fin_layers Toy.played.
Proof.
  intros k L H. destruct k as [|[|k]]; [| |discriminate H];
    injection H as <-; split; vm_compute; repeat constructor.
Qed.

Lemma regrets_nonneg_after_compute_regrets_witness :
  exists s' L,
    _compute_regrets (Toy.cfg 3 1) Toy.played = OK s' /\
    layer s' 1 = OK L /\
    Forall (fun x => is_nan x = false -> nonneg x) (data (regrets_data L)) /\
    (fin_layers Toy.played -> Forall nonneg (data (regrets_data L))).
Proof.
  destruct (_compute_regrets (Toy.cfg 3 1) Toy.played) as [s'|e] eqn:E.
  - destruct (layer s' 1) as [L|e] eqn:EL.
    + exists s', L. split; [reflexivity|]. split; [exact EL|].
      apply (regrets_nonneg_after_compute_regrets
               (Toy.cfg 3 1) Toy.played s' 1%Z L); [|exact E| |exact EL].
      * vm_compute. discriminate.
      * vm_compute. split; [discriminate|reflexivity].
    + vm_compute in E. injection E as <-. vm_compute in EL. discriminate EL.
  - vm_compute in E. discriminate E.
Defined.




Lemma resolve_phase_order_witness :
  (exists s',
     resolve_first_node Toy.collab (Toy.cfg 3 1) (Some Toy.uniform)
                        (Some Toy.uniform) Toy.lookahead = OK s' /\
     (exists s0, trace s0 = trace Toy.lookahead /\
                 solve_in_order Toy.collab (Toy.cfg 3 1) s0 = OK s') /\
     phases_entered (trace s')
     = concat (replicate 3 iteration_phases) ++ final_phases /\
     solver_phases (trace s')
     = concat (replicate 3 cfr_phases) ++ final_phases) /\
  (exists s',
     resolve Toy.collab (Toy.cfg 3 1) (Some Toy.uniform)
             (Some Toy.uniform) Toy.lookahead = OK s' /\
     (exists s0, trace s0 = trace Toy.lookahead /\
                 solve_in_order Toy.collab (Toy.cfg 3 1) s0 = OK s') /\
     phases_entered (trace s')
     = concat (replicate 3 iteration_phases) ++ final_phases /\
     solver_phases (trace s')
     = concat (replicate 3 cfr_phases) ++ final_phases).
Proof.
  split.
  - destruct (resolve_first_node Toy.collab (Toy.cfg 3 1) (Some Toy.uniform)
                (Some Toy.uniform) Toy.lookahead) as [s'|e] eqn:E.
    + exists s'. split; [reflexivity|].
      destruct (resolve_phase_order Toy.collab (Toy.cfg 3 1) _ _ _ _
                  (or_introl E)) as (Hrun & _ & Hp & Hs).
      split; [exact Hrun|]. split; [exact Hp|exact Hs].
    + vm_compute in E. discriminate E.
  - destruct (resolve Toy.collab (Toy.cfg 3 1) (Some Toy.uniform)
                (Some Toy.uniform) Toy.lookahead) as [s'|e] eqn:E.
    + exists s'. split; [reflexivity|].
      destruct (resolve_phase_order Toy.collab (Toy.cfg 3 1) _ _ _ _
                  (or_intror E)) as (Hrun & _ & Hp & Hs).
      split; [exact Hrun|]. split; [exact Hp|exact Hs].
    + vm_compute in E. discriminate E.
Defined.

Lemma opponent_range_each_iteration_witness :
  (exists s' L0 cf r s1 s2,
     iteration Toy.collab (Toy.cfg 3 1) 0 Toy.reconstructing = OK s' /\
     layer Toy.reconstructing 0 = OK L0 /\
     getitem (cfvs_data L0) (player_slice 0) = OK cf /\
     setitem (ranges_data L0) (player_slice 1)
             (fst (compute_opponent_range Toy.collab tt cf 0)) = OK r /\
     _set_opponent_starting_range Toy.collab 0 Toy.reconstructing = OK s1 /\
     _compute_current_strategies (Toy.cfg 3 1) s1 = OK s2 /\
     layer s2 0 = OK (set_ranges_data r L0) /\
     trace s' = iteration_events 0 (Some cf)) /\
  (exists s',
     resolve Toy.collab (Toy.cfg 3 1) (Some Toy.uniform)
             (Some Toy.uniform) Toy.lookahead = OK s' /\
     map snd (gadget_calls (trace s')) = [0; 1; 2]%Z) /\
  (exists s',
     resolve_first_node Toy.collab (Toy.cfg 3 1) (Some Toy.uniform)
                        (Some Toy.uniform) Toy.lookahead = OK s' /\
     gadget_calls (trace s') = []).
Proof.
  pose proof (opponent_range_each_iteration Toy.collab (Toy.cfg 3 1))
    as (Hiter & Hresolve & Hfirst).
  split; [|split].
  - destruct (iteration Toy.collab (Toy.cfg 3 1) 0 Toy.reconstructing)
      as [s'|e] eqn:E.
    + assert (Hflag : reconstruction_opponent_cfvs Toy.reconstructing <> None)
        by discriminate.
      destruct (Hiter 0%Z Toy.reconstructing s' Hflag E)
        as (g & L0 & cf & r & s1 & s2 & s3 & Hg & HL0 & Hcf & Hr & _ & Hs1
            & _ & Hs2 & HL2 & _ & Ht).
      injection Hg as <-.
      exists s', L0, cf, r, s1, s2. repeat split; assumption.
    + vm_compute in E. discriminate E.
  - destruct (resolve Toy.collab (Toy.cfg 3 1) (Some Toy.uniform)
                (Some Toy.uniform) Toy.lookahead) as [s'|e] eqn:E.
    + exists s'. split; [reflexivity|].
      destruct (Hresolve _ _ _ _ E) as (cfs & _ & _ & Hcalls).
      exact Hcalls.
    + vm_compute in E. discriminate E.
  - destruct (resolve_first_node Toy.collab (Toy.cfg 3 1) (Some Toy.uniform)
                (Some Toy.uniform) Toy.lookahead) as [s'|e] eqn:E.
    + exists s'. split; [reflexivity|].
      exact (proj2 (Hfirst (Some Toy.uniform) (Some Toy.uniform)
                      Toy.lookahead s' eq_refl E)).
    + vm_compute in E. discriminate E.
Defined.



Lemma get_chance_action_cfv_by_action_witness :
  get_chance_action_cfv Toy.collab (Toy.cfg 3 1) (-2) [] Toy.lookahead
  = Raise KeyError /\
  exists out s',
    get_chance_action_cfv Toy.collab (Toy.cfg 3 1) (-1) [] Toy.lookahead
    = OK (out, s') /\
    shape out = [2] /\
    get out [0] = Fin 6 /\ get out [1] = Fin 9.
Proof.
  split.
  - destruct (get_chance_action_cfv_by_action Toy.collab (Toy.cfg 3 1)
                (-2) [] Toy.lookahead) as [Hun _].
    destruct (Hun eq_refl) as [_ Hraise].
    exact (Hraise (mkArr [1; 2; 2] [Fin 1; Fin 2; Fin 3; Fin 4]) eq_refl).
  - destruct (get_chance_action_cfv_by_action Toy.collab (Toy.cfg 3 1)
                (-1) [] Toy.lookahead) as [_ Hmap].
    destruct (Hmap 0%Z (mkArr [1; 2; 2] [Fin 1; Fin 2; Fin 3; Fin 4])
                1 2 2 1 eq_refl eq_refl eq_refl eq_refl)
      as (out & s' & Hrun & Hsh & Hget); [cbn; lia..|].
    exists out, s'. split; [exact Hrun|]. split; [exact Hsh|].
    split; [rewrite (Hget 0) by lia|rewrite (Hget 1) by lia]; reflexivity.
Defined.

(** ** The averages of the CFVs *)

Lemma range_split (a b c : Z) :
  (a <= b <= c)%Z -> range a c = range a b ++ range b c.
Proof.
  intros H. unfold range.
  replace (Z.to_nat (c - a)) with (Z.to_nat (b - a) + Z.to_nat (c - b)) by lia.
  rewrite seq_app, map_app. f_equal.
  rewrite Nat.add_0_l, <- (Nat.add_0_r (Z.to_nat (b - a))) at 1.
  rewrite <- fmap_add_seq, <- list_fmap_compose.
  apply map_ext. intros k. cbn. lia.
Qed.

Lemma filter_none {A} (f : A -> bool) l :
  (forall x, In x l -> f x = false) -> List.filter f l = [].
Proof.
  induction l as [|x l IH]; intros H; [reflexivity|].
  simpl. rewrite (H x) by (left; reflexivity).
  apply IH. intros y Hy. apply H. right. exact Hy.
Qed.

(** The iterations that add to the averages are those after the iteration
    [cfr_skip_iters], which is one iteration less than the final pass
    divides by. *)
Lemma accumulating_iterations cfg :
  (0 <= cfr_skip_iters cfg < cfr_iters cfg)%Z ->
  List.filter (accumulates cfg) (range 0 (cfr_iters cfg))
  = range (cfr_skip_iters cfg + 1) (cfr_iters cfg) /\
  Z.of_nat (length (List.filter (accumulates cfg) (range 0 (cfr_iters cfg))))
  = (normalize_divisor cfg - 1)%Z.
Proof.
  intros H.
  assert (E : List.filter (accumulates cfg) (range 0 (cfr_iters cfg))
              = range (cfr_skip_iters cfg + 1) (cfr_iters cfg)).
  { rewrite (range_split 0 (cfr_skip_iters cfg + 1)) by lia.
    rewrite List.filter_app.
    assert (E1 : List.filter (accumulates cfg)
                   (range 0 (cfr_skip_iters cfg + 1)) = []).
    { apply filter_none. intros d Hd.
      apply In_range_inv in Hd. unfold accumulates.
      destruct (Z.gtb_spec d (cfr_skip_iters cfg)); [lia|reflexivity]. }
    assert (E2 : List.filter (accumulates cfg)
                   (range (cfr_skip_iters cfg + 1) (cfr_iters cfg))
                 = range (cfr_skip_iters cfg + 1) (cfr_iters cfg)).
    { apply List.forallb_filter_id. apply List.forallb_forall. intros d Hd.
      apply In_range_inv in Hd. unfold accumulates.
      destruct (Z.gtb_spec d (cfr_skip_iters cfg)); [reflexivity|lia]. }
    rewrite E1, E2. reflexivity. }
  split; [exact E|].
  rewrite E, length_range. unfold normalize_divisor. lia.
Qed.

(** C1: with 3 iterations of which 1 is to be skipped, 2 iterations ought
    to add their CFVs to the averages and the final pass divides by 2.  But
    [iter > cfr_skip_iters] holds for the iteration 2 alone, the iterations
    being numbered from 0: the sum of the CFVs of the root after the loop
    is that of one iteration, and the average that the re-solve leaves is
    half of it.  The divisor is not the number of iterations that were
    accumulated. *)
Theorem average_cfvs_divisor_exceeds_accumulated :
  let cfg := Toy.cfg 3 1 in
  List.filter (accumulates cfg) (range 0 (cfr_iters cfg)) = [2%Z] /\
  normalize_divisor cfg = 2%Z /\
  exists s1 L1 s' L',
    for_each (range 0 (cfr_iters cfg)) (iteration Toy.collab cfg) Toy.lookahead
    = OK s1 /\
    layer s1 0 = OK L1 /\
    map canon (data (cfvs_data L1))
    = [Fin (438 # 157); Fin (438 # 157); Fin (372 # 157); Fin (372 # 157)] /\
    map canon (data (average_cfvs_data L1))
    = [Fin (438 # 157); Fin (438 # 157); Fin (372 # 157); Fin (372 # 157)] /\
    resolve_first_node Toy.collab cfg (Some Toy.uniform) (Some Toy.uniform)
                       Toy.lookahead = OK s' /\
    layer s' 0 = OK L' /\
    map canon (data (average_cfvs_data L'))
    = [Fin (219 # 157); Fin (219 # 157); Fin (186 # 157); Fin (186 # 157)].
Proof.
  cbv zeta. split; [reflexivity|]. split; [reflexivity|].
  destruct (for_each (range 0 (cfr_iters (Toy.cfg 3 1)))
              (iteration Toy.collab (Toy.cfg 3 1)) Toy.lookahead)
    as [s1|e] eqn:E1; [|vm_compute in E1; discriminate E1].
  destruct (resolve_first_node Toy.collab (Toy.cfg 3 1) (Some Toy.uniform)
              (Some Toy.uniform) Toy.lookahead)
    as [s'|e] eqn:E; [|vm_compute in E; discriminate E].
  vm_compute in E1. injection E1 as <-.
  vm_compute in E. injection E as <-.
  eexists _, _, _, _. repeat split; reflexivity.
Qed.

(** C4: the docstring of [get_results] promises [children_cfvs] as a
    tensor of actions by hands, each action's accumulated CFVs divided by
    that action's scaler.  After a re-solve of a lookahead with 2 actions,
    2 hands and 1 batch, [children_cfvs] has the shape [[2; 2; 2]]: the
    CFVs, reshaped to [[2; 2]], are divided by a scaler of the shape
    [[2; 1; 2]], which numpy broadcasts, so the entry [[i; j; h]] is the
    CFV of the action [j] divided by the scaler of the action [i].  With 2
    batches the shapes [[4; 2]] and [[2; 2; 2]] do not broadcast and
    [get_results] raises a [ValueError]. *)
Theorem children_cfvs_divided_across_actions :
  let cfg := Toy.cfg 3 1 in
  (exists s' L1 out c,
     resolve_first_node Toy.collab cfg (Some Toy.uniform) (Some Toy.uniform)
                        Toy.lookahead = OK s' /\
     layer s' 1 = OK L1 /\
     shape (average_cfvs_data L1) = [2; 1; 1; 1; 2; 2] /\
     map canon (data (average_cfvs_data L1))
     = [Fin (33 # 157); Fin (33 # 157); Fin (-3 # 2); Fin (-3 # 2);
        Fin (405 # 157); Fin (405 # 157); Fin 3; Fin 3] /\
     get_results cfg s' = OK out /\
     children_cfvs out = Some c /\
     shape c = [2; 2; 2] /\
     map canon (data c)
     = [Fin (3 # 4); Fin (3 # 4); Fin (405 # 44); Fin (405 # 44);
        Fin (11 # 90); Fin (11 # 90); Fin (3 # 2); Fin (3 # 2)]) /\
  (exists s',
     resolve_first_node Toy.collab cfg (Some Toy.uniform2) (Some Toy.uniform2)
                        Toy.lookahead2 = OK s' /\
     get_results cfg s' = Raise ValueError).
Proof.
  cbv zeta. split.
  - destruct (resolve_first_node Toy.collab (Toy.cfg 3 1) (Some Toy.uniform)
                (Some Toy.uniform) Toy.lookahead)
      as [s'|e] eqn:E; [|vm_compute in E; discriminate E].
    vm_compute in E. injection E as <-.
    eexists _, _, _, _. split; [reflexivity|].
    split; [vm_compute; reflexivity|].
    split; [reflexivity|]. split; [reflexivity|].
    split; [vm_compute; reflexivity|].
    split; [reflexivity|]. split; reflexivity.
  - destruct (resolve_first_node Toy.collab (Toy.cfg 3 1) (Some Toy.uniform2)
                (Some Toy.uniform2) Toy.lookahead2)
      as [s'|e] eqn:E; [|vm_compute in E; discriminate E].
    exists s'. split; [reflexivity|].
    vm_compute in E. injection E as <-. vm_compute. reflexivity.
Qed.

(** ** More on the regrets *)

(** What [np.clip] returns is within the bounds, unless it is a NaN. *)
Lemma clip_within lo hi x :
  (lo <= hi)%Q -> is_nan (clip lo hi x) = false ->
  exists q, clip lo hi x = Fin q /\ (lo <= q <= hi)%Q.
Proof.
  intros Hle. destruct x as [q| | |]; intros Hn.
  - apply clip_fin_bounds; [reflexivity|exact Hle].
  - exists hi. split; [reflexivity|]. split; [exact Hle|apply Qle_refl].
  - exists lo. unfold clip, maximum, minimum, leb.
    destruct (Qle_bool lo hi) eqn:E.
    + split; [reflexivity|]. split; [apply Qle_refl|exact Hle].
    + apply Qle_bool_iff in Hle. congruence.
  - discriminate.
Qed.

Section Regrets3.
Context {G : Type}.
Variable C : Collab G.
Variable cfg : Settings.
Implicit Types s : Lookahead G.

(** What holds of everything that is clipped holds of the regrets of the
    layers that the loop has visited. *)
Lemma regrets_loop_clipped (Q : num -> Prop) (l : list Z) s v s' v' :
  (forall x, Q (clip 0 (max_number cfg) x)) ->
  for_each l (regrets_step cfg) (s, v) = OK (s', v') ->
  forall d, In d l -> forall L, layer s' d = OK L ->
    Forall Q (data (regrets_data L)).
Proof.
  intros HQ.
  set (P := fun (s : Lookahead G) (d : Z) =>
              forall L, layer s d = OK L -> Forall Q (data (regrets_data L))).
  enough (Hgen : forall s v, for_each l (regrets_step cfg) (s, v) = OK (s', v') ->
                 forall d, In d l \/ P s d -> P s' d).
  { intros H d Hd. apply (Hgen _ _ H). left. exact Hd. }
  clear s v. induction l as [|d0 l IH]; intros s v H; simpl in H.
  - injection H as <- <-. intros d [[]|Hd]. exact Hd.
  - run_step. destruct x as [s1 v1].
    apply regrets_step_OK in E as (k & L & r & Hk & HL & Hs1 & _).
    assert (Hgood : forall d, d = d0 \/ P s d -> P s1 d).
    { intros d Hd L1 HL1. apply layer_OK in HL1 as (k1 & Hk1 & HL1).
      rewrite Hs1 in Hk1, HL1. rewrite length_insert in Hk1.
      destruct (decide (k = k1)) as [<-|Hne].
      - rewrite list_lookup_insert_eq in HL1
          by (apply lookup_lt_Some in HL; exact HL).
        injection HL1 as <-. cbn [regrets_data set_regrets_data].
        unfold amap. apply Forall_build. intros idx _. apply HQ.
      - rewrite list_lookup_insert_ne in HL1 by assumption.
        destruct Hd as [->|Hd]; [congruence|].
        apply Hd. unfold layer. rewrite Hk1. simpl. rewrite HL1. reflexivity. }
    intros d [[->|Hin]|Hd]; apply (IH _ _ H); auto.
Qed.

(** X1: when [_compute_regrets] returns, every regret of a layer below the
    root is a NaN or a number between 0 and [max_number]: the regrets are
    never negative, never infinite and never above the bound of the
    clip. *)
Theorem regrets_within_clip_bounds s s' d L :
  (0 <= max_number cfg)%Q ->
  _compute_regrets cfg s = OK s' ->
  (1 <= d < depth s)%Z ->
  layer s' d = OK L ->
  Forall (fun x => is_nan x = false ->
                   exists q, x = Fin q /\ (0 <= q <= max_number cfg)%Q)
         (data (regrets_data L)).
Proof.
  intros Hmax H Hd HL.
  unfold _compute_regrets in H. cbv zeta in H. run_step.
  injection H as <-. destruct x as [s1 v1]. cbn [fst] in HL.
  eapply (regrets_loop_clipped
            (fun x => is_nan x = false ->
                      exists q, x = Fin q /\ (0 <= q <= max_number cfg)%Q));
    [|exact E| |exact HL].
  - intros x. apply clip_within, Hmax.
  - apply In_range_down. cbn. lia.
Qed.

(** The locals of [_compute_regrets] in a lookahead of depth 3: the loop
    starts at [d = 2], where [ggp_layer_nonallin_bets_count] has not been
    assigned. *)
Lemma regrets_step_unbound s v :
  ggp_layer_nonallin_bets_count v = None ->
  exists e, regrets_step cfg 2 (s, v) = Raise e.
Proof.
  intros Hv. unfold regrets_step, regrets_assign. cbv zeta.
  change (2 >? 1)%Z with true. change (2 >? 2)%Z with false.
  change (2 <? 2)%Z with false. cbv iota.
  destruct (layer s (2 - 2)) as [Lg|e]; [|eexists; reflexivity].
  cbn [bind ggp_layer_nonallin_bets_count gp_layer_terminal_actions_count
       gp_layer_bets_count].
  destruct (layer s 2) as [L|e]; [|eexists; reflexivity]. cbn [bind].
  destruct (getitem _ _) as [c|e]; [|eexists; reflexivity]. cbn [bind].
  destruct (reshape_as _ _) as [cr|e]; [|eexists; reflexivity]. cbn [bind].
  destruct (layer s (2 - 1)) as [Lp|e]; [|eexists; reflexivity].
  cbn [bind of_option]. rewrite Hv. cbn [bind of_option].
  eexists. reflexivity.
Qed.

Lemma compute_regrets_depth3 s :
  depth s = 3%Z -> exists e, _compute_regrets cfg s = Raise e.
Proof.
  intros Hd. unfold _compute_regrets. cbv zeta.
  change (depth (emit (Enter compute_regrets None) s)) with (depth s).
  rewrite Hd. change (range_down (3 - 1) 0) with [2%Z; 1%Z].
  cbn [for_each].
  destruct (regrets_step_unbound (emit (Enter compute_regrets None) s)
              (mkLocals None None None) eq_refl) as [e ->].
  exists e. reflexivity.
Qed.

End Regrets3.

(** ** What a re-solve keeps, and where it cannot return *)

Section Kept.
Context {G : Type}.
Variable C : Collab G.
Variable cfg : Settings.
Implicit Types s : Lookahead G.

Lemma layout_kept_refl s : layout_kept s s.
Proof. repeat split. Qed.

Lemma layout_kept_trans s1 s2 s3 :
  layout_kept s1 s2 -> layout_kept s2 s3 -> layout_kept s1 s3.
Proof.
  intros (?&?&?&?&?) (?&?&?&?&?). repeat split; congruence.
Qed.

Lemma frame_layout_kept s s' : frame s s' -> layout_kept s s'.
Proof. intros (_&_&_&?&?&?&?&?). repeat split; assumption. Qed.

Lemma enters_layout_kept e s s' : enters e s s' -> layout_kept s s'.
Proof. intros H. apply frame_layout_kept in H. exact H. Qed.

Lemma set_opponent_starting_range_kept iter s s' :
  _set_opponent_starting_range C iter s = OK s' -> layout_kept s s'.
Proof.
  unfold _set_opponent_starting_range. cbv zeta. intros H.
  repeat run_step.
  - apply modify_layer_frame, frame_layout_kept in H.
    destruct H as (?&?&?&?&?). cbn in *. repeat split; assumption.
  - repeat split.
Qed.

(** The state in which [_compute_regrets] is called in an iteration. *)
Lemma iteration_before_regrets iter s s' :
  iteration C cfg iter s = OK s' ->
  exists s6 s7, layout_kept s s6 /\ _compute_regrets cfg s6 = OK s7 /\
                layout_kept s s'.
Proof.
  unfold iteration. intros H. repeat run_step.
  apply set_opponent_starting_range_kept in E.
  apply current_strategies_enters, enters_layout_kept in E0.
  apply ranges_enters, enters_layout_kept in E1.
  apply update_average_strategies_enters, enters_layout_kept in E2.
  apply terminal_equities_enters, enters_layout_kept in E3.
  apply cfvs_enters, enters_layout_kept in E4.
  pose proof (regrets_enters _ _ _ E5) as K5. apply enters_layout_kept in K5.
  apply cumulate_average_cfvs_enters, enters_layout_kept in H.
  exists x4, x5. split; [|split; [exact E5|]];
    eauto 10 using layout_kept_trans.
Qed.

Lemma iteration_kept iter s s' :
  iteration C cfg iter s = OK s' -> layout_kept s s'.
Proof.
  intros H. apply iteration_before_regrets in H as (_ & _ & _ & _ & H).
  exact H.
Qed.

Lemma compute_kept s s' : _compute C cfg s = OK s' -> layout_kept s s'.
Proof.
  unfold _compute. intros H. repeat run_step.
  apply (for_each_rel layout_kept) in E;
    [|apply layout_kept_refl|apply layout_kept_trans
     |intros d a b _; apply iteration_kept].
  apply normalize_average_strategies_enters, enters_layout_kept in E0.
  apply normalize_average_cfvs_enters, enters_layout_kept in H.
  eauto using layout_kept_trans.
Qed.

(** X2: a re-solve that returns has changed neither the depth, the batch
    size, the tree, the regret epsilon nor the number of layers of the
    lookahead. *)
Theorem resolve_keeps_layout pr x s s' :
  resolve_first_node C cfg pr x s = OK s' \/ resolve C cfg pr x s = OK s' ->
  layout_kept s s'.
Proof.
  intros [H|H].
  - apply resolve_first_node_compute in H as (s0 & Hf & H).
    apply frame_layout_kept in Hf. apply compute_kept in H.
    eauto using layout_kept_trans.
  - unfold resolve in H. cbv zeta in H. repeat run_step.
    apply modify_layer_frame, frame_layout_kept in E1.
    apply compute_kept in H.
    destruct E1 as (?&?&?&?&?), H as (?&?&?&?&?). cbn in *.
    repeat split; congruence.
Qed.

(** In a lookahead of depth 3 no iteration returns. *)
Lemma iteration_depth3 iter s :
  depth s = 3%Z -> exists e, iteration C cfg iter s = Raise e.
Proof.
  intros Hd. destruct (iteration C cfg iter s) as [s'|e] eqn:H;
    [|exists e; reflexivity].
  apply iteration_before_regrets in H as (s6 & s7 & (Hd6 & _) & H & _).
  destruct (compute_regrets_depth3 cfg s6) as [e He]; [congruence|].
  congruence.
Qed.

Lemma compute_depth3 s :
  depth s = 3%Z -> (1 <= cfr_iters cfg)%Z ->
  exists e, _compute C cfg s = Raise e.
Proof.
  intros Hd Hn. unfold _compute.
  rewrite (range_split 0 1 (cfr_iters cfg)) by lia.
  change (range 0 1) with [0%Z]. cbn [app for_each].
  destruct (iteration_depth3 0%Z s Hd) as [e ->]. exists e. reflexivity.
Qed.

(** X3: a lookahead of depth 3 cannot be re-solved.  In the first
    iteration [_compute_regrets] starts at the layer 2, where it reads
    [ggp_layer_nonallin_bets_count], which is assigned only at the layers
    above 2 and below 2: the call raises (an [UnboundLocalError], unless
    something else has failed before), whatever the ranges are. *)
Theorem resolve_depth3_raises pr x s :
  depth s = 3%Z ->
  (1 <= cfr_iters cfg)%Z ->
  (exists e, _compute_regrets cfg s = Raise e) /\
  (exists e, resolve_first_node C cfg pr x s = Raise e) /\
  (exists e, resolve C cfg pr x s = Raise e).
Proof.
  intros Hd Hn. split; [apply compute_regrets_depth3, Hd|]. split.
  - destruct (resolve_first_node C cfg pr x s) as [s'|e] eqn:H;
      [|exists e; reflexivity].
    apply resolve_first_node_compute in H as (s0 & (_&_&_&Hd0&_) & H).
    destruct (compute_depth3 s0) as [e He]; [congruence|exact Hn|].
    congruence.
  - destruct (resolve C cfg pr x s) as [s'|e] eqn:H;
      [|exists e; reflexivity].
    unfold resolve in H. cbv zeta in H. repeat run_step.
    apply modify_layer_frame in E1. destruct E1 as (_&_&_&Hd0&_).
    match goal with
    | H : _compute C cfg ?s0 = OK _ |- _ =>
        destruct (compute_depth3 s0) as [e He];
          [cbn; cbn in Hd0; congruence|exact Hn|congruence]
    end.
Qed.

(** X4: the opponent CFVs that [resolve] has stored are never forgotten.
    A [resolve_first_node] on a lookahead that was re-solved by [resolve]
    before calls the gadget in every iteration, which writes its range
    over the opponent's range that the call was given, and [get_results]
    leaves the CFVs of the root out. *)
Theorem resolve_first_node_after_resolve pr oc s s1 pr' opr s2 :
  resolve C cfg pr oc s = OK s1 ->
  resolve_first_node C cfg pr' opr s1 = OK s2 ->
  reconstruction_opponent_cfvs s2 = oc /\ oc <> None /\
  map snd (gadget_calls (trace s2))
  = map snd (gadget_calls (trace s1)) ++ range 0 (cfr_iters cfg) /\
  forall out, get_results cfg s2 = OK out ->
    root_cfvs out = None /\ root_cfvs_both_players out = None.
Proof.
  intros H1 H2. apply resolve_flag in H1 as [Hflag Hoc].
  pose proof (resolve_first_node_flag _ _ _ _ _ _ H2) as Hflag2.
  rewrite Hflag in Hflag2.
  split; [exact Hflag2|]. split; [exact Hoc|]. split.
  - apply resolve_first_node_compute in H2 as (s0 & (Ht & Hf & _) & H2).
    apply compute_trace in H2 as (_ & _ & Hcalls).
    rewrite Hf, Hflag, Ht in Hcalls.
    destruct oc; [exact Hcalls|congruence].
  - intros out Hout. apply get_results_root in Hout.
    rewrite Hflag2 in Hout. destruct oc; [exact Hout|congruence].
Qed.

End Kept.

(** ** Loops that assign to one layer after the other *)

Lemma NoDup_range a b : NoDup (range a b).
Proof.
  unfold range. apply NoDup_fmap_2; [|apply NoDup_seq].
  intros x y H. lia.
Qed.

Lemma NoDup_range_down a b : NoDup (range_down a b).
Proof.
  unfold range_down. apply NoDup_fmap_2; [|apply NoDup_seq].
  intros x y H. lia.
Qed.

Lemma In_range_down_inv (a b d : Z) : In d (range_down a b) -> (b < d <= a)%Z.
Proof.
  unfold range_down. intros H. apply in_map_iff in H as (k & <- & Hk).
  apply in_seq in Hk. lia.
Qed.

Section Loops.
Context {G : Type}.
Implicit Types s : Lookahead G.

Lemma layer_insert s (d0 d : Z) k L' :
  (0 <= d0)%Z -> (0 <= d)%Z ->
  py_index (length (layers s)) d0 = OK k ->
  layer (set_layers (<[k := L']> (layers s)) s) d
  = if decide (d = d0) then OK L' else layer s d.
Proof.
  intros Hd0 Hd Hk. unfold layer. cbn [layers set_layers].
  rewrite length_insert.
  assert (k = Z.to_nat d0 /\ k < length (layers s)) as [-> Hlt].
  { split; [|apply py_index_OK in Hk; exact Hk].
    revert Hk. unfold py_index. cbv zeta.
    destruct (Z.ltb_spec d0 0); [lia|].
    destruct (_ && _); [|discriminate]. intros [= <-]. reflexivity. }
  destruct (decide (d = d0)) as [->|Hne].
  - rewrite Hk. cbn [bind]. rewrite list_lookup_insert_eq by exact Hlt.
    reflexivity.
  - destruct (py_index (length (layers s)) d) as [k1|e] eqn:Hk1;
      [|reflexivity]. cbn [bind].
    assert (k1 = Z.to_nat d) as ->.
    { revert Hk1. unfold py_index. cbv zeta.
      destruct (Z.ltb_spec d 0); [lia|].
      destruct (_ && _); [|discriminate]. intros [= <-]. reflexivity. }
    rewrite list_lookup_insert_ne by lia. reflexivity.
Qed.

(** A loop that assigns [f] of the layer to every layer of [l]: each
    layer of [l] is assigned once, the others are left alone. *)
Lemma for_each_modify_layer f (l : list Z) s s' :
  NoDup l -> (forall d, In d l -> (0 <= d)%Z) ->
  for_each l (fun d => modify_layer d f) s = OK s' ->
  (forall d L', In d l -> layer s' d = OK L' ->
     exists L, layer s d = OK L /\ f L = OK L') /\
  (forall d, (0 <= d)%Z -> ~ In d l -> layer s' d = layer s d).
Proof.
  revert s. induction l as [|d0 l IH]; intros s Hnd Hpos H; simpl in H.
  - injection H as <-. split; [intros d L' []|reflexivity].
  - run_step. rename x into s1.
    apply NoDup_cons in Hnd as [Hd0 Hnd].
    assert (Hd0' : ~ In d0 l) by (rewrite <- list_elem_of_In; exact Hd0).
    assert (H0 : (0 <= d0)%Z) by (apply Hpos; left; reflexivity).
    apply modify_layer_OK in E as (k & L0 & L0' & Hk & HL0 & Hf & ->).
    destruct (IH _ Hnd (fun d Hd => Hpos d (or_intror Hd)) H) as [Hin Hout].
    split.
    + intros d L' [<-|Hd] HL'.
      * rewrite (Hout d0 H0 Hd0'), (layer_insert s d0 d0 k L0' H0 H0 Hk) in HL'.
        destruct (decide (d0 = d0)); [|congruence]. injection HL' as <-.
        exists L0. split; [|exact Hf].
        unfold layer. rewrite Hk. cbn [bind]. rewrite HL0. reflexivity.
      * destruct (Hin d L' Hd HL') as (L & HL & HfL).
        rewrite (layer_insert s d0 d k L0' H0 (Hpos d (or_intror Hd)) Hk) in HL.
        destruct (decide (d = d0)) as [->|]; [contradiction|]. eauto.
    + intros d Hd Hnin.
      rewrite (Hout d Hd (fun Hi => Hnin (or_intror Hi))).
      rewrite (layer_insert s d0 d k L0' H0 Hd Hk).
      destruct (decide (d = d0)) as [->|]; [|reflexivity].
      exfalso. apply Hnin. left. reflexivity.
Qed.

End Loops.

(** ** The strategy that regret matching gives *)

Section Matching.
Context {G : Type}.
Variable cfg : Settings.
Implicit Types s : Lookahead G.

Lemma current_strategies_layer_formula eps L L' A sh :
  shape (regrets_data L) = A :: sh ->
  shape (empty_action_mask L) = A :: sh ->
  shape (current_strategy_data L) = A :: sh ->
  current_strategies_layer cfg eps L = OK L' ->
  shape (current_strategy_data L') = A :: sh /\
  forall a j, in_bounds (A :: sh) (a :: j) ->
    get (current_strategy_data L') (a :: j)
    = div (positive_regret cfg eps L (a :: j))
          (mul (sum_list (map (fun i => positive_regret cfg eps L (i :: j))
                              (seq 0 A)))
               one).
Proof.
  intros Hsr Hsm Hsc H.
  unfold current_strategies_layer in H. cbv zeta in H.
  cbn [positive_regrets_data set_positive_regrets_data regrets_sum
       set_regrets_sum empty_action_mask current_strategy_data] in H.
  repeat run_step. cbn [current_strategy_data set_current_strategy_data].
  rename x into pr, x0 into rs, x1 into den, x2 into cs.
  apply iop_OK in E as (Hspr & _ & Hpr). simpl in Hspr, Hpr.
  apply sum_axis_OK in E0 as (n & Hn & Hsrs & Hrs).
  rewrite Hspr, Hsr in Hn. injection Hn as <-.
  rewrite Hspr, Hsr in Hsrs. simpl in Hsrs.
  apply binop_OK in E1 as (Hsden & Hden).
  rewrite Hsrs in Hsden. simpl in Hsden. rewrite Hsc in Hsden.
  rewrite (bshape_cons 1 A A sh (bdim_1_l A)) in Hsden.
  injection Hsden as Hsden.
  apply binop_OK in E2 as (Hscs & Hcs).
  rewrite Hspr, Hsr, <- Hsden in Hscs.
  rewrite (bshape_cons A A A sh (bdim_same A)) in Hscs.
  injection Hscs as Hscs.
  split; [congruence|].
  assert (Hprx : forall i j, in_bounds (A :: sh) (i :: j) ->
             get pr (i :: j) = positive_regret cfg eps L (i :: j)).
  { intros i j Hb. rewrite Hsr in Hpr. rewrite (Hpr _ Hb).
    rewrite get_amap by (rewrite Hsr; exact Hb).
    rewrite Hsm, (bidx_same _ _ Hb). reflexivity. }
  intros a j Hb. pose proof Hb as Hb'.
  apply in_bounds_cons in Hb' as [Ha Hj].
  rewrite Hcs by (rewrite <- Hscs; exact Hb).
  rewrite Hspr, Hsr, <- Hsden, (bidx_same _ _ Hb).
  rewrite Hden by (rewrite <- Hsden; exact Hb).
  unfold ones_like. cbn [shape full].
  rewrite Hsrs, (bidx_cons_1 _ _ _ Hj), Hsc, (bidx_same _ _ Hb).
  rewrite get_full by exact Hb.
  rewrite Hrs by (rewrite Hsrs; apply in_bounds_cons; split; [lia|assumption]).
  cbn [insert list_insert]. rewrite (Hprx _ _ Hb).
  f_equal. f_equal. f_equal. apply map_ext_in. intros i Hi.
  apply in_seq in Hi. apply Hprx. apply in_bounds_cons. split; [lia|exact Hj].
Qed.

(** What [_compute_current_strategies] does to a layer below the root. *)
Lemma compute_current_strategies_layer s s' d L' :
  _compute_current_strategies cfg s = OK s' ->
  (1 <= d < depth s)%Z ->
  layer s' d = OK L' ->
  exists L, layer s d = OK L /\
            current_strategies_layer cfg (regret_epsilon s) L = OK L'.
Proof.
  unfold _compute_current_strategies. cbv zeta. intros H Hd HL'.
  apply for_each_modify_layer in H as [Hin _].
  - apply (Hin d L'); [|exact HL']. apply In_range. exact Hd.
  - apply NoDup_range.
  - intros d0 Hd0. apply In_range_inv in Hd0. lia.
Qed.

(** X5: regret matching.  After [_compute_current_strategies] the current
    strategy of a layer below the root is, at every action [a] and state
    [j], the positive regret of [a] (the regret clipped to
    [[regret_epsilon, max_number]], times the mask) divided by the sum of
    the positive regrets of the actions at [j]. *)
Theorem current_strategy_is_regret_matching s s' d L L' A sh a j :
  _compute_current_strategies cfg s = OK s' ->
  (1 <= d < depth s)%Z ->
  layer s d = OK L ->
  layer s' d = OK L' ->
  shape (regrets_data L) = A :: sh ->
  shape (empty_action_mask L) = A :: sh ->
  shape (current_strategy_data L) = A :: sh ->
  in_bounds (A :: sh) (a :: j) ->
  get (current_strategy_data L') (a :: j)
  = div (positive_regret cfg (regret_epsilon s) L (a :: j))
        (mul (sum_list (map (fun i => positive_regret cfg (regret_epsilon s)
                                        L (i :: j))
                            (seq 0 A)))
             one).
Proof.
  intros H Hd HL HL' Hsr Hsm Hsc Hb.
  destruct (compute_current_strategies_layer _ _ _ _ H Hd HL')
    as (L0 & HL0 & Hf).
  rewrite HL in HL0. injection HL0 as <-.
  apply (current_strategies_layer_formula _ _ _ _ _ Hsr Hsm Hsc Hf). exact Hb.
Qed.

End Matching.

(** ** Regret matching where no regret is above the epsilon *)

Lemma clip_low lo hi r :
  (r <= lo)%Q -> (lo <= hi)%Q ->
  exists q, clip lo hi (Fin r) = Fin q /\ (q == lo)%Q.
Proof.
  intros Hr Hle.
  destruct (clip_fin_bounds lo hi (Fin r) eq_refl Hle) as (q & Hq & Hlo & _).
  exists q. split; [exact Hq|].
  revert Hq. unfold clip, maximum, minimum, leb.
  destruct (Qle_bool lo r) eqn:E1.
  - apply Qle_bool_iff in E1.
    destruct (Qle_bool r hi) eqn:E2; intros [= <-]; [lra|].
    assert (E3 : Qle_bool r hi = true) by (apply Qle_bool_iff; lra).
    congruence.
  - destruct (Qle_bool lo hi) eqn:E2; intros [= <-]; [lra|].
    assert (E3 : Qle_bool lo hi = true) by (apply Qle_bool_iff; lra).
    congruence.
Qed.

Section Uniform.
Context {G : Type}.
Variable cfg : Settings.
Implicit Types s : Lookahead G.

(** X6: where no regret of a state is above the regret epsilon (as in the
    first iteration, where the regrets are zero), regret matching does not
    tell the actions that the mask lets through apart: any two of them get
    the same strategy, and the actions that the mask rules out get 0. *)
Theorem current_strategy_uniform s s' d L L' A sh a a' j :
  (0 < regret_epsilon s)%Q ->
  (regret_epsilon s <= max_number cfg)%Q ->
  _compute_current_strategies cfg s = OK s' ->
  (1 <= d < depth s)%Z ->
  layer s d = OK L ->
  layer s' d = OK L' ->
  shape (regrets_data L) = A :: sh ->
  shape (empty_action_mask L) = A :: sh ->
  shape (current_strategy_data L) = A :: sh ->
  binary (empty_action_mask L) ->
  in_bounds (A :: sh) (a :: j) ->
  in_bounds (A :: sh) (a' :: j) ->
  (forall i, i < A -> exists r, get (regrets_data L) (i :: j) = Fin r /\
                                (r <= regret_epsilon s)%Q) ->
  (exists a0, a0 < A /\ get (empty_action_mask L) (a0 :: j) = one) ->
  (get (empty_action_mask L) (a :: j) = one ->
   get (empty_action_mask L) (a' :: j) = one ->
   equiv (get (current_strategy_data L') (a :: j))
         (get (current_strategy_data L') (a' :: j))) /\
  (get (empty_action_mask L) (a :: j) = zero ->
   equiv (get (current_strategy_data L') (a :: j)) zero).
Proof.
  intros Heps Hmax H Hd HL HL' Hsr Hsm Hsc Hbin Hb Hb' Hreg (a0 & Ha0 & Hm0).
  destruct (compute_current_strategies_layer _ _ _ _ _ H Hd HL')
    as (L0 & HL0 & Hf).
  rewrite HL in HL0. injection HL0 as <-.
  destruct (current_strategies_layer_formula _ _ _ _ _ _ Hsr Hsm Hsc Hf)
    as [_ Hform].
  rewrite (Hform a j Hb), (Hform a' j Hb'). clear Hform Hf H HL'.
  set (eps := regret_epsilon s) in *.
  (* the mask as rationals *)
  pose (mu := fun i => match get (empty_action_mask L) (i :: j) with
                       | Fin q => q | _ => 0%Q end).
  assert (Hmu : forall i, get (empty_action_mask L) (i :: j) = Fin (mu i) /\
                          (0 <= mu i)%Q).
  { intros i. unfold mu.
    destruct (binary_get _ (i :: j) Hbin) as [-> | ->]; simpl;
      split; try reflexivity; lra. }
  (* the positive regrets *)
  pose (x := fun i => match positive_regret cfg eps L (i :: j) with
                      | Fin q => q | _ => 0%Q end).
  assert (Hx : forall i, i < A ->
             positive_regret cfg eps L (i :: j) = Fin (x i) /\
             (x i == mu i * eps)%Q).
  { intros i Hi. unfold x, positive_regret.
    destruct (Hreg i Hi) as (r & -> & Hr).
    destruct (clip_low eps (max_number cfg) r Hr Hmax) as (c & -> & Hc).
    destruct (Hmu i) as [-> _]. simpl. split; [reflexivity|]. rewrite Hc. ring. }
  apply in_bounds_cons in Hb as [Ha Hj].
  apply in_bounds_cons in Hb' as [Ha' _].
  rewrite (map_seq_fin _ x) by (intros i Hi; apply Hx; exact Hi).
  rewrite sum_list_fin.
  set (S := fold_left Qplus (map x (seq 0 A)) 0%Q).
  (* the sum of the positive regrets is not zero *)
  assert (HS : (eps <= S)%Q).
  { assert (E : mu a0 = 1%Q) by (unfold mu; rewrite Hm0; reflexivity).
    destruct (Hx a0 Ha0) as [_ Hx0]. rewrite E in Hx0.
    assert (Hle : (x a0 <= S)%Q).
    { apply fold_Qplus_ge.
      - apply List.Forall_forall. intros q Hq.
        apply in_map_iff in Hq as (i & <- & Hi). apply in_seq in Hi.
        destruct (Hx i ltac:(lia)) as [_ ->]. destruct (Hmu i) as [_ Hm].
        nra.
      - apply in_map. apply in_seq. lia. }
    lra. }
  destruct (Hx a Ha) as [-> Hxa]. destruct (Hx a' Ha') as [-> Hxa'].
  cbn [mul one].
  rewrite !div_fin by lra.
  split.
  - intros Hm Hm'. cbn [equiv].
    assert (E : mu a = 1%Q) by (unfold mu; rewrite Hm; reflexivity).
    assert (E' : mu a' = 1%Q) by (unfold mu; rewrite Hm'; reflexivity).
    rewrite Hxa, Hxa', E, E'. reflexivity.
  - intros Hm. cbn [equiv zero].
    assert (E : mu a = 0%Q) by (unfold mu; rewrite Hm; reflexivity).
    rewrite Hxa, E. field. lra.
Qed.

End Uniform.

(** ** The strategy and the achieved CFVs that [get_results] reports *)

(** A view with the axes of size 1 dropped and the first axis to be
    found. *)
Lemma reshape_actions a A B H c :
  shape a = [A; 1; 1; B; H] -> 0 < B -> 0 < H ->
  reshape a [(-1)%Z; Z.of_nat B; Z.of_nat H] = OK c ->
  shape c = [A; B; H] /\
  forall i b h, i < A -> b < B -> h < H ->
    get c [i; b; h] = get a [i; 0; 0; b; h].
Proof.
  intros Hs HB HH Hre.
  pose proof (reshape_OK _ _ _ Hre) as (_ & Hnum & x & Hsc).
  cbn [map] in Hsc. unfold fill_hole in Hsc.
  rewrite !is_hole_of_nat, !Nat2Z.id in Hsc. cbn in Hsc.
  assert (Hx : x = A).
  { rewrite Hsc, Hs in Hnum. cbn [numel fold_right] in Hnum.
    rewrite !Nat.mul_1_r, !Nat.mul_1_l in Hnum.
    assert (Hm : 0 < B * H) by (apply Nat.mul_pos_pos; assumption).
    apply -> Nat.mul_cancel_r in Hnum; lia. }
  subst x. split; [exact Hsc|].
  intros i b h Hi Hb Hh.
  assert (Hin : in_bounds [A; B; H] [i; b; h]).
  { repeat (apply in_bounds_cons; split; [assumption|]). apply in_bounds_nil. }
  rewrite (get_reshape _ _ _ _ Hre) by (rewrite Hsc; exact Hin).
  rewrite Hsc, Hs.
  replace (ravel [A; B; H] [i; b; h])
    with (ravel [A; 1; 1; B; H] [i; 0; 0; b; h])
    by (cbn [ravel numel fold_right]; lia).
  rewrite unravel_ravel; [reflexivity|].
  apply in_bounds5. repeat split; assumption || lia.
Qed.

Lemma reshape_root a B PC H c :
  shape a = [1; 1; 1; B; PC; H] ->
  reshape a [Z.of_nat B; Z.of_nat PC; Z.of_nat H] = OK c ->
  shape c = [B; PC; H] /\
  forall b p h, b < B -> p < PC -> h < H ->
    get c [b; p; h] = get a [0; 0; 0; b; p; h].
Proof.
  intros Hs Hre.
  pose proof (reshape_OK _ _ _ Hre) as (_ & _ & x & Hsc).
  cbn [map] in Hsc. unfold fill_hole in Hsc.
  rewrite !is_hole_of_nat, !Nat2Z.id in Hsc.
  split; [exact Hsc|].
  intros b p h Hb Hp Hh.
  assert (Hin : in_bounds [B; PC; H] [b; p; h]).
  { repeat (apply in_bounds_cons; split; [assumption|]). apply in_bounds_nil. }
  rewrite (get_reshape _ _ _ _ Hre) by (rewrite Hsc; exact Hin).
  rewrite Hsc, Hs.
  replace (ravel [B; PC; H] [b; p; h])
    with (ravel [1; 1; 1; B; PC; H] [0; 0; 0; b; p; h])
    by (cbn [ravel numel fold_right]; lia).
  rewrite unravel_ravel; [reflexivity|].
  apply in_bounds6. repeat split; assumption || lia.
Qed.

Section Reported.
Context {G : Type}.
Variable cfg : Settings.
Implicit Types s : Lookahead G.


End Reported.

(** ** What [get_chance_action_cfv] does to the lookahead *)

Lemma norm_ix_at_out n (z : Z) :
  (z < - Z.of_nat n \/ Z.of_nat n <= z)%Z ->
  norm_ix n (At z) = Raise IndexError.
Proof.
  intros Hz. unfold norm_ix. cbv zeta.
  destruct (Z.ltb_spec z 0).
  - destruct (Z.leb_spec 0 (z + Z.of_nat n)); [lia|reflexivity].
  - destruct (Z.leb_spec 0 z); [|lia].
    destruct (Z.ltb_spec z (Z.of_nat n)); [lia|reflexivity].
Qed.

Section Chance2.
Context {G : Type}.
Variable C : Collab G.
Variable cfg : Settings.
Implicit Types s : Lookahead G.

(** X8: [get_chance_action_cfv] with an action whose batch index lies
    outside [next_round_pot_sizes] raises an [IndexError].  With an index
    within the bounds the call returns a view: the outputs of the next
    street that the lookahead holds are those that the collaborator has
    written, with the vector of the current player at the batch index
    replaced by the vector that is returned (scaled by the pot size);
    the layers are left alone. *)
Theorem get_chance_action_cfv_effect action board s bi box n P H m :
  action_to_index s !! action = Some bi ->
  reshape (next_street_boxes_outputs s)
          [-1; players_count cfg; hand_count cfg]%Z = OK box ->
  shape box = [n; P; H] ->
  shape (next_round_pot_sizes s) = [m] ->
  ((bi < - Z.of_nat m \/ Z.of_nat m <= bi)%Z ->
   get_chance_action_cfv C cfg action board s = Raise IndexError) /\
  ((0 <= bi < Z.of_nat n)%Z -> (0 <= bi < Z.of_nat m)%Z ->
   (0 <= current_player (tree s) < Z.of_nat P)%Z ->
   exists out s' view,
     get_chance_action_cfv C cfg action board s = OK (out, s') /\
     layers s' = layers s /\
     next_street_boxes_outputs s'
     = mkArr (shape (next_street_boxes_outputs s)) (data view) /\
     shape view = [n; P; H] /\
     forall i p h, i < n -> p < P -> h < H ->
       get view [i; p; h]
       = if (i =? Z.to_nat bi) && (p =? Z.to_nat (current_player (tree s)))
         then get out [h]
         else get (mkArr (shape box) (data (get_value_on_board C board box)))
                  [i; p; h]).
Proof.
  intros Hmap Hre Hsb Hsp. split.
  - intros Hout. unfold get_chance_action_cfv. cbv zeta.
    rewrite Hre, Hmap. cbn [bind of_option].
    unfold getitem at 1. rewrite Hsp. cbn [norm_specs].
    rewrite norm_ix_at_out by exact Hout. reflexivity.
  - intros Hbn Hbm Hcp.
    unfold get_chance_action_cfv. cbv zeta. rewrite Hre, Hmap.
    cbn [bind of_option].
    set (box' := mkArr (shape box) (data (get_value_on_board C board box))).
    set (cp := current_player (tree s)) in *.
    assert (Hpm : getitem (next_round_pot_sizes s) [At bi]
                  = OK (build [] (fun idx => get (next_round_pot_sizes s)
                                                [Z.to_nat bi]))).
    { unfold getitem. rewrite Hsp. cbn [norm_specs].
      rewrite norm_ix_at_Z by assumption. reflexivity. }
    rewrite Hpm. cbn [bind].
    assert (Hout : getitem box' [At bi; At cp]
                   = OK (build [H] (fun idx => get box'
                           (Z.to_nat bi :: Z.to_nat cp
                              :: match idx with [] => [0] | i :: _ => [0 + i] end)))).
    { unfold getitem. change (shape box') with (shape box). rewrite Hsb.
      cbn [norm_specs]. rewrite !norm_ix_at_Z by assumption.
      reflexivity. }
    rewrite Hout. cbn [bind].
    unfold iop at 1. cbn [shape build]. rewrite bshape_scalar_r.
    destruct (decide ([H] = [H])) as [_|]; [|congruence]. cbn [bind].
    unfold setitem. change (shape box') with (shape box). rewrite Hsb.
    cbn [norm_specs]. rewrite !norm_ix_at_Z by assumption.
    cbn [bind sel_shape shape build]. rewrite assignable_same.
    eexists _, _, _. split; [reflexivity|]. split; [reflexivity|].
    split; [reflexivity|]. split; [reflexivity|].
    intros i p h Hi Hp Hh.
    rewrite (get_build [n; P; H]) by (repeat constructor; assumption).
    cbn [sel_dst].
    destruct (i =? Z.to_nat bi); [|reflexivity].
    destruct (p =? Z.to_nat cp); [|reflexivity].
    destruct (Nat.ltb_spec h (0 + H)); [|lia].
    cbn [Nat.leb andb option_map]. rewrite Nat.sub_0_r.
    cbn [shape build].
    rewrite bidx_same by (repeat constructor; exact Hh). reflexivity.
Qed.

End Chance2.

(** ** The iterations that leave the averages alone *)

Lemma averages_kept_refl {G} (s : Lookahead G) : averages_kept s s.
Proof. reflexivity. Qed.

Lemma averages_kept_trans {G} (s1 s2 s3 : Lookahead G) :
  averages_kept s1 s2 -> averages_kept s2 s3 -> averages_kept s1 s3.
Proof. unfold averages_kept. congruence. Qed.

Lemma modify_layer_averages {G} d f (s s' : Lookahead G) :
  (forall L L', f L = OK L' -> averages L' = averages L) ->
  modify_layer d f s = OK s' -> averages_kept s s'.
Proof.
  intros Hf H. apply modify_layer_OK in H as (k & L & L' & _ & HL & HfL & ->).
  unfold averages_kept. cbn [layers set_layers].
  rewrite list_fmap_insert, (Hf _ _ HfL).
  apply list_insert_id. rewrite list_lookup_fmap, HL. reflexivity.
Qed.

Lemma for_each_averages {G} l (body : Z -> Lookahead G -> result (Lookahead G)) :
  (forall d s s', body d s = OK s' -> averages_kept s s') ->
  forall s s', for_each l body s = OK s' -> averages_kept s s'.
Proof.
  intros Hbody. apply for_each_rel.
  - apply averages_kept_refl.
  - apply averages_kept_trans.
  - intros d x y _. apply Hbody.
Qed.

(** The assignments to a layer that do not name its averages. *)
Ltac kept_hyps :=
  repeat match goal with
    | H : modify_layer _ _ _ = OK _ |- _ =>
        apply modify_layer_averages in H;
        [|let L := fresh "L" in let L' := fresh "L'" in let Hf := fresh "Hf" in
          intros L L' Hf; cbv beta in Hf; repeat run_step; reflexivity]
    end.

Ltac kept_solve :=
  repeat run_step; kept_hyps; unfold averages_kept in *; cbn in *;
  congruence.

Section Averages.
Context {G : Type}.
Variable C : Collab G.
Variable cfg : Settings.
Implicit Types s : Lookahead G.

Lemma set_opponent_starting_range_averages iter s s' :
  _set_opponent_starting_range C iter s = OK s' -> averages_kept s s'.
Proof. unfold _set_opponent_starting_range. cbv zeta. intros H. kept_solve. Qed.

Lemma current_strategies_averages s s' :
  _compute_current_strategies cfg s = OK s' -> averages_kept s s'.
Proof.
  unfold _compute_current_strategies. cbv zeta. intros H.
  apply for_each_averages in H; [exact H|].
  intros d a b Hm. apply modify_layer_averages in Hm; [exact Hm|].
  intros L L' Hf. unfold current_strategies_layer in Hf. cbv zeta in Hf.
  repeat run_step. reflexivity.
Qed.

Lemma ranges_averages s s' :
  _compute_ranges cfg s = OK s' -> averages_kept s s'.
Proof.
  unfold _compute_ranges. cbv zeta. intros H.
  apply for_each_averages in H; [exact H|].
  intros d a b Hm. unfold ranges_step in Hm. cbv zeta in Hm. kept_solve.
Qed.

Lemma terminal_equity_averages s s' :
  _compute_terminal_equities_terminal_equity C cfg s = OK s' ->
  averages_kept s s'.
Proof.
  unfold _compute_terminal_equities_terminal_equity. cbv zeta. intros H.
  repeat run_step.
  apply for_each_averages in E;
    [|intros d a b Hm; unfold terminal_gather in Hm; kept_solve].
  apply for_each_averages in H;
    [|intros d a b Hm; unfold terminal_scatter in Hm; kept_solve].
  unfold averages_kept in *. cbn in *. congruence.
Qed.

Lemma next_street_box_averages s s' :
  _compute_terminal_equities_next_street_box C cfg s = OK s' ->
  averages_kept s s'.
Proof.
  unfold _compute_terminal_equities_next_street_box. cbv zeta. intros H.
  repeat run_step; try apply averages_kept_refl;
    repeat match goal with
      | H : for_each _ (box_gather _) _ = OK _ |- _ =>
          apply for_each_averages in H;
            [|intros d a b Hm; unfold box_gather in Hm; kept_solve]
      | H : for_each _ (box_scatter _) _ = OK _ |- _ =>
          apply for_each_averages in H;
            [|intros d a b Hm; unfold box_scatter in Hm; kept_solve]
      end;
    unfold averages_kept in *; cbn in *; congruence.
Qed.

Lemma terminal_equities_averages s s' :
  _compute_terminal_equities C cfg s = OK s' -> averages_kept s s'.
Proof.
  unfold _compute_terminal_equities. cbv zeta. intros H.
  run_step. run_step.
  apply terminal_equity_averages in E0.
  apply for_each_averages in H;
    [|intros d a b Hm; kept_solve].
  destruct (negb _).
  - apply next_street_box_averages in E.
    unfold averages_kept in *. cbn in *. congruence.
  - injection E as <-. unfold averages_kept in *. cbn in *. congruence.
Qed.

Lemma cfvs_averages s s' : _compute_cfvs s = OK s' -> averages_kept s s'.
Proof.
  unfold _compute_cfvs. cbv zeta. intros H.
  apply for_each_averages in H; [exact H|].
  intros d a b Hm. unfold cfvs_step in Hm. kept_solve.
Qed.

Lemma regrets_averages s s' :
  _compute_regrets cfg s = OK s' -> averages_kept s s'.
Proof.
  unfold _compute_regrets. cbv zeta. intros H. run_step.
  injection H as <-.
  change (averages_kept (emit (Enter compute_regrets None) s) (fst x)).
  revert E. generalize (mkLocals None None None).
  generalize (emit (Enter compute_regrets None) s). intros s0 v0 E.
  change s0 with (fst (s0, v0)).
  revert E. apply (for_each_rel (fun a b => averages_kept (fst a) (fst b))).
  - intros. apply averages_kept_refl.
  - intros. eapply averages_kept_trans; eassumption.
  - intros d [a va] [b vb] _ Hm. cbn [fst].
    unfold regrets_step in Hm. kept_solve.
Qed.

(** X9: an iteration whose number is not above [cfr_skip_iters] (the
    iteration [cfr_skip_iters] itself included) leaves the average
    strategies and the average CFVs of every layer as they are: nothing
    but the two accumulating phases assigns to them. *)
Theorem warm_up_iteration_keeps_averages iter s s' :
  (iter <= cfr_skip_iters cfg)%Z ->
  iteration C cfg iter s = OK s' ->
  map averages (layers s') = map averages (layers s).
Proof.
  intros Hiter H. unfold iteration in H. repeat run_step.
  apply set_opponent_starting_range_averages in E.
  apply current_strategies_averages in E0.
  apply ranges_averages in E1.
  apply terminal_equities_averages in E3.
  apply cfvs_averages in E4.
  apply regrets_averages in E5.
  assert (Hacc : accumulates cfg iter = false).
  { unfold accumulates. destruct (Z.gtb_spec iter (cfr_skip_iters cfg));
      [lia|reflexivity]. }
  unfold _compute_update_average_strategies in E2.
  unfold _compute_cumulate_average_cfvs in H.
  cbv zeta in E2, H. rewrite Hacc in E2, H.
  injection E2 as <-. injection H as <-.
  unfold averages_kept in *. cbn in *. congruence.
Qed.

End Averages.

(** ** The ranges at the root during a re-solve *)

Lemma but_opponent_refl r : but_opponent r r.
Proof. split; reflexivity. Qed.

Lemma but_opponent_trans r1 r2 r3 :
  but_opponent r1 r2 -> but_opponent r2 r3 -> but_opponent r1 r3.
Proof.
  intros [Hs1 H1] [Hs2 H2]. split; [congruence|].
  intros i p n b q h Hin Hq. rewrite H2, H1; try assumption; try reflexivity.
  rewrite Hs1. exact Hin.
Qed.

Lemma root_kept_refl {G} (s : Lookahead G) : root_kept s s.
Proof.
  split; [reflexivity|]. split; [reflexivity|].
  intros r Hr _. exists r. split; [exact Hr|apply but_opponent_refl].
Qed.

Lemma root_kept_trans {G} (s1 s2 s3 : Lookahead G) :
  root_kept s1 s2 -> root_kept s2 s3 -> root_kept s1 s3.
Proof.
  intros (Hf1 & Hn1 & Hw1) (Hf2 & Hn2 & Hw2).
  split; [congruence|]. split.
  - intros Hnone. rewrite Hn2, Hn1; congruence.
  - intros r Hr Hlen. destruct (Hw1 r Hr Hlen) as (r2 & Hr2 & Hb2).
    destruct (Hw2 r2 Hr2) as (r3 & Hr3 & Hb3).
    { destruct Hb2 as [-> _]. exact Hlen. }
    exists r3. split; [exact Hr3|].
    eapply but_opponent_trans; eassumption.
Qed.

(** A run that leaves the ranges at the root and the stored CFVs alone. *)
Lemma root_kept_same {G} (s s' : Lookahead G) :
  reconstruction_opponent_cfvs s' = reconstruction_opponent_cfvs s ->
  root_ranges s' = root_ranges s -> root_kept s s'.
Proof.
  intros Hf Hr. split; [exact Hf|]. split; [intros _; exact Hr|].
  intros r Hs _. exists r. split; [congruence|apply but_opponent_refl].
Qed.

Lemma modify_layer_root_ranges {G} d f (s s' : Lookahead G) :
  (forall L L', f L = OK L' -> ranges_data L' = ranges_data L) ->
  modify_layer d f s = OK s' -> root_ranges s' = root_ranges s.
Proof.
  intros Hf H. apply modify_layer_OK in H as (k & L & L' & _ & HL & HfL & ->).
  unfold root_ranges. cbn [layers set_layers].
  destruct k as [|k].
  - rewrite list_lookup_insert_eq by (apply lookup_lt_Some in HL; exact HL).
    rewrite HL. cbn. f_equal. apply (Hf _ _ HfL).
  - rewrite list_lookup_insert_ne by discriminate. reflexivity.
Qed.

Lemma modify_layer_above_root {G} d f (s s' : Lookahead G) :
  (1 <= d)%Z -> modify_layer d f s = OK s' -> root_ranges s' = root_ranges s.
Proof.
  intros Hd H. unfold root_ranges.
  rewrite (modify_layer_root _ _ _ _ Hd H). reflexivity.
Qed.

Lemma for_each_root_ranges {G} l
      (body : Z -> Lookahead G -> result (Lookahead G)) :
  (forall d s s', In d l -> body d s = OK s' -> root_ranges s' = root_ranges s) ->
  forall s s', for_each l body s = OK s' -> root_ranges s' = root_ranges s.
Proof.
  intros Hbody.
  apply (for_each_rel (fun a b => root_ranges b = root_ranges a)).
  - reflexivity.
  - intros x y z H1 H2. congruence.
  - intros d x y Hd. apply Hbody. exact Hd.
Qed.

(** The assignments to a layer that do not name its ranges, or that are
    made to a layer below the root. *)
Ltac root_hyps :=
  repeat match goal with
    | H : modify_layer _ _ _ = OK _ |- _ =>
        first
          [ apply modify_layer_root_ranges in H;
            [|let L := fresh "L" in let L' := fresh "L'" in
              let Hf := fresh "Hf" in
              intros L L' Hf; cbv beta in Hf; repeat run_step; reflexivity]
          | apply modify_layer_above_root in H; [|lia] ]
    end.

Ltac root_solve :=
  repeat run_step; root_hyps; unfold root_ranges in *; cbn in *;
  congruence.

Section Root.
Context {G : Type}.
Variable C : Collab G.
Variable cfg : Settings.
Implicit Types s : Lookahead G.

Lemma current_strategies_root_ranges s s' :
  _compute_current_strategies cfg s = OK s' -> root_ranges s' = root_ranges s.
Proof.
  unfold _compute_current_strategies. cbv zeta. intros H.
  apply for_each_root_ranges in H; [exact H|].
  intros d a b _ Hm. apply modify_layer_root_ranges in Hm; [exact Hm|].
  intros L L' Hf. unfold current_strategies_layer in Hf. cbv zeta in Hf.
  repeat run_step. reflexivity.
Qed.

Lemma ranges_root_ranges s s' :
  _compute_ranges cfg s = OK s' -> root_ranges s' = root_ranges s.
Proof.
  unfold _compute_ranges. cbv zeta. intros H.
  apply for_each_root_ranges in H; [exact H|].
  intros d a b Hd Hm. apply In_range_inv in Hd.
  unfold ranges_step in Hm. cbv zeta in Hm. root_solve.
Qed.

Lemma update_average_strategies_root_ranges iter s s' :
  _compute_update_average_strategies cfg iter s = OK s' ->
  root_ranges s' = root_ranges s.
Proof.
  unfold _compute_update_average_strategies. cbv zeta. intros H.
  destruct (accumulates cfg iter).
  - root_solve.
  - injection H as <-. reflexivity.
Qed.

Lemma terminal_equity_root_ranges s s' :
  _compute_terminal_equities_terminal_equity C cfg s = OK s' ->
  root_ranges s' = root_ranges s.
Proof.
  unfold _compute_terminal_equities_terminal_equity. cbv zeta. intros H.
  repeat run_step.
  apply for_each_root_ranges in E;
    [|intros d a b _ Hm; unfold terminal_gather in Hm; root_solve].
  apply for_each_root_ranges in H;
    [|intros d a b _ Hm; unfold terminal_scatter in Hm; root_solve].
  unfold root_ranges in *. cbn in *. congruence.
Qed.

Lemma next_street_box_root_ranges s s' :
  _compute_terminal_equities_next_street_box C cfg s = OK s' ->
  root_ranges s' = root_ranges s.
Proof.
  unfold _compute_terminal_equities_next_street_box. cbv zeta. intros H.
  repeat run_step; try reflexivity;
    repeat match goal with
      | H : for_each _ (box_gather _) _ = OK _ |- _ =>
          apply for_each_root_ranges in H;
            [|intros d a b _ Hm; unfold box_gather in Hm; root_solve]
      | H : for_each _ (box_scatter _) _ = OK _ |- _ =>
          apply for_each_root_ranges in H;
            [|intros d a b _ Hm; unfold box_scatter in Hm; root_solve]
      end;
    unfold root_ranges in *; cbn in *; congruence.
Qed.

Lemma terminal_equities_root_ranges s s' :
  _compute_terminal_equities C cfg s = OK s' ->
  root_ranges s' = root_ranges s.
Proof.
  unfold _compute_terminal_equities. cbv zeta. intros H.
  run_step. run_step.
  apply terminal_equity_root_ranges in E0.
  apply for_each_root_ranges in H;
    [|intros d a b _ Hm; root_solve].
  destruct (negb _).
  - apply next_street_box_root_ranges in E.
    unfold root_ranges in *. cbn in *. congruence.
  - injection E as <-. unfold root_ranges in *. cbn in *. congruence.
Qed.

Lemma cfvs_root_ranges s s' :
  _compute_cfvs s = OK s' -> root_ranges s' = root_ranges s.
Proof.
  unfold _compute_cfvs. cbv zeta. intros H.
  apply for_each_root_ranges in H; [exact H|].
  intros d a b _ Hm. unfold cfvs_step in Hm. root_solve.
Qed.

Lemma regrets_root_ranges s s' :
  _compute_regrets cfg s = OK s' -> root_ranges s' = root_ranges s.
Proof.
  unfold _compute_regrets. cbv zeta. intros H. run_step.
  injection H as <-.
  change (root_ranges (fst x)
          = root_ranges (emit (Enter compute_regrets None) s)).
  revert E. generalize (mkLocals None None None).
  generalize (emit (Enter compute_regrets None) s). intros s0 v0 E.
  change s0 with (fst (s0, v0)).
  revert E.
  apply (for_each_rel (fun a b => root_ranges (fst b) = root_ranges (fst a))).
  - reflexivity.
  - intros. congruence.
  - intros d [a va] [b vb] _ Hm. cbn [fst].
    unfold regrets_step in Hm. root_solve.
Qed.

Lemma cumulate_average_cfvs_root_ranges iter s s' :
  _compute_cumulate_average_cfvs cfg iter s = OK s' ->
  root_ranges s' = root_ranges s.
Proof.
  unfold _compute_cumulate_average_cfvs, cumulate. cbv zeta. intros H.
  destruct (accumulates cfg iter).
  - root_solve.
  - injection H as <-. reflexivity.
Qed.

Lemma normalize_average_strategies_root_ranges s s' :
  _compute_normalize_average_strategies s = OK s' ->
  root_ranges s' = root_ranges s.
Proof.
  unfold _compute_normalize_average_strategies, normalize_average_strategies.
  cbv zeta. intros H. root_solve.
Qed.

Lemma normalize_average_cfvs_root_ranges s s' :
  _compute_normalize_average_cfvs cfg s = OK s' ->
  root_ranges s' = root_ranges s.
Proof.
  unfold _compute_normalize_average_cfvs. cbv zeta. intros H.
  root_solve.
Qed.

End Root.

Lemma setitem_batch0 a A P N B PC HC v c :
  shape a = [A; P; N; B; PC; HC] ->
  setitem a [all; all; all; At 0%Z; all] v = OK c ->
  0 < B /\ shape c = [A; P; N; B; PC; HC] /\
  forall i p n b q h, i < A -> p < P -> n < N -> b < B -> q < PC -> h < HC ->
    get c [i; p; n; b; q; h]
    = if b =? 0 then get v (bidx (shape v) [i; p; n; q; h])
      else get a [i; p; n; b; q; h].
Proof.
  intros Hs Hg. apply setitem_OK in Hg as (sels & Hn & _ & Hsc & Hget).
  rewrite Hs in Hn. cbn [norm_specs] in Hn.
  rewrite !norm_ix_all in Hn. cbn [bind] in Hn.
  destruct (norm_ix B (At 0%Z)) as [s0|] eqn:E; [|discriminate].
  apply norm_ix_at_OK in E as [Hi ->]; [|lia].
  cbn [bind] in Hn. injection Hn as <-.
  split; [exact Hi|]. split; [congruence|].
  intros i p n b q h Hi' Hp Hn Hb Hq Hh.
  rewrite Hget by (rewrite Hs; apply in_bounds6; repeat split; assumption).
  cbn [sel_dst]. rewrite !Nat.sub_0_r. cbn [Nat.leb andb].
  destruct (Nat.ltb_spec i (0 + A)); [|lia].
  destruct (Nat.ltb_spec p (0 + P)); [|lia].
  destruct (Nat.ltb_spec n (0 + N)); [|lia].
  destruct (Nat.ltb_spec q (0 + PC)); [|lia].
  destruct (Nat.ltb_spec h (0 + HC)); [|lia].
  change (Z.to_nat 0) with 0.
  destruct (b =? 0); reflexivity.
Qed.

Lemma shape6 (r : ndarray) :
  length (shape r) = 6 -> exists A P N B PC HC, shape r = [A; P; N; B; PC; HC].
Proof.
  destruct (shape r) as [|A [|P [|N [|B [|PC [|HC [|]]]]]]]; try discriminate.
  intros _. eauto 8.
Qed.

Section Resolve.
Context {G : Type}.
Variable C : Collab G.
Variable cfg : Settings.
Implicit Types s : Lookahead G.

(** An assignment to a part of the ranges at the root. *)
Lemma modify_root_setitem specs v s s' r :
  modify_layer 0 (fun L => do r <- setitem (ranges_data L) specs v;
                           OK (set_ranges_data r L)) s = OK s' ->
  root_ranges s = Some r ->
  exists r', setitem r specs v = OK r' /\ root_ranges s' = Some r' /\
             reconstruction_opponent_cfvs s'
             = reconstruction_opponent_cfvs s.
Proof.
  intros H Hr. apply modify_layer_OK in H as (k & L & L' & Hk & HL & Hf & ->).
  assert (Hlen : 0 < length (layers s)).
  { unfold root_ranges in Hr. destruct (layers s !! 0) eqn:E0; [|discriminate].
    apply lookup_lt_Some in E0. exact E0. }
  rewrite py_index_nonneg in Hk by lia. injection Hk as <-.
  change (Z.to_nat 0) with 0 in *.
  unfold root_ranges in Hr. rewrite HL in Hr. cbn in Hr. injection Hr as <-.
  repeat run_step. exists x. split; [reflexivity|]. split; [|reflexivity].
  unfold root_ranges. cbn [layers set_layers].
  rewrite list_lookup_insert_eq by exact Hlen. reflexivity.
Qed.

Lemma set_opponent_starting_range_root iter s s' :
  _set_opponent_starting_range C iter s = OK s' -> root_kept s s'.
Proof.
  intros H. destruct (reconstruction_opponent_cfvs s) as [oc|] eqn:Hflag.
  - unfold _set_opponent_starting_range in H. cbv zeta in H.
    change (reconstruction_opponent_cfvs
              (emit (Enter set_opponent_starting_range (Some iter)) s))
      with (reconstruction_opponent_cfvs s) in H.
    rewrite Hflag in H. repeat run_step.
    split; [|split].
    + apply modify_layer_frame in H. destruct H as (_ & -> & _).
      reflexivity.
    + rewrite Hflag. discriminate.
    + intros r Hr Hlen.
      destruct (modify_root_setitem _ _ _ _ r H Hr) as (r' & Hset & Hr' & _).
      exists r'. split; [exact Hr'|].
      destruct (shape6 r Hlen) as (A & P & N & B & PC & HC & Hs).
      change 1%Z with (Z.of_nat 1) in Hset.
      destruct (setitem_player_any _ _ _ _ _ _ _ _ _ _ Hs Hset)
        as (_ & Hs' & Hget).
      split; [congruence|].
      intros i p m b q h Hin Hq. rewrite Hs in Hin.
      apply in_bounds6 in Hin as (?&?&?&?&?&?).
      rewrite Hget by assumption.
      destruct (Nat.eqb_spec q 1); [contradiction|reflexivity].
  - rewrite (set_opponent_starting_range_off C iter s s' Hflag H).
    apply root_kept_same; reflexivity.
Qed.

Lemma iteration_root iter s s' :
  iteration C cfg iter s = OK s' -> root_kept s s'.
Proof.
  unfold iteration. intros H. repeat run_step.
  apply set_opponent_starting_range_root in E.
  pose proof (enters_flag _ _ _ (current_strategies_enters _ _ _ E0)).
  pose proof (enters_flag _ _ _ (ranges_enters _ _ _ E1)).
  pose proof (enters_flag _ _ _ (update_average_strategies_enters _ _ _ _ E2)).
  pose proof (enters_flag _ _ _ (terminal_equities_enters _ _ _ _ E3)).
  pose proof (enters_flag _ _ _ (cfvs_enters _ _ E4)).
  pose proof (enters_flag _ _ _ (regrets_enters _ _ _ E5)).
  pose proof (enters_flag _ _ _ (cumulate_average_cfvs_enters _ _ _ _ H)).
  apply current_strategies_root_ranges in E0.
  apply ranges_root_ranges in E1.
  apply update_average_strategies_root_ranges in E2.
  apply terminal_equities_root_ranges in E3.
  apply cfvs_root_ranges in E4.
  apply regrets_root_ranges in E5.
  apply cumulate_average_cfvs_root_ranges in H.
  eapply root_kept_trans; [exact E|].
  apply root_kept_same; congruence.
Qed.

Lemma compute_root s s' : _compute C cfg s = OK s' -> root_kept s s'.
Proof.
  unfold _compute. intros H. repeat run_step.
  apply (for_each_rel root_kept) in E;
    [|apply root_kept_refl|apply root_kept_trans
     |intros d a b _; apply iteration_root].
  pose proof (enters_flag _ _ _ (normalize_average_strategies_enters _ _ E0)).
  pose proof (enters_flag _ _ _ (normalize_average_cfvs_enters _ _ _ H)).
  apply normalize_average_strategies_root_ranges in E0.
  apply normalize_average_cfvs_root_ranges in H.
  eapply root_kept_trans; [exact E|].
  apply root_kept_same; congruence.
Qed.

(** X11: when [resolve_first_node] returns, the first layer holds the two
    ranges that were given: the range of the first player at every node,
    batch and hand, whatever the lookahead held before; and, when no
    opponent CFVs are stored, the range of the second player as well.  No
    phase of the re-solve assigns to them. *)
Theorem resolve_first_node_root_ranges pr opr s s' r A P N B PC HC :
  resolve_first_node C cfg (Some pr) (Some opr) s = OK s' ->
  root_ranges s = Some r ->
  shape r = [A; P; N; B; PC; HC] ->
  exists r',
    root_ranges s' = Some r' /\ shape r' = shape r /\
    forall i p n b h, i < A -> p < P -> n < N -> b < B -> h < HC ->
      get r' [i; p; n; b; 0; h] = get pr (bidx (shape pr) [i; p; n; b; h]) /\
      (reconstruction_opponent_cfvs s = None ->
       get r' [i; p; n; b; 1; h] = get opr (bidx (shape opr) [i; p; n; b; h])).
Proof.
  intros H Hr Hs. unfold resolve_first_node in H. cbn [of_option bind] in H.
  repeat run_step.
  destruct (modify_root_setitem _ _ _ _ r E Hr) as (r1 & Hset1 & Hr1 & Hf1).
  destruct (modify_root_setitem _ _ _ _ r1 E0 Hr1) as (r2 & Hset2 & Hr2 & Hf2).
  change 0%Z with (Z.of_nat 0) in Hset1.
  change 1%Z with (Z.of_nat 1) in Hset2.
  destruct (setitem_player_any _ _ _ _ _ _ _ _ _ _ Hs Hset1)
    as (H0 & Hs1 & Hget1).
  destruct (setitem_player_any _ _ _ _ _ _ _ _ _ _ Hs1 Hset2)
    as (H1 & Hs2 & Hget2).
  destruct (compute_root _ _ H) as (_ & Hnone & Hkept).
  destruct (Hkept r2 Hr2) as (r' & Hr' & Hsr' & Hget').
  { rewrite Hs2. reflexivity. }
  exists r'. split; [exact Hr'|]. split; [congruence|].
  intros i p n b h Hi Hp Hn Hb Hh. split.
  - rewrite Hget' by (try discriminate; rewrite Hs2; apply in_bounds6;
                      repeat split; assumption).
    rewrite Hget2 by assumption. cbn [Nat.eqb].
    rewrite Hget1 by assumption. reflexivity.
  - intros Hflag. rewrite Hnone, Hr2 in Hr' by congruence.
    injection Hr' as <-. rewrite Hget2 by assumption. reflexivity.
Qed.

(** X12: [resolve] assigns the range of the player with five indices, so
    the fourth, the batch, is the one that is fixed.  When it returns, the
    ranges of the first layer in the first batch are the given range, for
    every player but the second (whose range the gadget gives), and with
    the player's axis of the layer matched against the first axis of the
    given range; the ranges in the other batches are those that the
    lookahead held before the call. *)
Theorem resolve_root_ranges pr oc s s' r A P N B PC HC :
  resolve C cfg (Some pr) (Some oc) s = OK s' ->
  root_ranges s = Some r ->
  shape r = [A; P; N; B; PC; HC] ->
  exists r',
    root_ranges s' = Some r' /\ shape r' = shape r /\
    forall i p n b q h,
      i < A -> p < P -> n < N -> b < B -> q < PC -> h < HC -> q <> 1 ->
      get r' [i; p; n; b; q; h]
      = if b =? 0 then get pr (bidx (shape pr) [i; p; n; q; h])
        else get r [i; p; n; b; q; h].
Proof.
  intros H Hr Hs. unfold resolve in H. cbn [of_option bind] in H.
  cbv zeta in H. repeat run_step.
  destruct (modify_root_setitem _ _ _ _ r E Hr) as (r1 & Hset1 & Hr1 & _).
  destruct (setitem_batch0 _ _ _ _ _ _ _ _ _ Hs Hset1) as (_ & Hs1 & Hget1).
  destruct (compute_root _ _ H) as (_ & _ & Hkept).
  destruct (Hkept r1 Hr1) as (r' & Hr' & Hsr' & Hget').
  { rewrite Hs1. reflexivity. }
  exists r'. split; [exact Hr'|]. split; [congruence|].
  intros i p n b q h Hi Hp Hn Hb Hq Hh Hq1.
  rewrite Hget' by (try assumption; rewrite Hs1; apply in_bounds6;
                    repeat split; assumption).
  apply Hget1; assumption.
Qed.

End Resolve.

(** ** The further properties on small lookaheads *)

Lemma regrets_within_clip_bounds_witness :
  exists s' L,
    _compute_regrets (Toy.cfg 3 1) Toy.played = OK s' /\
    layer s' 1 = OK L /\
    Forall (fun x => is_nan x = false ->
                     exists q, x = Fin q /\
                               (0 <= q <= max_number (Toy.cfg 3 1))%Q)
           (data (regrets_data L)).
Proof.
  destruct (_compute_regrets (Toy.cfg 3 1) Toy.played) as [s'|e] eqn:E.
  - destruct (layer s' 1) as [L|e] eqn:EL.
    + exists s', L. split; [reflexivity|]. split; [exact EL|].
      apply (regrets_within_clip_bounds (Toy.cfg 3 1) Toy.played s' 1%Z L);
        [|exact E| |exact EL].
      * vm_compute. discriminate.
      * vm_compute. split; [discriminate|reflexivity].
    + vm_compute in E. injection E as <-. vm_compute in EL. discriminate EL.
  - vm_compute in E. discriminate E.
Defined.

Lemma resolve_keeps_layout_witness :
  exists s',
    resolve_first_node Toy.collab (Toy.cfg 3 1) (Some Toy.uniform)
                       (Some Toy.uniform) Toy.lookahead = OK s' /\
    layout_kept Toy.lookahead s'.
Proof.
  destruct (resolve_first_node Toy.collab (Toy.cfg 3 1) (Some Toy.uniform)
              (Some Toy.uniform) Toy.lookahead) as [s'|e] eqn:E.
  - exists s'. split; [reflexivity|].
    exact (resolve_keeps_layout Toy.collab (Toy.cfg 3 1) _ _ _ _
             (or_introl E)).
  - vm_compute in E. discriminate E.
Defined.

Lemma resolve_depth3_raises_witness :
  _compute_regrets (Toy.cfg 3 1) Toy.three = Raise UnboundLocalError /\
  resolve_first_node Toy.collab (Toy.cfg 3 1) (Some Toy.uniform)
                     (Some Toy.uniform) Toy.three
  = Raise UnboundLocalError /\
  (exists e, _compute_regrets (Toy.cfg 3 1) Toy.three = Raise e) /\
  (exists e, resolve_first_node Toy.collab (Toy.cfg 3 1) (Some Toy.uniform)
               (Some Toy.uniform) Toy.three = Raise e) /\
  (exists e, resolve Toy.collab (Toy.cfg 3 1) (Some Toy.uniform)
               (Some Toy.uniform) Toy.three = Raise e).
Proof.
  split; [vm_compute; reflexivity|]. split; [vm_compute; reflexivity|].
  apply (resolve_depth3_raises Toy.collab (Toy.cfg 3 1)
           (Some Toy.uniform) (Some Toy.uniform) Toy.three).
  - reflexivity.
  - vm_compute. discriminate.
Defined.

Lemma resolve_first_node_after_resolve_witness :
  exists s1 s2,
    resolve Toy.collab (Toy.cfg 1 0) (Some Toy.uniform) (Some Toy.uniform)
            Toy.lookahead = OK s1 /\
    resolve_first_node Toy.collab (Toy.cfg 1 0) (Some Toy.uniform)
                       (Some Toy.uniform) s1 = OK s2 /\
    reconstruction_opponent_cfvs s2 = Some Toy.uniform /\
    map snd (gadget_calls (trace s2))
    = map snd (gadget_calls (trace s1)) ++ [0]%Z /\
    forall out, get_results (Toy.cfg 1 0) s2 = OK out ->
      root_cfvs out = None /\ root_cfvs_both_players out = None.
Proof.
  destruct (resolve Toy.collab (Toy.cfg 1 0) (Some Toy.uniform)
              (Some Toy.uniform) Toy.lookahead) as [s1|e] eqn:E1.
  - destruct (resolve_first_node Toy.collab (Toy.cfg 1 0) (Some Toy.uniform)
                (Some Toy.uniform) s1) as [s2|e] eqn:E2.
    + exists s1, s2. split; [reflexivity|]. split; [exact E2|].
      destruct (resolve_first_node_after_resolve Toy.collab (Toy.cfg 1 0)
                  _ _ _ _ _ _ _ E1 E2) as (Hflag & _ & Hcalls & Hout).
      split; [exact Hflag|]. split; [exact Hcalls|exact Hout].
    + vm_compute in E1. injection E1 as <-. vm_compute in E2. discriminate E2.
  - vm_compute in E1. discriminate E1.
Defined.

Lemma current_strategy_is_regret_matching_witness :
  exists s' L L',
    _compute_current_strategies (Toy.cfg 3 1) Toy.played = OK s' /\
    layer Toy.played 1 = OK L /\
    layer s' 1 = OK L' /\
    get (current_strategy_data L') [1; 0; 0; 0; 0]
    = div (positive_regret (Toy.cfg 3 1) (regret_epsilon Toy.played) L
                           [1; 0; 0; 0; 0])
          (mul (sum_list
                  (map (fun i => positive_regret (Toy.cfg 3 1)
                                   (regret_epsilon Toy.played) L
                                   [i; 0; 0; 0; 0])
                       (seq 0 2)))
               one).
Proof.
  destruct (_compute_current_strategies (Toy.cfg 3 1) Toy.played)
    as [s'|e] eqn:E.
  - destruct (layer Toy.played 1) as [L|e] eqn:EL.
    + destruct (layer s' 1) as [L'|e] eqn:EL'.
      * exists s', L, L'. split; [reflexivity|]. split; [reflexivity|].
        split; [exact EL'|].
        assert (Hsh : shape (regrets_data L) = [2; 1; 1; 1; 2] /\
                      shape (empty_action_mask L) = [2; 1; 1; 1; 2] /\
                      shape (current_strategy_data L) = [2; 1; 1; 1; 2])
          by (injection EL as <-; repeat split; reflexivity).
        destruct Hsh as (Hsr & Hsm & Hsc).
        apply (current_strategy_is_regret_matching (Toy.cfg 3 1) Toy.played s'
                 1%Z L L' 2 [1; 1; 1; 2] 1 [0; 0; 0; 0] E);
          [|exact EL|exact EL'|exact Hsr|exact Hsm|exact Hsc|].
        -- vm_compute. split; [discriminate|reflexivity].
        -- repeat constructor.
      * vm_compute in E. injection E as <-. vm_compute in EL'. discriminate EL'.
    + vm_compute in EL. discriminate EL.
  - vm_compute in E. discriminate E.
Defined.

Lemma current_strategy_uniform_witness :
  exists s' L L',
    _compute_current_strategies (Toy.cfg 3 1) Toy.played = OK s' /\
    layer Toy.played 1 = OK L /\
    layer s' 1 = OK L' /\
    (get (empty_action_mask L) [0; 0; 0; 0; 0] = one ->
     get (empty_action_mask L) [1; 0; 0; 0; 0] = one ->
     equiv (get (current_strategy_data L') [0; 0; 0; 0; 0])
           (get (current_strategy_data L') [1; 0; 0; 0; 0])) /\
    (get (empty_action_mask L) [0; 0; 0; 0; 0] = zero ->
     equiv (get (current_strategy_data L') [0; 0; 0; 0; 0]) zero).
Proof.
  destruct (_compute_current_strategies (Toy.cfg 3 1) Toy.played)
    as [s'|e] eqn:E.
  - destruct (layer Toy.played 1) as [L|e] eqn:EL.
    + destruct (layer s' 1) as [L'|e] eqn:EL'.
      * exists s', L, L'. split; [reflexivity|]. split; [reflexivity|].
        split; [exact EL'|].
        assert (HL : shape (regrets_data L) = [2; 1; 1; 1; 2] /\
                     shape (empty_action_mask L) = [2; 1; 1; 1; 2] /\
                     shape (current_strategy_data L) = [2; 1; 1; 1; 2] /\
                     binary (empty_action_mask L) /\
                     (forall i, i < 2 ->
                        exists r, get (regrets_data L) [i; 0; 0; 0; 0] = Fin r /\
                                  (r <= regret_epsilon Toy.played)%Q) /\
                     get (empty_action_mask L) [0; 0; 0; 0; 0] = one).
        { injection EL as <-. repeat split; try reflexivity.
          - vm_compute. repeat (constructor; [right; reflexivity|]). constructor.
          - intros i Hi. exists (-3)%Q.
            destruct i as [|[|i]]; [| |lia];
              (split; [reflexivity|vm_compute; discriminate]). }
        destruct HL as (Hsr & Hsm & Hsc & Hbin & Hreg & Hm0).
        apply (current_strategy_uniform (Toy.cfg 3 1) Toy.played s'
                 1%Z L L' 2 [1; 1; 1; 2] 0 1 [0; 0; 0; 0]);
          [| |exact E| |exact EL|exact EL'|exact Hsr|exact Hsm|exact Hsc
           |exact Hbin| | |exact Hreg|].
        -- vm_compute. reflexivity.
        -- vm_compute. discriminate.
        -- vm_compute. split; [discriminate|reflexivity].
        -- repeat constructor.
        -- repeat constructor.
        -- exists 0. split; [lia|exact Hm0].
      * vm_compute in E. injection E as <-. vm_compute in EL'. discriminate EL'.
    + vm_compute in EL. discriminate EL.
  - vm_compute in E. discriminate E.
Defined.


Lemma get_chance_action_cfv_effect_witness :
  exists out s' view,
    get_chance_action_cfv Toy.collab (Toy.cfg 3 1) (-1) [] Toy.lookahead
    = OK (out, s') /\
    layers s' = layers Toy.lookahead /\
    next_street_boxes_outputs s'
    = mkArr (shape (next_street_boxes_outputs Toy.lookahead)) (data view) /\
    shape view = [1; 2; 2] /\
    forall i p h, i < 1 -> p < 2 -> h < 2 ->
      get view [i; p; h]
      = if (i =? Z.to_nat 0) && (p =? Z.to_nat (current_player (tree Toy.lookahead)))
        then get out [h]
        else get (mkArr [1; 2; 2]
                        (data (get_value_on_board Toy.collab []
                                 (mkArr [1; 2; 2] [Fin 1; Fin 2; Fin 3; Fin 4]))))
                 [i; p; h].
Proof.
  refine (proj2 (get_chance_action_cfv_effect Toy.collab (Toy.cfg 3 1) (-1) []
                   Toy.lookahead 0
                   (mkArr [1; 2; 2] [Fin 1; Fin 2; Fin 3; Fin 4]) 1 2 2 1
                   _ _ _ _) _ _ _).
  - reflexivity.
  - reflexivity.
  - reflexivity.
  - reflexivity.
  - lia.
  - lia.
  - vm_compute. split; [discriminate|reflexivity].
Defined.

Lemma warm_up_iteration_keeps_averages_witness :
  exists s',
    iteration Toy.collab (Toy.cfg 3 1) 0 Toy.lookahead = OK s' /\
    map averages (layers s') = map averages (layers Toy.lookahead).
Proof.
  destruct (iteration Toy.collab (Toy.cfg 3 1) 0 Toy.lookahead)
    as [s'|e] eqn:E.
  - exists s'. split; [reflexivity|].
    apply (warm_up_iteration_keeps_averages Toy.collab (Toy.cfg 3 1) 0
             Toy.lookahead s'); [|exact E].
    vm_compute. discriminate.
  - vm_compute in E. discriminate E.
Defined.

Lemma resolve_first_node_root_ranges_witness :
  exists s' r',
    resolve_first_node Toy.collab (Toy.cfg 1 0)
                       (Some (mkArr [1; 2] [Fin (1 # 4); Fin (3 # 4)]))
                       (Some Toy.uniform) Toy.lookahead2 = OK s' /\
    root_ranges s' = Some r' /\
    shape r' = [1; 1; 1; 2; 2; 2] /\
    forall i p n b h, i < 1 -> p < 1 -> n < 1 -> b < 2 -> h < 2 ->
      get r' [i; p; n; b; 0; h]
      = get (mkArr [1; 2] [Fin (1 # 4); Fin (3 # 4)])
            (bidx [1; 2] [i; p; n; b; h]) /\
      (reconstruction_opponent_cfvs Toy.lookahead2 = None ->
       get r' [i; p; n; b; 1; h]
       = get Toy.uniform (bidx (shape Toy.uniform) [i; p; n; b; h])).
Proof.
  destruct (resolve_first_node Toy.collab (Toy.cfg 1 0)
              (Some (mkArr [1; 2] [Fin (1 # 4); Fin (3 # 4)]))
              (Some Toy.uniform) Toy.lookahead2) as [s'|e] eqn:E.
  - destruct (resolve_first_node_root_ranges Toy.collab (Toy.cfg 1 0)
                _ _ Toy.lookahead2 s' (full [1; 1; 1; 2; 2; 2] (Fin (1 # 2)))
                1 1 1 2 2 2 E eq_refl eq_refl) as (r' & Hr' & Hs & Hget).
    exists s', r'. split; [reflexivity|]. split; [exact Hr'|].
    split; [exact Hs|exact Hget].
  - vm_compute in E. discriminate E.
Defined.

Lemma resolve_root_ranges_witness :
  exists s' r',
    resolve Toy.collab (Toy.cfg 1 0)
            (Some (mkArr [1; 2] [Fin (1 # 4); Fin (3 # 4)]))
            (Some Toy.uniform) Toy.lookahead2 = OK s' /\
    root_ranges s' = Some r' /\
    shape r' = [1; 1; 1; 2; 2; 2] /\
    get r' [0; 0; 0; 0; 0; 1] = Fin (3 # 4) /\
    get r' [0; 0; 0; 1; 0; 1] = Fin (1 # 2) /\
    forall i p n b q h,
      i < 1 -> p < 1 -> n < 1 -> b < 2 -> q < 2 -> h < 2 -> q <> 1 ->
      get r' [i; p; n; b; q; h]
      = if b =? 0
        then get (mkArr [1; 2] [Fin (1 # 4); Fin (3 # 4)])
                 (bidx [1; 2] [i; p; n; q; h])
        else get (full [1; 1; 1; 2; 2; 2] (Fin (1 # 2))) [i; p; n; b; q; h].
Proof.
  destruct (resolve Toy.collab (Toy.cfg 1 0)
              (Some (mkArr [1; 2] [Fin (1 # 4); Fin (3 # 4)]))
              (Some Toy.uniform) Toy.lookahead2) as [s'|e] eqn:E.
  - destruct (resolve_root_ranges Toy.collab (Toy.cfg 1 0)
                _ _ Toy.lookahead2 s' (full [1; 1; 1; 2; 2; 2] (Fin (1 # 2)))
                1 1 1 2 2 2 E eq_refl eq_refl) as (r' & Hr' & Hs & Hget).
    exists s', r'. split; [reflexivity|]. split; [exact Hr'|].
    split; [exact Hs|].
    split; [|split; [|exact Hget]].
    + rewrite Hget by (try lia; discriminate). reflexivity.
    + rewrite Hget by (try lia; discriminate). reflexivity.
  - vm_compute in E. discriminate E.
Defined.
